(** * Quadtree contours over a min/max mipmap: a shallow embedding of [index.js]

    JavaScript numbers are IEEE-754 binary64 values and are modelled by the
    kernel's primitive [float]; array indices, cell coordinates, pyramid
    levels and scales are non-negative integers far below 2^53 and are
    modelled in [nat] (grid points and Map keys in [Z]), where double
    arithmetic on them is exact. *)

From Stdlib Require Import ZArith List Lia Bool Floats Uint63 QArith Qround Qpower Sorted.
From stdpp Require Import base list.

Local Open Scope nat_scope.

(** ** JavaScript values *)

(** What a call can do besides returning: throw, or (in the model only)
    exhaust the recursion/iteration budget it was given. *)
Inductive exn := TypeError | InvalidArgument.

Inductive outcome (A : Type) :=
| Ok (a : A)
| Throw (e : exn)
| OutOfFuel.
Arguments Ok {A} a.
Arguments Throw {A} e.
Arguments OutOfFuel {A}.

Definition obind {A B} (m : outcome A) (k : A -> outcome B) : outcome B :=
  match m with
  | Ok a => k a
  | Throw e => Throw e
  | OutOfFuel => OutOfFuel
  end.

Notation "'let*' x := m 'in' k" := (obind m (fun x => k))
  (at level 10, x pattern, m at level 100, k at level 200).

(** [for (i = 0; i < n; i++) body] over a loop state. *)
Definition for_range {S : Type} (n : nat) (body : nat -> S -> S) (s : S) : S :=
  fold_left (fun s i => body i s) (seq 0 n) s.

(** Integers as doubles (exact below 2^53). *)
Definition Z2F (z : Z) : float :=
  match z with
  | Z0 => PrimFloat.zero
  | Zpos _ => PrimFloat.of_uint63 (Uint63.of_Z z)
  | Zneg p => PrimFloat.opp (PrimFloat.of_uint63 (Uint63.of_Z (Zpos p)))
  end.

Definition N2F (n : nat) : float := Z2F (Z.of_nat n).

(** Reading [data[i]]: past the end the read gives [undefined], which
    compares false with everything, is not finite and is stored as NaN,
    exactly like NaN. *)
Definition getf (data : list float) (i : nat) : float :=
  default PrimFloat.nan (data !! i).

(** The value a [Float32Array] slot holds after a store: the double rounded
    to the nearest binary32 value (ties to even, overflow to infinity). *)
Definition fround (v : float) : float :=
  match Prim2SF v with
  | S754_finite s m e =>
      SF2Prim (binary_normalize 24 128 (cond_Zopp s (Zpos m)) e s)
  | _ => v
  end.

(** [out[i] = v] on a [Float32Array]: ignored past the end. *)
Definition store32 (out : list float) (i : nat) (v : float) : list float :=
  <[i := fround v]> out.

(** ** The mipmap pyramid *)

Record MipmapLevel := {
  min : list float;
  max : list float;
  width : nat;
  height : nat;
  scale : nat
}.

(** [minFinite(...arguments)] and [maxFinite(...arguments)]. *)
Definition minFinite (arguments : list float) : float :=
  fold_left (fun r v => if (v <? r)%float then v else r) arguments PrimFloat.infinity.

Definition maxFinite (arguments : list float) : float :=
  fold_left (fun r v => if (r <? v)%float then v else r) arguments PrimFloat.neg_infinity.

(** [Math.ceil(n / 2)] and [Math.floor(n / 2)] on a non-negative integer. *)
Definition ceil_half (n : nat) : nat := (n + 1) / 2.
Definition floor_half (n : nat) : nat := n / 2.

(** The loop nest of [reduceWith].  The variable [x] is declared without a
    value and is only assigned by the inner loops, so it is [None]
    ([undefined]) until one of them has run; [undefined < outWidth] is
    false. *)
Definition reduceWith (width height : nat) (data : list float)
    (reduce : list float -> float) : list float :=
  let outWidth := ceil_half width in
  let outHeight := ceil_half height in
  let out0 := replicate (outWidth * outHeight) PrimFloat.zero in
  let '(out1, x1) :=
    for_range (floor_half height) (fun y '(out, _) =>
      let out :=
        for_range (floor_half width) (fun x out =>
          store32 out (y * outWidth + x)
            (reduce [ getf data ((y * 2 + 0) * width + (x * 2 + 0));
                      getf data ((y * 2 + 0) * width + (x * 2 + 1));
                      getf data ((y * 2 + 1) * width + (x * 2 + 0));
                      getf data ((y * 2 + 1) * width + (x * 2 + 1)) ])) out in
      let x := floor_half width in
      let out :=
        if x <? outWidth then
          store32 out (y * outWidth + x)
            (reduce [ getf data ((y * 2 + 0) * width + (x * 2 + 0));
                      getf data ((y * 2 + 1) * width + (x * 2 + 0)) ])
        else out in
      (out, Some x)) (out0, None) in
  let y := floor_half height in
  let '(out2, x2) :=
    if y <? outHeight then
      (for_range (floor_half width) (fun x out =>
         store32 out (y * outWidth + x)
           (reduce [ getf data ((y * 2 + 0) * width + (x * 2 + 0));
                     getf data ((y * 2 + 0) * width + (x * 2 + 1)) ])) out1,
       Some (floor_half width))
    else (out1, x1) in
  match x2 with
  | Some x =>
      if (x <? outWidth) && (y <? outHeight) then
        store32 out2 (y * outWidth + x)
          (reduce [ getf data ((y * 2 + 0) * width + (x * 2 + 0)) ])
      else out2
  | None => out2
  end.

(** Build mipmap layer N from layer N+1. *)
Definition mipmapReduce (lvl : MipmapLevel) : MipmapLevel :=
  {| min := reduceWith (width lvl) (height lvl) (min lvl) minFinite;
     max := reduceWith (width lvl) (height lvl) (max lvl) maxFinite;
     width := ceil_half (width lvl);
     height := ceil_half (height lvl);
     scale := scale lvl * 2 |}.

Record ContourMipmap := { levels : list MipmapLevel }.

(** The constructor's [while] loop, [fuel] bounding its iterations:
    [levels.unshift(mipmapReduce(levels[0]))] while the top is wider or
    taller than one cell. *)
Fixpoint unshift_levels (fuel : nat) (lv : list MipmapLevel) : list MipmapLevel :=
  match fuel with
  | O => lv
  | S fuel' =>
      match lv with
      | top :: _ =>
          if (1 <? width top) || (1 <? height top)
          then unshift_levels fuel' (mipmapReduce top :: lv)
          else lv
      | [] => lv
      end
  end.

(** [new ContourMipmap(raster, width, height)].  Every iteration lowers
    [width + height] of the top level, so that many iterations are enough
    for the loop to leave by its own test ([unshift_levels_done] below). *)
Definition new_ContourMipmap (raster : list float) (width height : nat) : ContourMipmap :=
  {| levels :=
       unshift_levels (width + height)
         [ {| min := raster; max := raster; width := width; height := height; scale := 1 |} ] |}.

(** [min()] and [max()]: [this.levels[0].min[0]]. *)
Definition cm_min (this : ContourMipmap) : outcome float :=
  match levels this with
  | top :: _ => Ok (getf (min top) 0)
  | [] => Throw TypeError
  end.

Definition cm_max (this : ContourMipmap) : outcome float :=
  match levels this with
  | top :: _ => Ok (getf (max top) 0)
  | [] => Throw TypeError
  end.


(** ** The quadtree walk of [evaluateContour] *)

Inductive classification := OUTSIDE | ABOVE | BELOW | WITHIN.

Definition classification_eqb (a b : classification) : bool :=
  match a, b with
  | OUTSIDE, OUTSIDE | ABOVE, ABOVE | BELOW, BELOW | WITHIN, WITHIN => true
  | _, _ => false
  end.

(** [maxMipmapLevel = maxMipmapLevel || this.levels.length]: an absent or
    zero option falls back to the number of levels. *)
Definition effective_max (this : ContourMipmap) (maxMipmapLevel : option nat) : nat :=
  match maxMipmapLevel with
  | Some (S m) => S m
  | _ => length (levels this)
  end.

(** [evaluate(l, x, y)]: [this.levels[l]] is [undefined] past the last
    level, and reading [.width] of it throws. *)
Definition evaluate (this : ContourMipmap) (contourLevel : float) (maxMipmapLevel : nat)
    (l x y : nat) : outcome classification :=
  match levels this !! l with
  | None => Throw TypeError
  | Some ml =>
      let i := width ml * y + x in
      if (width ml <=? x) || (height ml <=? y)
         || negb (PrimFloat.is_finite (getf (min ml) i))
         || negb (PrimFloat.is_finite (getf (max ml) i))
      then Ok OUTSIDE
      else if (contourLevel <=? getf (min ml) i)%float then Ok ABOVE
      else if (getf (max ml) i <? contourLevel)%float then Ok BELOW
      else if maxMipmapLevel <=? l then Ok ABOVE
      else Ok WITHIN
  end.

(** The three mutually recursive closures, as the calls they stand for. *)
Inductive call :=
| Node (l x y : nat)
| EdgeH (l x y : nat)
| EdgeV (l x y : nat).

(** What the callbacks receive: [addLine(l, x1, y1, x2, y2)] and
    [addNode(l, x, y, e)]. *)
Inductive event :=
| Line (l x1 y1 x2 y2 : nat)
| Leaf (l x y : nat) (e : classification).

(** The calls [node] makes on a cell that is [WITHIN], in order. *)
Definition subdivide (l x y : nat) : list call :=
  [ Node (l + 1) (x * 2 + 0) (y * 2 + 0);
    Node (l + 1) (x * 2 + 1) (y * 2 + 0);
    Node (l + 1) (x * 2 + 0) (y * 2 + 1);
    Node (l + 1) (x * 2 + 1) (y * 2 + 1);
    EdgeH (l + 1) (x * 2 + 0) (y * 2 + 0);
    EdgeV (l + 1) (x * 2 + 0) (y * 2 + 0);
    EdgeH (l + 1) (x * 2 + 0) (y * 2 + 1);
    EdgeV (l + 1) (x * 2 + 1) (y * 2 + 0) ].

(** The two finer edges that replace an edge next to a [WITHIN] cell. *)
Definition splitH (l x y : nat) : list call :=
  [ EdgeH (l + 1) (x * 2 + 1) (y * 2 + 0); EdgeH (l + 1) (x * 2 + 1) (y * 2 + 1) ].

Definition splitV (l x y : nat) : list call :=
  [ EdgeV (l + 1) (x * 2 + 0) (y * 2 + 1); EdgeV (l + 1) (x * 2 + 1) (y * 2 + 1) ].

(** Running a sequence of calls, callbacks firing in order; an exception
    ends the walk. *)
Fixpoint visit_list (visit1 : call -> outcome (list event)) (cs : list call)
    : outcome (list event) :=
  match cs with
  | [] => Ok []
  | c :: cs' =>
      let* evs := visit1 c in
      let* evs' := visit_list visit1 cs' in
      Ok (evs ++ evs')
  end.

(** [node], [edgeH] and [edgeV].  [fuel] is the number of nested
    activations still allowed, so it bounds the recursion depth. *)
Fixpoint visit (this : ContourMipmap) (contourLevel : float) (maxMipmapLevel : nat)
    (addNode : bool) (fuel : nat) (c : call) : outcome (list event) :=
  match fuel with
  | O => OutOfFuel
  | S fuel' =>
      let evaluate := evaluate this contourLevel maxMipmapLevel in
      let recurse := visit_list (visit this contourLevel maxMipmapLevel addNode fuel') in
      match c with
      | Node l x y =>
          let* e := evaluate l x y in
          if classification_eqb e WITHIN then recurse (subdivide l x y)
          else Ok (if addNode then [Leaf l x y e] else [])
      | EdgeH l x y =>
          let* e1 := evaluate l x y in
          let* e2 := evaluate l (x + 1) y in
          if classification_eqb e1 ABOVE && classification_eqb e2 BELOW then
            Ok [Line l (x + 1) (y + 1) (x + 1) y]
          else if classification_eqb e2 ABOVE && classification_eqb e1 BELOW then
            Ok [Line l (x + 1) y (x + 1) (y + 1)]
          else if classification_eqb e1 WITHIN || classification_eqb e2 WITHIN then
            recurse (splitH l x y)
          else Ok []
      | EdgeV l x y =>
          let* e1 := evaluate l x y in
          let* e2 := evaluate l x (y + 1) in
          if classification_eqb e1 ABOVE && classification_eqb e2 BELOW then
            Ok [Line l x (y + 1) (x + 1) (y + 1)]
          else if classification_eqb e2 ABOVE && classification_eqb e1 BELOW then
            Ok [Line l (x + 1) (y + 1) x (y + 1)]
          else if classification_eqb e1 WITHIN || classification_eqb e2 WITHIN then
            recurse (splitV l x y)
          else Ok []
      end
  end.

(** [evaluateContour(contourLevel, { maxMipmapLevel }, addLine, addNode)]:
    the callbacks' arguments, in call order.  [addNode] may be absent. *)
Definition evaluateContour (this : ContourMipmap) (contourLevel : float)
    (maxMipmapLevel : option nat) (addNode : bool) (fuel : nat) : outcome (list event) :=
  visit this contourLevel (effective_max this maxMipmapLevel) addNode fuel (Node 0 0 0).

(** The two cells an edge visit classifies, and the cell a node visit
    classifies. *)
Definition cell := (nat * nat * nat)%type.

Definition edge_cells (c : call) : option (cell * cell) :=
  match c with
  | Node _ _ _ => None
  | EdgeH l x y => Some ((l, x, y), (l, x + 1, y))
  | EdgeV l x y => Some ((l, x, y), (l, x, y + 1))
  end.

Definition node_cell (c : call) : option cell :=
  match c with
  | Node l x y => Some (l, x, y)
  | _ => None
  end.

(** ** Stitching segments into lines and rings ([contour]) *)

Definition point := (Z * Z)%type.

Record segment := { start : point; end_ : point }.

(** The [addLine] callback of [contour]: scale the grid coordinates by the
    level's [scale] and push the segment. *)
Fixpoint collect_segments (this : ContourMipmap) (evs : list event) : outcome (list segment) :=
  match evs with
  | [] => Ok []
  | Line l x1 y1 x2 y2 :: evs' =>
      match levels this !! l with
      | None => Throw TypeError
      | Some ml =>
          let* segs := collect_segments this evs' in
          Ok ({| start := (Z.of_nat (scale ml * x1), Z.of_nat (scale ml * y1));
                 end_ := (Z.of_nat (scale ml * x2), Z.of_nat (scale ml * y2)) |} :: segs)
      end
  | Leaf _ _ _ _ :: evs' => collect_segments this evs'
  end.

(** An arbitrary function to use a 2D point as a Map key. *)
Definition key (a : point) : Z := (fst a + snd a * 65536)%Z.

(** [segments.sort((a, b) => key(a.start) - key(b.start))]: the stable
    sort by ascending start key. *)
Fixpoint insert_segment (s : segment) (l : list segment) : list segment :=
  match l with
  | [] => [s]
  | t :: l' =>
      if (key (start s) <? key (start t))%Z then s :: t :: l'
      else t :: insert_segment s l'
  end.

Definition sort_segments (l : list segment) : list segment :=
  fold_left (fun acc s => insert_segment s acc) l [].

(** A JavaScript [Map] from keys to array references: entries in insertion
    order, [set] on a present key replacing the value in place. *)
Abbreviation jsmap := (list (Z * nat)).

Fixpoint map_get (k : Z) (m : jsmap) : option nat :=
  match m with
  | [] => None
  | (k', v) :: m' => if (k' =? k)%Z then Some v else map_get k m'
  end.

Fixpoint map_set (k : Z) (v : nat) (m : jsmap) : jsmap :=
  match m with
  | [] => [(k, v)]
  | (k', v') :: m' => if (k' =? k)%Z then (k, v) :: m' else (k', v') :: map_set k v m'
  end.

Definition map_delete (k : Z) (m : jsmap) : jsmap :=
  List.filter (fun kv => negb (fst kv =? k)%Z) m.

Definition map_size (m : jsmap) : nat := length m.

Definition map_values (m : jsmap) : list nat := map snd m.

(** The objects of the program live in a heap and are handled by
    reference: the arrays of points the stitcher allocates (both maps may
    hold the same array, and [push] and [unshift] change it for every
    holder), and with them whatever the program already holds, the pyramid
    included: arrays of numbers (a raster, a [Float32Array]), level objects
    [{ min, max, width, height, scale }] holding their arrays by reference,
    the array [this.levels] of level objects, and the [ContourMipmap]
    itself. *)
Inductive object :=
| Points (c : list point)
| Numbers (a : list float)
| LevelObject (min_ref max_ref : nat) (width height scale : nat)
| LevelArray (level_refs : list nat)
| Mipmap (levels_ref : nat).

Abbreviation heap := (list object).

(** The points of the array at [r].  The stitcher follows only references
    it has made itself, which hold arrays of points. *)
Definition deref (h : heap) (r : nat) : list point :=
  match h !! r with
  | Some (Points c) => c
  | _ => []
  end.

(** [a.push(p)] and [a.unshift(p)] write through the reference, whatever
    it refers to. *)
Definition array_push (h : heap) (r : nat) (p : point) : heap :=
  <[r := Points (deref h r ++ [p])]> h.

Definition array_unshift (h : heap) (r : nat) (p : point) : heap :=
  <[r := Points (p :: deref h r)]> h.

Definition first_point (c : list point) : point := hd (0, 0)%Z c.
Definition last_point (c : list point) : point := List.last c (0, 0)%Z.

Record stitch_state := {
  fragmentStart : jsmap;
  fragmentEnd : jsmap;
  rings : list nat;
  store : heap;
  (* what [console.error] was called with *)
  mismatches : list (nat * nat)
}.

(** The branches of the body of [segments.forEach]. Fragments are never
    empty (they are created with two points and only grow), so [c[0]] and
    [c[c.length - 1]] are always points. *)
Definition stitch_segment (st : stitch_state) (s : segment) : stitch_state :=
  let a := map_get (key (start s)) (fragmentEnd st) in
  let b := map_get (key (end_ s)) (fragmentStart st) in
  match a, b with
  | Some a, Some b =>
      let fE := map_delete (key (start s)) (fragmentEnd st) in
      let fS := map_delete (key (end_ s)) (fragmentStart st) in
      if a =? b then
        (* Close a ring *)
        {| fragmentStart := fS; fragmentEnd := fE;
           rings := rings st ++ [a];
           store := array_push (store st) a (end_ s);
           mismatches := mismatches st |}
      else
        (* Join two lines together *)
        let cv := deref (store st) a ++ deref (store st) b in
        let c := length (store st) in
        {| fragmentStart := map_set (key (first_point cv)) c fS;
           fragmentEnd := map_set (key (last_point cv)) c fE;
           rings := rings st;
           store := store st ++ [Points cv];
           mismatches := mismatches st |}
  | Some a, None =>
      (* Extend an existing line from the end *)
      {| fragmentStart := fragmentStart st;
         fragmentEnd := map_set (key (end_ s)) a (map_delete (key (start s)) (fragmentEnd st));
         rings := rings st;
         store := array_push (store st) a (end_ s);
         mismatches := mismatches st |}
  | None, Some b =>
      (* Extend an existing line from the start *)
      {| fragmentStart := map_set (key (start s)) b (map_delete (key (end_ s)) (fragmentStart st));
         fragmentEnd := fragmentEnd st;
         rings := rings st;
         store := array_unshift (store st) b (start s);
         mismatches := mismatches st |}
  | None, None =>
      (* New line doesn't connect to any existing line *)
      let c := length (store st) in
      {| fragmentStart := map_set (key (start s)) c (fragmentStart st);
         fragmentEnd := map_set (key (end_ s)) c (fragmentEnd st);
         rings := rings st;
         store := store st ++ [Points [start s; end_ s]];
         mismatches := mismatches st |}
  end.

(** The check that ends the body: [console.error] when the two maps differ
    in size. *)
Definition check_sizes (st : stitch_state) : stitch_state :=
  if map_size (fragmentStart st) =? map_size (fragmentEnd st) then st
  else
    {| fragmentStart := fragmentStart st; fragmentEnd := fragmentEnd st;
       rings := rings st; store := store st;
       mismatches :=
         mismatches st ++ [(map_size (fragmentStart st), map_size (fragmentEnd st))] |}.

Definition stitch_step (st : stitch_state) (s : segment) : stitch_state :=
  check_sizes (stitch_segment st s).

(** The stitcher started on the heap [h] it finds. *)
Definition stitch_init (h : heap) : stitch_state :=
  {| fragmentStart := []; fragmentEnd := []; rings := []; store := h; mismatches := [] |}.

Definition stitch (h : heap) (segments : list segment) : stitch_state :=
  fold_left stitch_step segments (stitch_init h).

(** Closed rings and any unclosed line strings:
    [[...rings, ...fragmentStart.values()]]. *)
Definition stitched_lines (st : stitch_state) : list (list point) :=
  map (deref (store st)) (rings st ++ map_values (fragmentStart st)).

(** ** Smoothing *)

Definition fpoint := (float * float)%type.

Definition to_fpoint (p : point) : fpoint := (Z2F (fst p), Z2F (snd p)).

(** [line[i]] followed by a coordinate read: [None] stands for the
    [TypeError] of reading a coordinate of [undefined]. *)
Definition line_at (line : list fpoint) (i : Z) : option fpoint :=
  if (0 <=? i)%Z then line !! Z.to_nat i else None.

Definition is_loop (line : list fpoint) : option bool :=
  p ← line_at line 0;
  q ← line_at line (Z.of_nat (length line) - 1);
  Some ((fst p =? fst q)%float && (snd p =? snd q)%float).

Definition pointAt (isLoop : bool) (line : list fpoint) (i : Z) : option fpoint :=
  let len := Z.of_nat (length line) in
  if isLoop then line_at line (Z.rem (i + len) len)
  else line_at line (Z.min (Z.max i 0) (len - 1)).

(** [for (i = from; i < from + n; i++) { px += line[i][0]; py += line[i][1] }] *)
Fixpoint sum_points (line : list fpoint) (from : Z) (n : nat) (p : fpoint) : option fpoint :=
  match n with
  | O => Some p
  | S n' =>
      q ← line_at line from;
      sum_points line (from + 1) n' ((fst p + fst q)%float, (snd p + snd q)%float)
  end.

(** The loop that fills [res] while sliding the window along [line]. *)
Fixpoint slide (isLoop : bool) (kernelWidth : Z) (sc : float) (line : list fpoint)
    (i : Z) (n : nat) (res : list fpoint) (p : fpoint) : option (list fpoint) :=
  match n with
  | O => Some res
  | S n' =>
      let res := <[Z.to_nat i := ((fst p * sc)%float, (snd p * sc)%float)]> res in
      a ← pointAt isLoop line (i + kernelWidth);
      b ← pointAt isLoop line (i - kernelWidth);
      slide isLoop kernelWidth sc line (i + 1) n' res
        ((fst p + (fst a - fst b))%float, (snd p + (snd a - snd b))%float)
  end.

(** One pass of the [for (cycle ...)] loop. *)
Definition smooth_cycle (isLoop : bool) (kernelWidth : nat) (sc : float)
    (line : list fpoint) : option (list fpoint) :=
  let len := Z.of_nat (length line) in
  let kw := Z.of_nat kernelWidth in
  p0 ← (if isLoop then sum_points line (len - kw) kernelWidth (PrimFloat.zero, PrimFloat.zero)
        else
          f ← line_at line 0;
          Some ((fst f * N2F kernelWidth)%float, (snd f * N2F kernelWidth)%float));
  p1 ← sum_points line 0 kernelWidth p0;
  res ← slide isLoop kw sc line 0 (length line) line p1;
  if isLoop then
    (* Keep the loop closed *)
    r0 ← res !! 0;
    Some (<[length res - 1 := r0]> res)
  else Some res.

Fixpoint smooth_cycles (isLoop : bool) (kernelWidth : nat) (sc : float)
    (cycles : nat) (line : list fpoint) : option (list fpoint) :=
  match cycles with
  | O => Some line
  | S cycles' =>
      res ← smooth_cycle isLoop kernelWidth sc line;
      smooth_cycles isLoop kernelWidth sc cycles' res
  end.

(** [smooth(line, { kernelWidth, cycles })]. *)
Definition smooth (line : list fpoint) (kernelWidth cycles : nat) : option (list fpoint) :=
  isLoop ← is_loop line;
  let sc := (1 / N2F (kernelWidth * 2))%float in
  smooth_cycles isLoop kernelWidth sc cycles line.

(** ** [contour] *)

Record contour_opts := {
  maxMipmapLevel : option nat;
  smoothKernelWidth : nat;
  smoothCycles : nat;
  minPoints : nat
}.

Definition default_opts : contour_opts :=
  {| maxMipmapLevel := None; smoothKernelWidth := 2; smoothCycles := 2; minPoints := 0 |}.

Fixpoint smooth_all (lines : list (list fpoint)) (kernelWidth cycles : nat)
    : outcome (list (list fpoint)) :=
  match lines with
  | [] => Ok []
  | l :: lines' =>
      match smooth l kernelWidth cycles with
      | None => Throw TypeError
      | Some r =>
          let* rs := smooth_all lines' kernelWidth cycles in
          Ok (r :: rs)
      end
  end.

(** The segments handed to the stitcher: collected by the walk, then sorted. *)
Definition contour_segments (this : ContourMipmap) (level : float) (opts : contour_opts)
    (fuel : nat) : outcome (list segment) :=
  let* evs := evaluateContour this level (maxMipmapLevel opts) false fuel in
  let* segments := collect_segments this evs in
  Ok (sort_segments segments).

Definition keep_line (opts : contour_opts) (l : list point) : bool :=
  (minPoints opts <=? length l) && (smoothKernelWidth opts * 2 <=? length l).

(** [contour(level, opts)] run on the heap [h]: the lines returned, and the
    heap it leaves behind. *)
Definition contour (this : ContourMipmap) (level : float) (opts : contour_opts)
    (fuel : nat) (h : heap) : outcome (list (list fpoint)) * heap :=
  match contour_segments this level opts fuel with
  | Ok segments =>
      let st := stitch h segments in
      let kept := List.filter (keep_line opts) (stitched_lines st) in
      (smooth_all (map (map to_fpoint) kept) (smoothKernelWidth opts) (smoothCycles opts),
       store st)
  | Throw e => (Throw e, h)
  | OutOfFuel => (OutOfFuel, h)
  end.

(** ** [intervals] *)

(** The arithmetic [intervals] uses, so that the same loop can be read in
    binary64 (what the code runs) and in exact rational arithmetic. *)
Record arith (F : Type) := {
  a_zero : F;
  a_ltb : F -> F -> bool;
  a_leb : F -> F -> bool;
  a_add : F -> F -> F;
  a_mul : F -> F -> F;
  a_div : F -> F -> F;
  a_ceil : F -> F
}.
Arguments a_zero {F}. Arguments a_ltb {F}. Arguments a_leb {F}.
Arguments a_add {F}. Arguments a_mul {F}. Arguments a_div {F}. Arguments a_ceil {F}.

(** [Math.ceil] on a double. *)
Definition ceil (v : float) : float :=
  match Prim2SF v with
  | S754_finite s m e =>
      if (0 <=? e)%Z then v
      else
        let q := Z.shiftr (Zpos m) (- e) in
        if s then (- Z2F q)%float
        else if (Z.shiftl q (- e) =? Zpos m)%Z then Z2F q
        else Z2F (q + 1)
  | _ => v
  end.

Definition binary64 : arith float :=
  {| a_zero := PrimFloat.zero;
     a_ltb := PrimFloat.ltb; a_leb := PrimFloat.leb;
     a_add := PrimFloat.add; a_mul := PrimFloat.mul; a_div := PrimFloat.div;
     a_ceil := ceil |}.

Definition Qltb (a b : Q) : bool := negb (Qle_bool b a).

Definition exact : arith Q :=
  {| a_zero := 0%Q;
     a_ltb := Qltb; a_leb := Qle_bool;
     a_add := Qplus; a_mul := Qmult; a_div := Qdiv;
     a_ceil := fun q => inject_Z (Qceiling q) |}.

(** [while (level < max) { levels.push(level); level += interval }] *)
Fixpoint intervals_loop {F} (A : arith F) (fuel : nat) (max interval level : F)
    (levels : list F) : outcome (list F) :=
  match fuel with
  | O => OutOfFuel
  | S fuel' =>
      if a_ltb A level max then
        intervals_loop A fuel' max interval (a_add A level interval) (levels ++ [level])
      else Ok levels
  end.

Definition intervals_of {F} (A : arith F) (fuel : nat) (min max interval : F)
    : outcome (list F) :=
  if a_leb A interval (a_zero A) then Throw InvalidArgument
  else
    intervals_loop A fuel max interval
      (a_mul A (a_ceil A (a_div A min interval)) interval) [].

(** [intervals(interval)], in the doubles the code computes with. *)
Definition intervals (this : ContourMipmap) (fuel : nat) (interval : float)
    : outcome (list float) :=
  if (interval <=? 0)%float then Throw InvalidArgument
  else
    let* min := cm_min this in
    let* max := cm_max this in
    intervals_of binary64 fuel min max interval.



(** ** The examples' no-data filter *)

(** [removeNoDataValue(raster)] of [examples/]: copy the raster into a
    [Float32Array], then overwrite every entry below -1000 with NaN. *)
Definition removeNoDataValue (raster : list float) : list float :=
  let buf := map fround raster in
  for_range (length buf)
    (fun i buf => if (getf buf i <? -1000)%float then store32 buf i PrimFloat.nan else buf)
    buf.

(** ** Definitions used to state and prove the properties *)

(** A rank for the non-NaN binary64 values on which IEEE comparison is the
    lexicographic order: class (-inf, negative, zero, positive, +inf), then
    exponent and mantissa (mirrored on the negative side). *)
Definition sfkey (f : spec_float) : option (Z * Z * Z) :=
  match f with
  | S754_nan => None
  | S754_infinity true => Some (-2, 0, 0)%Z
  | S754_infinity false => Some (2, 0, 0)%Z
  | S754_zero _ => Some (0, 0, 0)%Z
  | S754_finite true m e => Some (-1, - e, Zneg m)%Z
  | S754_finite false m e => Some (1, e, Zpos m)%Z
  end.

Definition fkey (x : float) : option (Z * Z * Z) := sfkey (Prim2SF x).

Definition klt (a b : Z * Z * Z) : Prop :=
  let '(a1, a2, a3) := a in
  let '(b1, b2, b3) := b in
  (a1 < b1 \/ (a1 = b1 /\ (a2 < b2 \/ (a2 = b2 /\ a3 < b3))))%Z.

(** The four cells of the next finer level under cell [(x, y)], in the
    order [node] visits them. *)
Definition child_cells (x y : nat) : list (nat * nat) :=
  [ (x * 2 + 0, y * 2 + 0); (x * 2 + 1, y * 2 + 0);
    (x * 2 + 0, y * 2 + 1); (x * 2 + 1, y * 2 + 1) ].

Definition in_level (w h : nat) (c : nat * nat) : bool :=
  (fst c <? w) && (snd c <? h).

Definition cell_index (w : nat) (c : nat * nat) : nat := snd c * w + fst c.

(** Indices, in a [w] by [h] level, of the children of [(x, y)] that exist. *)
Definition kids (w h x y : nat) : list nat :=
  map (cell_index w) (List.filter (in_level w h) (child_cells x y)).

(** The min and max a level holds for cell [(x, y)], read the way
    [evaluate] reads them. *)
Definition cell_min (L : MipmapLevel) (x y : nat) : float :=
  getf (min L) (width L * y + x).

Definition cell_max (L : MipmapLevel) (x y : nat) : float :=
  getf (max L) (width L * y + x).

(** The children of [(x, y)] that exist in the finer level [Lf]. *)
Definition children_in (Lf : MipmapLevel) (x y : nat) : list (nat * nat) :=
  List.filter (in_level (width Lf) (height Lf)) (child_cells x y).

(** The raster sample at column [X], row [Y] (row-major). *)
Definition sample (raster : list float) (w X Y : nat) : float :=
  getf raster (Y * w + X).

(** Sample [(X, Y)] of a [w] by [h] raster lies under cell [(x, y)] of
    level [L]: the cell's edge is [scale L] samples long. *)
Definition in_footprint (w h : nat) (L : MipmapLevel) (x y X Y : nat) : Prop :=
  X < w /\ Y < h /\ X / scale L = x /\ Y / scale L = y.

(** A value a [Float32Array] holds unchanged. *)
Definition is_float32 (v : float) : Prop := fround v = v.

Definition finite_or_nan (v : float) : Prop :=
  PrimFloat.is_finite v = true \/ PrimFloat.is_nan v = true.

(** Each level is the reduction of the next finer one. *)
Definition reduced_chain (lv : list MipmapLevel) : Prop :=
  forall k a b, lv !! k = Some a -> lv !! S k = Some b -> a = mipmapReduce b.

Definition base_level (raster : list float) (w h : nat) : MipmapLevel :=
  {| min := raster; max := raster; width := w; height := h; scale := 1 |}.

(** What holds of the min and max of any cell, whatever the samples: both
    NaN (a raw sample), no value below +Infinity and none above -Infinity
    (nothing to aggregate), or min <= max. *)
Definition min_max_ok (mn mx : float) : Prop :=
  (PrimFloat.is_nan mn = true /\ PrimFloat.is_nan mx = true) \/
  ((mn <? PrimFloat.infinity)%float = false /\
   (PrimFloat.neg_infinity <? mx)%float = false) \/
  (mn <=? mx)%float = true.

Definition level_ok (L : MipmapLevel) : Prop :=
  forall i,
    is_float32 (getf (min L) i) /\ is_float32 (getf (max L) i) /\
    min_max_ok (getf (min L) i) (getf (max L) i).

(** Sample inputs. *)
Definition raster_2x2 : list float := [1; 2; 3; 4]%float.


(** The two pairs a cell with nothing finite under it can hold. *)
Definition nan_pair (mn mx : float) : Prop :=
  PrimFloat.is_nan mn = true /\ PrimFloat.is_nan mx = true.

Definition empty_pair (mn mx : float) : Prop :=
  mn = PrimFloat.infinity /\ mx = PrimFloat.neg_infinity.

(** A cell summarises its footprint: finite min and max when some sample
    under it is finite, the pair [shape] allows when all of them are NaN. *)
Definition cell_summary (shape : float -> float -> Prop) (raster : list float)
    (w h : nat) (L : MipmapLevel) (x y : nat) : Prop :=
  (PrimFloat.is_finite (cell_min L x y) = true /\
   PrimFloat.is_finite (cell_max L x y) = true /\
   exists X Y, in_footprint w h L x y X Y /\
               PrimFloat.is_finite (sample raster w X Y) = true) \/
  (shape (cell_min L x y) (cell_max L x y) /\
   forall X Y, in_footprint w h L x y X Y -> PrimFloat.is_nan (sample raster w X Y) = true).

(** The level's grid covers the raster. *)
Definition covers (w h : nat) (L : MipmapLevel) : Prop :=
  1 <= scale L /\
  (forall X, X < w -> X / scale L < width L) /\
  (forall Y, Y < h -> Y / scale L < height L).

Definition summary_ok (shape : float -> float -> Prop) (raster : list float)
    (w h : nat) (L : MipmapLevel) : Prop :=
  covers w h L /\
  forall x y, x < width L -> y < height L ->
    is_float32 (cell_min L x y) /\ is_float32 (cell_max L x y) /\
    cell_summary shape raster w h L x y.

Definition sample_ok (v : float) : Prop := is_float32 v /\ finite_or_nan v.

Definition raster_nans : list float := [PrimFloat.nan; PrimFloat.nan].

(** Two cells of one level share a side, the second being the right or the
    lower neighbour of the first. *)
Definition adjacent (c1 c2 : cell) : Prop :=
  let '(l1, x1, y1) := c1 in
  let '(l2, x2, y2) := c2 in
  l1 = l2 /\ ((x2 = x1 + 1 /\ y2 = y1) \/ (x2 = x1 /\ y2 = y1 + 1)).

(** The class [evaluate] gives a cell. *)
Definition evaluate_cell (this : ContourMipmap) (t : float) (cap : nat) (c : cell)
    : outcome classification :=
  let '(l, x, y) := c in evaluate this t cap l x y.

(** [ev] is an [addLine] call for the side the adjacent cells [c1] and [c2]
    share: the side runs between the top left corner of [c2] (the right or
    lower neighbour) and the bottom right corner of [c1], and the line
    follows it one way or the other. *)
Definition line_between (c1 c2 : cell) (ev : event) : Prop :=
  let '(l1, x1, y1) := c1 in
  let '(_, x2, y2) := c2 in
  ev = Line l1 x2 y2 (x1 + 1) (y1 + 1) \/ ev = Line l1 (x1 + 1) (y1 + 1) x2 y2.

(** [k] is one of the four cells of the next level under [c]. *)
Definition child_of (k c : cell) : Prop :=
  let '(lk, xk, yk) := k in
  let '(l, x, y) := c in
  lk = l + 1 /\ xk / 2 = x /\ yk / 2 = y.

(** One of the two cells is ABOVE and the other BELOW. *)
Definition opposite (e1 e2 : classification) : bool :=
  classification_eqb e1 ABOVE && classification_eqb e2 BELOW
  || classification_eqb e2 ABOVE && classification_eqb e1 BELOW.

(** The visit [c] compares the cells [c1] and [c2]: what it does is decided
    by the classes of these two cells.  It fails as their classification
    fails; it calls [addLine] once, for the side they share, when one is
    ABOVE and the other BELOW; it hands the boundary on to two visits that
    compare a child of [c1] with a child of [c2] when one of them is WITHIN;
    and it does nothing otherwise. *)
Definition compares (this : ContourMipmap) (t : float) (cap : nat) (addNode : bool)
    (fuel : nat) (c : call) (c1 c2 : cell) : Prop :=
  let run := visit this t cap addNode (S fuel) c in
  match evaluate_cell this t cap c1, evaluate_cell this t cap c2 with
  | Ok e1, Ok e2 =>
      if opposite e1 e2 then exists ev, run = Ok [ev] /\ line_between c1 c2 ev
      else if classification_eqb e1 WITHIN || classification_eqb e2 WITHIN then
        exists d1 d2 k1 k2 k3 k4,
          run = (let* a := visit this t cap addNode fuel d1 in
                 let* b := visit this t cap addNode fuel d2 in
                 Ok (a ++ b)) /\
          edge_cells d1 = Some (k1, k2) /\ edge_cells d2 = Some (k3, k4) /\
          child_of k1 c1 /\ child_of k2 c2 /\ adjacent k1 k2 /\
          child_of k3 c1 /\ child_of k4 c2 /\ adjacent k3 k4 /\
          k1 <> k3
      else run = Ok []
  | Ok _, Throw e | Throw e, _ => run = Throw e
  | Ok _, OutOfFuel | OutOfFuel, _ => run = OutOfFuel
  end.

(** The node visit of the cell [c0] classifies that cell: it fails as the
    classification fails, subdivides a cell that is WITHIN, and otherwise
    reports the cell and its class to [addNode], if there is one. *)
Definition classifies (this : ContourMipmap) (t : float) (cap : nat) (addNode : bool)
    (fuel : nat) (c0 : cell) : Prop :=
  let '(l, x, y) := c0 in
  let run := visit this t cap addNode (S fuel) (Node l x y) in
  match evaluate_cell this t cap c0 with
  | Ok e =>
      if classification_eqb e WITHIN then
        run = visit_list (visit this t cap addNode fuel) (subdivide l x y)
      else run = Ok (if addNode then [Leaf l x y e] else [])
  | Throw e => run = Throw e
  | OutOfFuel => run = OutOfFuel
  end.

Definition call_level (c : call) : nat :=
  match c with
  | Node l _ _ | EdgeH l _ _ | EdgeV l _ _ => l
  end.

(** A 4 by 4 raster with a no-data sample next to its centre. *)
Definition raster_4x4 : list float :=
  [ 5; 5;             0; 0;
    5; PrimFloat.nan; 0; 0;
    5; 0;             5; 5;
    0; 0;             5; 5 ]%float.

(** ** The pyramid in the heap *)

(** [ml.min] and [ml.max] read through their references. *)
Definition load_numbers (h : heap) (r : nat) : option (list float) :=
  match h !! r with
  | Some (Numbers a) => Some a
  | _ => None
  end.

(** A level object read with its two arrays. *)
Definition load_level (h : heap) (r : nat) : option MipmapLevel :=
  match h !! r with
  | Some (LevelObject min_ref max_ref w ht sc) =>
      match load_numbers h min_ref, load_numbers h max_ref with
      | Some a, Some b =>
          Some {| min := a; max := b; width := w; height := ht; scale := sc |}
      | _, _ => None
      end
  | _ => None
  end.

Fixpoint load_levels (h : heap) (refs : list nat) : option (list MipmapLevel) :=
  match refs with
  | [] => Some []
  | r :: refs' =>
      match load_level h r, load_levels h refs' with
      | Some l, Some ls => Some (l :: ls)
      | _, _ => None
      end
  end.

(** The pyramid as the heap holds it: [this.levels] followed to its level
    objects and their arrays. *)
Definition load_mipmap (h : heap) (this : nat) : option ContourMipmap :=
  match h !! this with
  | Some (Mipmap levels_ref) =>
      match h !! levels_ref with
      | Some (LevelArray refs) =>
          match load_levels h refs with
          | Some ls => Some {| levels := ls |}
          | None => None
          end
      | _ => None
      end
  | _ => None
  end.

(** The state of the program a method call runs in: the heap, and the
    reference [this]. *)
Record js_state := { this_ref : nat; objects : heap }.

(** [this.contour(level, opts)] as a step of the program state.  [contour]
    reads the pyramid while it walks the quadtree and collects the
    segments, before it sorts and stitches them; nothing is written to the
    heap until the stitcher starts, so the walk sees the pyramid the heap
    holds when the call begins, and the stitcher runs on that same heap. *)
Definition contour_call (s : js_state) (level : float) (opts : contour_opts) (fuel : nat)
    : outcome (list (list fpoint)) * js_state :=
  match load_mipmap (objects s) (this_ref s) with
  | Some this =>
      let '(r, h') := contour this level opts fuel (objects s) in
      (r, {| this_ref := this_ref s; objects := h' |})
  | None => (Throw TypeError, s)
  end.

(** The pyramid of the 2 by 2 raster [[1; 2; 3; 4]] laid out in a heap: the
    raster (which the bottom level holds as both its min and its max), the
    two level objects and the arrays of the top level, [this.levels] and
    the [ContourMipmap]; and an array of points left by some earlier
    call. *)
Definition heap_2x2 : heap :=
  [ Numbers [1; 2; 3; 4]%float;
    LevelObject 0 0 2 2 1;
    Numbers [1%float];
    Numbers [4%float];
    LevelObject 2 3 1 1 2;
    LevelArray [4; 1];
    Mipmap 5;
    Points [(5, 5); (5, 6)]%Z ].

(** A stitcher state with every array reference moved past the arrays of [h]. *)
Definition shift_map (n : nat) (m : jsmap) : jsmap :=
  map (fun kv => (fst kv, n + snd kv)) m.

Definition shift_state (h : heap) (st : stitch_state) : stitch_state :=
  {| fragmentStart := shift_map (length h) (fragmentStart st);
     fragmentEnd := shift_map (length h) (fragmentEnd st);
     rings := map (Nat.add (length h)) (rings st);
     store := h ++ store st;
     mismatches := mismatches st |}.

(** Points whose coordinates fit the base 65536 of [key]. *)
Definition in_range (p : point) : Prop :=
  (0 <= fst p < 65536 /\ 0 <= snd p < 65536)%Z.

Definition segment_in_range (s : segment) : Prop :=
  in_range (start s) /\ in_range (end_ s).

(** A ring: a line whose first and last points are the same point. *)
Definition closed (c : list point) : Prop :=
  c <> [] /\ first_point c = last_point c.

(** What the stitcher maintains while keys identify points: every entry of
    [fragmentStart] (of [fragmentEnd]) is filed under the key of the first
    (last) point of its array; no ring is held by either map; stored points
    are in range. *)
Record stitch_inv (st : stitch_state) : Prop := {
  inv_first : forall k r, map_get k (fragmentStart st) = Some r ->
    r < length (store st) /\ deref (store st) r <> [] /\
    key (first_point (deref (store st) r)) = k;
  inv_last : forall k r, map_get k (fragmentEnd st) = Some r ->
    r < length (store st) /\ deref (store st) r <> [] /\
    key (last_point (deref (store st) r)) = k;
  inv_rings : forall r, In r (rings st) ->
    r < length (store st) /\
    (forall k, map_get k (fragmentStart st) <> Some r) /\
    (forall k, map_get k (fragmentEnd st) <> Some r) /\
    closed (deref (store st) r);
  inv_range : forall r p, In p (deref (store st) r) -> in_range p
}.

(** A level whose scale is a power of two and whose grid, scaled, stays
    within [2 ^ n] in both directions. *)
Definition level_fits (n : nat) (L : MipmapLevel) : Prop :=
  exists j, j <= n /\ scale L = 2 ^ j /\
            width L <= 2 ^ (n - j) /\ height L <= 2 ^ (n - j).

(** An [addLine] call whose level exists and whose corners lie on the
    level's grid, borders included. *)
Definition line_ok (this : ContourMipmap) (ev : event) : Prop :=
  match ev with
  | Line l x1 y1 x2 y2 =>
      exists ml, levels this !! l = Some ml /\
                 x1 <= width ml /\ x2 <= width ml /\
                 y1 <= height ml /\ y2 <= height ml
  | Leaf _ _ _ _ => True
  end.

(** A smoothed ring: first and last entries are the same pair of doubles. *)
Definition fclosed (line : list fpoint) : Prop :=
  line <> [] /\ head line = last line.

(** The arrays [contour] pushed to [rings]. *)
Definition ring_lines (st : stitch_state) : list (list point) :=
  map (deref (store st)) (rings st).

(** A 3 by 3 raster with one peak, the four segments around it at
    threshold 3, and the smoothed ring [contour] returns for them. *)
Definition raster_peak : list float := [0; 0; 0; 0; 5; 0; 0; 0; 0]%float.

Definition peak_segments : list segment :=
  [ {| start := (1, 1); end_ := (1, 2) |}; {| start := (2, 1); end_ := (1, 1) |};
    {| start := (1, 2); end_ := (2, 2) |}; {| start := (2, 2); end_ := (2, 1) |} ]%Z.

Definition peak_lines : list (list fpoint) :=
  [ [ (1.625, 1.3125); (1.625, 1.3125); (1.5625, 1.375); (1.5625, 1.375);
      (1.625, 1.3125) ] ]%float.

(** Segments whose start keys strictly ascend: in the order the sort
    leaves them, whatever order they were collected in. *)
Fixpoint keys_ascending (l : list segment) : bool :=
  match l with
  | s :: (t :: _) as l' => (key (start s) <? key (start t))%Z && keys_ascending l'
  | _ => true
  end.

(** A raster [2 ^ n] wide and 3 high: the first row is 0, the last row is
    5, the middle row is 0 in column 0 and 5 elsewhere.  At threshold 3 the
    contour runs from the right border at height 1 along the middle row to
    column 1, down to height 2, and out through the left border. *)
Definition wide_raster (n : nat) : list float :=
  replicate (2 ^ n) 0%float ++ (0%float :: replicate (2 ^ n - 1) 5%float) ++
  replicate (2 ^ n) 5%float.

Definition wide_pyramid (n : nat) : ContourMipmap :=
  new_ContourMipmap (wide_raster n) (2 ^ n) 3.

(** How [evaluate] classifies the cells of that pyramid at threshold 3. *)
Definition wide_class (n l x y : nat) : classification :=
  if l =? n then
    if (x <? 2 ^ n) && (y <? 3) then
      if (y =? 0) || ((y =? 1) && (x =? 0)) then BELOW else ABOVE
    else OUTSIDE
  else if S l =? n then
    if (x <? 2 ^ l) && (y <? 2) then (if y =? 0 then WITHIN else ABOVE) else OUTSIDE
  else
    if (x <? 2 ^ l) && (y <? 1) then WITHIN else OUTSIDE.

(** What the edge visits of the finest level add. *)
Definition fin_edgeH (n x y : nat) : list event :=
  if (x =? 0) && (y =? 1) then [Line n 1 1 1 2] else [].

Definition fin_edgeV (n x y : nat) : list event :=
  if (y =? 0) && (1 <=? x) && (x <? 2 ^ n) then [Line n (x + 1) 1 x 1]
  else if (y =? 1) && (x =? 0) then [Line n 1 2 0 2] else [].

(** The [addLine] calls of the node [d] levels above the finest but one, in
    column [X] of the first row of its level. *)
Fixpoint wide_events (n d X : nat) : list event :=
  match d with
  | 0 => fin_edgeV n (X * 2 + 0) 0 ++ fin_edgeH n (X * 2 + 0) 1 ++ fin_edgeV n (X * 2 + 1) 0
  | S d' => wide_events n d' (X * 2 + 0) ++ wide_events n d' (X * 2 + 1) ++
            (if (d' =? 0) && (X =? 0) then [Line n 1 2 0 2] else [])
  end.

Fixpoint zrange (a : Z) (n : nat) : list Z :=
  match n with
  | 0 => []
  | S n' => a :: zrange (a + 1) n'
  end.

Definition rowZ (x : Z) : segment := {| start := ((x + 1)%Z, 1%Z); end_ := (x, 1%Z) |}.

(** The sorted segments of that raster. *)
Definition wide_segs (n : nat) : list segment :=
  {| start := (1, 1)%Z; end_ := (1, 2)%Z |} :: map rowZ (zrange 1 (2 ^ n - 1)) ++
  [ {| start := (1, 2)%Z; end_ := (0, 2)%Z |} ].




(** The min and max the levels of that pyramid hold. *)
Definition wide_min (n l x y : nat) : float :=
  if l =? n then (if (y =? 0) || ((y =? 1) && (x =? 0)) then 0%float else 5%float)
  else if (S l =? n) && (y =? 1) then 5%float else 0%float.

Definition wide_max (n l x y : nat) : float :=
  if l =? n then (if (y =? 0) || ((y =? 1) && (x =? 0)) then 0%float else 5%float)
  else 5%float.

Definition wide_height (n l : nat) : nat :=
  if l =? n then 3 else if S l =? n then 2 else 1.

Definition wide_level (n l : nat) (L : MipmapLevel) : Prop :=
  width L = 2 ^ l /\ height L = wide_height n l /\
  forall x y, x < width L -> y < height L ->
    cell_min L x y = wide_min n l x y /\ cell_max L x y = wide_max n l x y.

(** The segment [contour] pushes for a line of a level of scale 1. *)
Definition line_segment (ev : event) : list segment :=
  match ev with
  | Line _ x1 y1 x2 y2 =>
      [ {| start := (Z.of_nat (1 * x1), Z.of_nat (1 * y1));
           end_ := (Z.of_nat (1 * x2), Z.of_nat (1 * y2)) |} ]
  | Leaf _ _ _ _ => []
  end.

(** The segment on the upper side of cell [(x, 1)] of that raster. *)
Definition rowopt (n x : nat) : list segment :=
  if (1 <=? x) && (x <? 2 ^ n) then [rowZ (Z.of_nat x)] else [].


(** ** Definitions for further properties of the code *)

(** References held by the stitcher point into the store, and every array
    of the store has at least two points. *)
Definition stitch_wf (st : stitch_state) : Prop :=
  (forall k r, In (k, r) (fragmentStart st) -> r < length (store st)) /\
  (forall k r, In (k, r) (fragmentEnd st) -> r < length (store st)) /\
  (forall r, In r (rings st) -> r < length (store st)) /\
  (forall r, r < length (store st) -> 2 <= length (deref (store st) r)).

Definition is_line (ev : event) : bool :=
  match ev with
  | Line _ _ _ _ _ => true
  | Leaf _ _ _ _ => false
  end.

Definition event_level (ev : event) : nat :=
  match ev with
  | Line l _ _ _ _ | Leaf l _ _ _ => l
  end.

(** The calls with the [addNode] calls left out. *)
Definition lines_only (o : outcome (list event)) : outcome (list event) :=
  match o with
  | Ok evs => Ok (List.filter is_line evs)
  | Throw e => Throw e
  | OutOfFuel => OutOfFuel
  end.

(** What a callback was called for: a line is the side shared by a cell
    that is ABOVE and a neighbour that is BELOW, drawn with the ABOVE cell
    always on the same hand; a node is reported with its own class, which is
    not WITHIN. *)
Definition event_sound (this : ContourMipmap) (t : float) (cap : nat) (ev : event) : Prop :=
  match ev with
  | Line l x1 y1 x2 y2 =>
      exists x y,
        (evaluate this t cap l x y = Ok ABOVE /\ evaluate this t cap l (x + 1) y = Ok BELOW /\
         (x1, y1, x2, y2) = (x + 1, y + 1, x + 1, y)) \/
        (evaluate this t cap l (x + 1) y = Ok ABOVE /\ evaluate this t cap l x y = Ok BELOW /\
         (x1, y1, x2, y2) = (x + 1, y, x + 1, y + 1)) \/
        (evaluate this t cap l x y = Ok ABOVE /\ evaluate this t cap l x (y + 1) = Ok BELOW /\
         (x1, y1, x2, y2) = (x, y + 1, x + 1, y + 1)) \/
        (evaluate this t cap l x (y + 1) = Ok ABOVE /\ evaluate this t cap l x y = Ok BELOW /\
         (x1, y1, x2, y2) = (x + 1, y + 1, x, y + 1))
  | Leaf l x y e => evaluate this t cap l x y = Ok e /\ e <> WITHIN
  end.

(** The callbacks' calls for the peak raster at threshold 3, with [addNode]. *)
Definition peak_events : list event :=
  [ Leaf 2 0 0 BELOW; Leaf 2 1 0 BELOW; Leaf 2 0 1 BELOW; Leaf 2 1 1 ABOVE;
    Line 2 1 1 1 2; Line 2 2 1 1 1; Leaf 1 1 0 BELOW; Leaf 1 0 1 BELOW;
    Leaf 1 1 1 BELOW; Line 2 2 2 2 1; Line 2 1 2 2 2 ].

(** A raster with one infinite sample. *)
Definition raster_inf : list float := [1; PrimFloat.infinity; 3; 4]%float.

(** A line that follows segments of [all]: each point is joined to the next
    by one of them, in its direction. *)
Fixpoint chain (all : list segment) (c : list point) : Prop :=
  match c with
  | p :: (q :: _) as c' => In {| start := p; end_ := q |} all /\ chain all c'
  | _ => True
  end.

(** A cell's min and max are exact for its footprint: they bound every
    finite sample under the cell, and when finite each is one of those
    samples. *)
Definition extent_ok (raster : list float) (w h : nat) (L : MipmapLevel) (x y : nat) : Prop :=
  (forall X Y, in_footprint w h L x y X Y ->
     PrimFloat.is_finite (sample raster w X Y) = true ->
     (cell_min L x y <=? sample raster w X Y)%float = true /\
     (sample raster w X Y <=? cell_max L x y)%float = true) /\
  (PrimFloat.is_finite (cell_min L x y) = true ->
     exists X Y, in_footprint w h L x y X Y /\ sample raster w X Y = cell_min L x y) /\
  (PrimFloat.is_finite (cell_max L x y) = true ->
     exists X Y, in_footprint w h L x y X Y /\ sample raster w X Y = cell_max L x y).

(** What the stitcher keeps when no two segments start at the same point and
    no two end at the same point: every open fragment has one entry in each
    map, under the keys of its first and of its last point, which are the
    start and the end of segments already processed. *)
Record stitch_paired (done : list segment) (st : stitch_state) : Prop := {
  pair_keys_start : NoDup (map fst (fragmentStart st));
  pair_keys_end : NoDup (map fst (fragmentEnd st));
  pair_size : map_size (fragmentStart st) = map_size (fragmentEnd st);
  pair_start_end : forall k r, map_get k (fragmentStart st) = Some r ->
    map_get (key (last_point (deref (store st) r))) (fragmentEnd st) = Some r;
  pair_end_start : forall k r, map_get k (fragmentEnd st) = Some r ->
    map_get (key (first_point (deref (store st) r))) (fragmentStart st) = Some r;
  pair_first : forall k r, map_get k (fragmentStart st) = Some r ->
    In (first_point (deref (store st) r)) (map start done);
  pair_last : forall k r, map_get k (fragmentEnd st) = Some r ->
    In (last_point (deref (store st) r)) (map end_ done)
}.

(** ** Definitions for the rounding of sums *)

(** The value of a mantissa and exponent, in units of the least positive
    binary64 (exponents are at least -1074). *)
Definition sfval (m e : Z) : Z := (m * 2 ^ (e + 1074))%Z.





(** * Binary64 comparisons *)

Lemma SFcompare_key f1 f2 :
  match SFcompare f1 f2, sfkey f1, sfkey f2 with
  | Some Lt, Some a, Some b => klt a b
  | Some Eq, Some a, Some b => a = b
  | Some Gt, Some a, Some b => klt b a
  | None, None, _ | None, _, None => True
  | _, _, _ => False
  end.
Proof.
  destruct f1 as [s1|s1| |s1 m1 e1], f2 as [s2|s2| |s2 m2 e2];
    try destruct s1; try destruct s2; cbn; try lia; try reflexivity; try exact I.
  - destruct (Z.compare_spec e1 e2); cbn; try lia.
    subst. change (Pos.compare_cont Eq m1 m2) with (Pos.compare m1 m2).
    destruct (Pos.compare_spec m1 m2); cbn; subst; try reflexivity; lia.
  - destruct (Z.compare_spec e1 e2); cbn; try lia.
    subst. change (Pos.compare_cont Eq m1 m2) with (Pos.compare m1 m2).
    destruct (Pos.compare_spec m1 m2); cbn; subst; try reflexivity; lia.
Qed.

Lemma klt_irrefl a : ~ klt a a.
Proof. destruct a as [[a1 a2] a3]. cbn. lia. Qed.

Lemma klt_trans a b c : klt a b -> klt b c -> klt a c.
Proof. destruct a as [[a1 a2] a3], b as [[b1 b2] b3], c as [[c1 c2] c3]. cbn. lia. Qed.


Lemma ltb_key x y :
  (x <? y)%float = true <->
  match fkey x, fkey y with Some a, Some b => klt a b | _, _ => False end.
Proof.
  rewrite FloatAxioms.ltb_spec. unfold SFltb, fkey.
  pose proof (SFcompare_key (Prim2SF x) (Prim2SF y)) as H.
  pose proof (klt_irrefl).
  destruct (SFcompare _ _) as [[]|], (sfkey (Prim2SF x)) as [a|], (sfkey (Prim2SF y)) as [b|];
    try contradiction; split; try discriminate; try tauto; intros.
  - subst. exfalso. eapply klt_irrefl; eauto.
  - exfalso. eapply klt_irrefl, klt_trans; eauto.
Qed.

Lemma leb_key x y :
  (x <=? y)%float = true <->
  match fkey x, fkey y with Some a, Some b => klt a b \/ a = b | _, _ => False end.
Proof.
  rewrite FloatAxioms.leb_spec. unfold SFleb, fkey.
  pose proof (SFcompare_key (Prim2SF x) (Prim2SF y)) as H.
  destruct (SFcompare _ _) as [[]|], (sfkey (Prim2SF x)) as [a|], (sfkey (Prim2SF y)) as [b|];
    try contradiction; split; try discriminate; try tauto; intros [?|?].
  - exfalso. eapply klt_irrefl, klt_trans; eauto.
  - subst. exfalso. eapply klt_irrefl; eauto.
Qed.

Lemma eqb_key x y :
  (x =? y)%float = true <->
  match fkey x, fkey y with Some a, Some b => a = b | _, _ => False end.
Proof.
  rewrite FloatAxioms.eqb_spec. unfold SFeqb, fkey.
  pose proof (SFcompare_key (Prim2SF x) (Prim2SF y)) as H.
  destruct (SFcompare _ _) as [[]|], (sfkey (Prim2SF x)) as [a|], (sfkey (Prim2SF y)) as [b|];
    try contradiction; split; try discriminate; try tauto; intros ?.
  - subst. exfalso. eapply klt_irrefl; eauto.
  - subst. exfalso. eapply klt_irrefl; eauto.
Qed.

Lemma is_nan_key x : PrimFloat.is_nan x = true <-> fkey x = None.
Proof.
  unfold PrimFloat.is_nan. rewrite negb_true_iff.
  pose proof (eqb_key x x) as H.
  destruct (x =? x)%float, (fkey x); split; intros; try discriminate; try reflexivity.
  - destruct H as [H _]. destruct (H eq_refl).
  - destruct H as [_ H]. specialize (H eq_refl). discriminate.
Qed.

Lemma fkey_infinity : fkey PrimFloat.infinity = Some (2, 0, 0)%Z.
Proof. reflexivity. Qed.

Lemma fkey_neg_infinity : fkey PrimFloat.neg_infinity = Some (-2, 0, 0)%Z.
Proof. reflexivity. Qed.

Lemma fkey_abs x :
  fkey (PrimFloat.abs x) =
  match fkey x with
  | Some (c, e, m) => Some (Z.abs c, if (c <? 0)%Z then (- e)%Z else e, Z.abs m)
  | None => None
  end.
Proof.
  unfold fkey. rewrite FloatAxioms.abs_spec.
  destruct (Prim2SF x) as [s|s| |s m e]; try destruct s; cbn; try reflexivity.
  rewrite Z.opp_involutive. reflexivity.
Qed.

Lemma is_infinity_key x :
  PrimFloat.is_infinity x = true <->
  (fkey x = Some (2, 0, 0)%Z \/ fkey x = Some (-2, 0, 0)%Z).
Proof.
  unfold PrimFloat.is_infinity. rewrite eqb_key, fkey_abs, fkey_infinity.
  unfold fkey.
  destruct (Prim2SF x) as [s|s| |s m e]; try destruct s; cbn;
    split; intros H; try discriminate; try tauto; try (destruct H; discriminate);
    try (left; reflexivity); try (right; reflexivity).
Qed.

(** The class component of a key is one of -2 .. 2. *)
Lemma fkey_class x c e m : fkey x = Some (c, e, m) -> (-2 <= c <= 2)%Z.
Proof.
  unfold fkey. destruct (Prim2SF x) as [s|s| |s m' e']; try destruct s; cbn;
    intros H; inversion H; lia.
Qed.

Lemma fkey_inf_shape x c e m :
  fkey x = Some (c, e, m) -> (c = 2 \/ c = -2)%Z -> (e = 0 /\ m = 0)%Z.
Proof.
  unfold fkey. destruct (Prim2SF x) as [s|s| |s m' e']; try destruct s; cbn;
    intros H; inversion H; lia.
Qed.

Lemma is_finite_key x :
  PrimFloat.is_finite x = true <->
  exists c e m, fkey x = Some (c, e, m) /\ (-2 < c < 2)%Z.
Proof.
  unfold PrimFloat.is_finite. rewrite negb_true_iff, orb_false_iff.
  split.
  - intros [Hn Hi].
    destruct (fkey x) as [[[c e] m]|] eqn:Hk.
    + exists c, e, m. split; [reflexivity|].
      pose proof (fkey_class _ _ _ _ Hk).
      assert (c <> 2 /\ c <> -2)%Z; [|lia].
      split; intros ->; destruct (fkey_inf_shape _ _ _ _ Hk) as [-> ->]; try lia;
        (assert (PrimFloat.is_infinity x = true) as Hi' by (apply is_infinity_key; tauto));
        congruence.
    + apply is_nan_key in Hk. congruence.
  - intros (c & e & m & Hk & Hc). split.
    + destruct (PrimFloat.is_nan x) eqn:Hn; [|reflexivity].
      apply is_nan_key in Hn. congruence.
    + destruct (PrimFloat.is_infinity x) eqn:Hi; [|reflexivity].
      apply is_infinity_key in Hi. destruct Hi as [Hi|Hi]; rewrite Hi in Hk; inversion Hk; lia.
Qed.

Lemma ltb_false_key x y :
  (x <? y)%float = false <->
  ~ match fkey x, fkey y with Some a, Some b => klt a b | _, _ => False end.
Proof. rewrite <- ltb_key, not_true_iff_false. reflexivity. Qed.

Lemma leb_false_key x y :
  (x <=? y)%float = false <->
  ~ match fkey x, fkey y with Some a, Some b => klt a b \/ a = b | _, _ => False end.
Proof. rewrite <- leb_key, not_true_iff_false. reflexivity. Qed.

Lemma is_nan_false_key x : PrimFloat.is_nan x = false <-> fkey x <> None.
Proof. rewrite <- is_nan_key, not_true_iff_false. reflexivity. Qed.

Lemma is_finite_false_key x :
  PrimFloat.is_finite x = false <->
  ~ exists c e m, fkey x = Some (c, e, m) /\ (-2 < c < 2)%Z.
Proof. rewrite <- is_finite_key, not_true_iff_false. reflexivity. Qed.

(** Turn every comparison in sight into a statement about keys, and split
    on what the keys are. *)
Ltac float_keys :=
  repeat match goal with
         | H : (_ <? _)%float = true |- _ => apply ltb_key in H
         | H : (_ <? _)%float = false |- _ => apply ltb_false_key in H
         | H : (_ <=? _)%float = true |- _ => apply leb_key in H
         | H : (_ <=? _)%float = false |- _ => apply leb_false_key in H
         | H : PrimFloat.is_nan _ = true |- _ => apply is_nan_key in H
         | H : PrimFloat.is_nan _ = false |- _ => apply is_nan_false_key in H
         | H : PrimFloat.is_finite _ = true |- _ => apply is_finite_key in H; destruct H as (? & ? & ? & H & ?)
         | H : PrimFloat.is_finite _ = false |- _ => apply is_finite_false_key in H
         | |- (_ <? _)%float = true => apply ltb_key
         | |- (_ <? _)%float = false => apply ltb_false_key
         | |- (_ <=? _)%float = true => apply leb_key
         | |- (_ <=? _)%float = false => apply leb_false_key
         | |- PrimFloat.is_nan _ = true => apply is_nan_key
         | |- PrimFloat.is_nan _ = false => apply is_nan_false_key
         | |- PrimFloat.is_finite _ = true => apply is_finite_key
         | |- PrimFloat.is_finite _ = false => apply is_finite_false_key
         end;
  rewrite ?fkey_infinity, ?fkey_neg_infinity in *.

Ltac key_cases x :=
  let c := fresh "c" in let e := fresh "e" in let m := fresh "m" in
  let Hk := fresh "Hk" in
  destruct (fkey x) as [[[c e] m]|] eqn:Hk;
  [ pose proof (fkey_class _ _ _ _ Hk);
    pose proof (fkey_inf_shape _ _ _ _ Hk) | ].

Ltac key_solve :=
  cbn [klt] in *;
  repeat match goal with
         | H : _ \/ @eq (Z * Z * Z) _ _ |- _ => destruct H as [H|H]
         | H : ~ (_ \/ @eq (Z * Z * Z) _ _) |- _ => apply Decidable.not_or in H; destruct H
         | H : exists c e m, _ = Some (c, e, m) /\ _ |- _ =>
             let H' := fresh in destruct H as (? & ? & ? & H & H')
         | H : Some _ = Some _ |- _ => inversion H; clear H; subst
         | H : (_, _) = (_, _) |- _ => inversion H; clear H; subst
         | H : Some _ = None |- _ => discriminate H
         | H : None = Some _ |- _ => discriminate H
         | H : ?x <> ?x |- _ => destruct (H eq_refl)
         | H : (?a, ?b, ?c) <> (?a', ?b', ?c') |- _ =>
             assert (a <> a' \/ b <> b' \/ c <> c')
               by (destruct (Z.eq_dec a a') as [->|?]; [|tauto];
                   destruct (Z.eq_dec b b') as [->|?]; [|tauto];
                   destruct (Z.eq_dec c c') as [->|?]; [|tauto];
                   destruct (H eq_refl));
             clear H
         | H : ~ (exists c e m, Some _ = Some (c, e, m) /\ _) |- _ =>
             let H' := fresh in
             assert (H' := fun c e m E B => H (ex_intro _ c (ex_intro _ e (ex_intro _ m (conj E B)))));
             clear H; specialize (H' _ _ _ eq_refl)
         | H : ~ (exists c e m, None = Some (c, e, m) /\ _) |- _ => clear H
         end;
  try tauto; try lia;
  try (intros ?; key_solve);
  try (left; lia);
  try (right; repeat f_equal; lia);
  try match goal with
      | |- _ \/ (?a, ?b, ?c) = (?a', ?b', ?c') =>
          destruct (Z.eq_dec a a'), (Z.eq_dec b b'), (Z.eq_dec c c'); subst;
          first [right; reflexivity | left; lia]
      end;
  try (eexists _, _, _; split; [reflexivity|lia]).

Lemma ltb_irrefl x : (x <? x)%float = false.
Proof. float_keys. key_cases x; key_solve. Qed.

Lemma ltb_trans x y z :
  (x <? y)%float = true -> (y <? z)%float = true -> (x <? z)%float = true.
Proof. intros. float_keys. key_cases x; key_cases y; key_cases z; key_solve. Qed.

Lemma ltb_asym x y : (x <? y)%float = true -> (y <? x)%float = false.
Proof. intros. float_keys. key_cases x; key_cases y; key_solve. Qed.

Lemma ltb_leb x y : (x <? y)%float = true -> (x <=? y)%float = true.
Proof. intros. float_keys. key_cases x; key_cases y; key_solve. Qed.

Lemma leb_trans x y z :
  (x <=? y)%float = true -> (y <=? z)%float = true -> (x <=? z)%float = true.
Proof.
  intros. float_keys. key_cases x; key_cases y; key_cases z; key_solve.
Qed.

(** On numbers (no NaN) the order is total. *)
Lemma ltb_or_leb x y :
  PrimFloat.is_nan x = false -> PrimFloat.is_nan y = false ->
  (x <? y)%float = true \/ (y <=? x)%float = true.
Proof.
  intros Hx Hy.
  destruct (x <? y)%float eqn:E; [left; reflexivity|right].
  float_keys. key_cases x; key_cases y; key_solve.
Qed.

Lemma leb_false_ltb x y :
  PrimFloat.is_nan x = false -> PrimFloat.is_nan y = false ->
  (x <=? y)%float = false -> (y <? x)%float = true.
Proof.
  intros Hx Hy H. destruct (ltb_or_leb y x Hy Hx) as [?|E]; [assumption|congruence].
Qed.

Lemma is_finite_not_nan x : PrimFloat.is_finite x = true -> PrimFloat.is_nan x = false.
Proof. intros. float_keys. key_cases x; key_solve. Qed.

Lemma is_finite_lt_infinity x :
  PrimFloat.is_finite x = true -> (x <? PrimFloat.infinity)%float = true.
Proof. intros. float_keys. key_cases x; key_solve. Qed.

Lemma is_finite_gt_neg_infinity x :
  PrimFloat.is_finite x = true -> (PrimFloat.neg_infinity <? x)%float = true.
Proof. intros. float_keys. key_cases x; key_solve. Qed.

Lemma is_finite_infinity : PrimFloat.is_finite PrimFloat.infinity = false.
Proof. reflexivity. Qed.

Lemma is_finite_neg_infinity : PrimFloat.is_finite PrimFloat.neg_infinity = false.
Proof. reflexivity. Qed.

Lemma is_finite_nan x : PrimFloat.is_nan x = true -> PrimFloat.is_finite x = false.
Proof. intros. float_keys. key_cases x; key_solve. Qed.

(** Below a finite number and not below every number: finite. *)
Lemma ltb_finite_finite v r :
  (v <? r)%float = true -> PrimFloat.is_finite r = true ->
  (PrimFloat.neg_infinity <? v)%float = true -> PrimFloat.is_finite v = true.
Proof. intros. float_keys. key_cases v; key_cases r; key_solve. Qed.

Lemma gtb_finite_finite v r :
  (r <? v)%float = true -> PrimFloat.is_finite r = true ->
  (v <? PrimFloat.infinity)%float = true -> PrimFloat.is_finite v = true.
Proof. intros. float_keys. key_cases v; key_cases r; key_solve. Qed.

(** ** Integers converted to doubles are numbers *)

Lemma iter_pos_preserves {A} (P : A -> Prop) (f : A -> A) p x :
  (forall y, P y -> P (f y)) -> P x -> P (SpecFloat.iter_pos f p x).
Proof.
  intros Hf. revert x. induction p as [p IH|p IH|]; intros x Hx; cbn; auto.
Qed.

Lemma shr_1_nonneg mrs : (0 <= shr_m mrs)%Z -> (0 <= shr_m (shr_1 mrs))%Z.
Proof.
  destruct mrs as [m r s]. cbn. destruct m as [|[p|p|]|[p|p|]]; cbn; lia.
Qed.

Lemma shr_fexp_nonneg prec emax m e l :
  (0 <= m)%Z -> (0 <= shr_m (fst (shr_fexp prec emax m e l)))%Z.
Proof.
  intros Hm. unfold shr_fexp, shr.
  assert (H0 : (0 <= shr_m (shr_record_of_loc m l))%Z).
  { destruct l as [|[]]; cbn; exact Hm. }
  destruct (_ - _)%Z; cbn [fst]; try exact H0.
  apply iter_pos_preserves; [apply shr_1_nonneg|exact H0].
Qed.

Lemma round_nearest_even_nonneg mx lx :
  (0 <= mx)%Z -> (0 <= round_nearest_even mx lx)%Z.
Proof.
  intros H. unfold round_nearest_even. destruct lx as [|[]]; try lia.
  destruct (Z.even mx); lia.
Qed.

Lemma binary_round_aux_not_nan prec emax sx mx ex lx :
  (0 <= mx)%Z -> binary_round_aux prec emax sx mx ex lx <> S754_nan.
Proof.
  intros Hm. unfold binary_round_aux.
  pose proof (shr_fexp_nonneg prec emax mx ex lx Hm) as H1.
  destruct (shr_fexp prec emax mx ex lx) as [mrs' e']. cbn [fst] in H1.
  pose proof (shr_fexp_nonneg prec emax
                (round_nearest_even (shr_m mrs') (loc_of_shr_record mrs')) e' loc_Exact
                (round_nearest_even_nonneg _ _ H1)) as H2.
  destruct (shr_fexp prec emax _ e' loc_Exact) as [mrs'' e'']. cbn [fst] in H2.
  destruct (shr_m mrs''); try discriminate; [|lia].
  destruct (_ <=? _)%Z; discriminate.
Qed.

Lemma binary_normalize_not_nan prec emax m e :
  (0 <= m)%Z -> binary_normalize prec emax m e false <> S754_nan.
Proof.
  intros Hm. unfold binary_normalize, binary_round. destruct m; [discriminate| |lia].
  destruct (shl_align _ _ _). apply binary_round_aux_not_nan. lia.
Qed.

Lemma of_uint63_not_nan n : PrimFloat.is_nan (PrimFloat.of_uint63 n) = false.
Proof.
  apply is_nan_false_key. unfold fkey. rewrite FloatAxioms.of_uint63_spec.
  pose proof (binary_normalize_not_nan FloatOps.prec FloatOps.emax (Uint63.to_Z n) 0) as H.
  destruct (binary_normalize _ _ _ _ _); cbn; try discriminate.
  - destruct s; discriminate.
  - exfalso. apply H; [|reflexivity]. apply Uint63.to_Z_bounded.
  - destruct s; discriminate.
Qed.

Lemma opp_not_nan x : PrimFloat.is_nan x = false -> PrimFloat.is_nan (- x)%float = false.
Proof.
  intros H. apply is_nan_false_key in H. apply is_nan_false_key.
  unfold fkey in *. rewrite FloatAxioms.opp_spec.
  destruct (Prim2SF x) as [s|s| |s m e]; try destruct s; cbn in *; congruence.
Qed.

Lemma Z2F_not_nan z : PrimFloat.is_nan (Z2F z) = false.
Proof.
  destruct z; cbn [Z2F]; [reflexivity|apply of_uint63_not_nan|].
  apply opp_not_nan, of_uint63_not_nan.
Qed.

Lemma eqb_refl_number x : PrimFloat.is_nan x = false -> (x =? x)%float = true.
Proof. unfold PrimFloat.is_nan. intros H. apply negb_false_iff in H. exact H. Qed.

Lemma leb_not_nan x y :
  (x <=? y)%float = true -> PrimFloat.is_nan x = false /\ PrimFloat.is_nan y = false.
Proof. intros. split; float_keys; key_cases x; key_cases y; key_solve. Qed.

Lemma ltb_not_nan x y :
  (x <? y)%float = true -> PrimFloat.is_nan x = false /\ PrimFloat.is_nan y = false.
Proof. intros. split; float_keys; key_cases x; key_cases y; key_solve. Qed.


(** * The reduction step *)

Lemma for_range_S {S} n (body : nat -> S -> S) s :
  for_range (Datatypes.S n) body s = body n (for_range n body s).
Proof.
  unfold for_range. rewrite seq_S, fold_left_app. reflexivity.
Qed.

Lemma store32_length out i v : length (store32 out i v) = length out.
Proof. apply length_insert. Qed.

Lemma store32_lookup out i v j :
  store32 out i v !! j =
  if decide (i = j /\ j < length out) then Some (fround v) else out !! j.
Proof.
  unfold store32. destruct (decide (i = j /\ j < length out)) as [[-> H]|H].
  - apply list_lookup_insert_eq. exact H.
  - destruct (decide (i = j)) as [->|Hne].
    + rewrite list_insert_ge by lia. reflexivity.
    + apply list_lookup_insert_ne. exact Hne.
Qed.

(** A loop that stores [g i] at [b + i] for [i < n] writes the row
    [b .. b + n). *)
Lemma write_row_spec b n (g : nat -> float) out :
  let out' := for_range n (fun i out => store32 out (b + i) (g i)) out in
  length out' = length out /\
  forall j, out' !! j =
            if decide (b <= j < b + n /\ j < length out)
            then Some (fround (g (j - b))) else out !! j.
Proof.
  induction n as [|n IH]; cbn zeta.
  - split; [reflexivity|]. intros j. destruct (decide _) as [H|H]; [lia|reflexivity].
  - rewrite for_range_S. cbn zeta in IH. destruct IH as [IHl IH]. split.
    + rewrite store32_length. exact IHl.
    + intros j. rewrite store32_lookup, IHl, IH.
      repeat destruct (decide _); try lia; try reflexivity.
      replace (j - b) with n by lia. reflexivity.
Qed.

Ltac halves w :=
  pose proof (Nat.div_mod_eq w 2);
  pose proof (Nat.mod_upper_bound w 2 ltac:(lia));
  pose proof (Nat.div_mod_eq (w + 1) 2);
  pose proof (Nat.mod_upper_bound (w + 1) 2 ltac:(lia)).

Ltac ltb_cases :=
  repeat match goal with
         | |- context [?a <? ?b] => destruct (Nat.ltb_spec a b); try lia
         end.

Lemma kids_cases w h x y :
  x < ceil_half w -> y < ceil_half h ->
  kids w h x y =
  if x <? floor_half w then
    if y <? floor_half h then
      [ (y * 2 + 0) * w + (x * 2 + 0); (y * 2 + 0) * w + (x * 2 + 1);
        (y * 2 + 1) * w + (x * 2 + 0); (y * 2 + 1) * w + (x * 2 + 1) ]
    else [ (y * 2 + 0) * w + (x * 2 + 0); (y * 2 + 0) * w + (x * 2 + 1) ]
  else
    if y <? floor_half h then
      [ (y * 2 + 0) * w + (x * 2 + 0); (y * 2 + 1) * w + (x * 2 + 0) ]
    else [ (y * 2 + 0) * w + (x * 2 + 0) ].
Proof.
  unfold ceil_half, floor_half, kids, child_cells, in_level, cell_index.
  intros Hx Hy. halves w. halves h. cbn [List.filter fst snd].
  destruct (Nat.ltb_spec x (w / 2)), (Nat.ltb_spec y (h / 2));
    ltb_cases; cbn; reflexivity.
Qed.

Lemma reduceWith_spec w h data reduce :
  length (reduceWith w h data reduce) = ceil_half w * ceil_half h /\
  forall x y, x < ceil_half w -> y < ceil_half h ->
    reduceWith w h data reduce !! (y * ceil_half w + x) =
    Some (fround (reduce (map (getf data) (kids w h x y)))).
Proof.
  set (outW := ceil_half w). set (outH := ceil_half h).
  set (hw := floor_half w). set (hh := floor_half h).
  set (out0 := replicate (outW * outH) PrimFloat.zero).
  pose (g4 := fun y x => reduce [ getf data ((y * 2 + 0) * w + (x * 2 + 0));
                                  getf data ((y * 2 + 0) * w + (x * 2 + 1));
                                  getf data ((y * 2 + 1) * w + (x * 2 + 0));
                                  getf data ((y * 2 + 1) * w + (x * 2 + 1)) ]).
  pose (g2v := fun y x => reduce [ getf data ((y * 2 + 0) * w + (x * 2 + 0));
                                   getf data ((y * 2 + 1) * w + (x * 2 + 0)) ]).
  pose (g2h := fun y x => reduce [ getf data ((y * 2 + 0) * w + (x * 2 + 0));
                                   getf data ((y * 2 + 0) * w + (x * 2 + 1)) ]).
  pose (g1 := fun y x => reduce [ getf data ((y * 2 + 0) * w + (x * 2 + 0)) ]).
  pose (body := fun (y : nat) (p : list float * option nat) =>
                  (let out := for_range hw (fun x out => store32 out (y * outW + x) (g4 y x)) (fst p) in
                   if hw <? outW then store32 out (y * outW + hw) (g2v y hw) else out,
                   Some hw)).
  assert (HR : forall p,
            (let '(out1, x1) := p in
             let '(out2, x2) :=
               if hh <? outH then
                 (for_range hw (fun x out => store32 out (hh * outW + x) (g2h hh x)) out1,
                  Some hw)
               else (out1, x1) in
             match x2 with
             | Some x =>
                 if (x <? outW) && (hh <? outH)
                 then store32 out2 (hh * outW + x) (g1 hh x) else out2
             | None => out2
             end) =
            (let out2 :=
               if hh <? outH then
                 for_range hw (fun x out => store32 out (hh * outW + x) (g2h hh x)) (fst p)
               else fst p in
             if (hw <? outW) && (hh <? outH)
             then store32 out2 (hh * outW + hw) (g1 hh hw) else out2)).
  { intros [out1 x1]. cbn [fst].
    destruct (hh <? outH); [reflexivity|].
    rewrite andb_false_r. destruct x1; [rewrite andb_false_r|]; reflexivity. }
  assert (Hbody : forall k p,
            for_range k (fun y '(out, _) =>
              let out :=
                for_range (floor_half w) (fun x out =>
                  store32 out (y * ceil_half w + x)
                    (reduce [ getf data ((y * 2 + 0) * w + (x * 2 + 0));
                              getf data ((y * 2 + 0) * w + (x * 2 + 1));
                              getf data ((y * 2 + 1) * w + (x * 2 + 0));
                              getf data ((y * 2 + 1) * w + (x * 2 + 1)) ])) out in
              let x := floor_half w in
              let out :=
                if x <? ceil_half w then
                  store32 out (y * ceil_half w + x)
                    (reduce [ getf data ((y * 2 + 0) * w + (x * 2 + 0));
                              getf data ((y * 2 + 1) * w + (x * 2 + 0)) ])
                else out in
              (out, Some x)) p = for_range k body p).
  { induction k as [|k IH]; intros p; [reflexivity|].
    rewrite !for_range_S, IH. destruct (for_range k body p) as [o xo]. reflexivity. }
  unfold reduceWith. rewrite Hbody. fold outW outH hw hh out0.
  change (fun x out => store32 out (hh * outW + x)
            (reduce [ getf data ((hh * 2 + 0) * w + (x * 2 + 0));
                      getf data ((hh * 2 + 0) * w + (x * 2 + 1)) ]))
    with (fun x out => store32 out (hh * outW + x) (g2h hh x)).
  pose proof (HR (for_range hh body (out0, None))) as HR'.
  cbv beta zeta in HR'. cbv zeta.
  match type of HR' with
  | ?L = _ =>
      change (length L = outW * outH /\
              forall x y, x < outW -> y < outH ->
                L !! (y * outW + x) =
                Some (fround (reduce (map (getf data) (kids w h x y)))))
  end.
  rewrite HR'. clear HR HR' Hbody.
  set (val := fun j => fround (reduce (map (getf data) (kids w h (j mod outW) (j / outW))))).
  assert (Hlen0 : length out0 = outW * outH) by apply length_replicate.
  assert (Hhw : hw <= outW /\ outW <= hw + 1 /\ hh <= outH /\ outH <= hh + 1).
  { unfold hw, outW, hh, outH, ceil_half, floor_half. halves w. halves h. lia. }
  (* rows written by the first loop nest *)
  assert (Houter : forall k, k <= hh ->
            let r := for_range k body (out0, None) in
            length (fst r) = outW * outH /\
            snd r = (if k =? 0 then None else Some hw) /\
            forall j, fst r !! j =
                      if decide (j < k * outW) then Some (val j) else out0 !! j).
  { induction k as [|k IH]; intros Hk; cbn zeta.
    - split; [exact Hlen0|split; [reflexivity|]]. intros j. destruct (decide _); [lia|reflexivity].
    - rewrite for_range_S. cbn zeta in IH. destruct IH as (IHl & _ & IH); [lia|].
      destruct (for_range k body (out0, None)) as [out xo]. cbn [fst snd] in *.
      unfold body. cbn [fst snd].
      destruct (write_row_spec (k * outW) hw (g4 k) out) as [Hl1 Hr1].
      cbn zeta in Hl1, Hr1.
      set (out1 := for_range hw (fun x out => store32 out (k * outW + x) (g4 k x)) out) in *.
      assert (Hin : forall x, x < outW -> k * outW + x < outW * outH).
      { intros x Hx. nia. }
      assert (Hdm : forall j, k * outW <= j < k * outW + outW ->
                              j / outW = k /\ j mod outW = j - k * outW).
      { intros j Hj. split; symmetry.
        - apply Nat.div_unique with (r := j - k * outW); nia.
        - apply Nat.mod_unique with (q := k); nia. }
      assert (Hv : forall j, k * outW <= j < k * outW + outW ->
                val j = fround (if j - k * outW <? hw then g4 k (j - k * outW)
                                else g2v k (j - k * outW))).
      { intros j Hj. unfold val.
        destruct (Hdm j Hj) as [-> ->].
        rewrite kids_cases by (fold outW outH; lia). fold hw hh.
        destruct (Nat.ltb_spec (j - k * outW) hw), (Nat.ltb_spec k hh); try lia; reflexivity. }
      destruct (Nat.ltb_spec hw outW) as [Hlt|Hge]; cbn [fst snd].
      + rewrite store32_length, Hl1. split; [exact IHl|split; [reflexivity|]].
        intros j. rewrite store32_lookup, Hl1, Hr1, IH, IHl.
        repeat destruct (decide _); try nia; try reflexivity;
          rewrite Hv by lia; ltb_cases; repeat f_equal; lia.
      + rewrite Hl1. split; [exact IHl|split; [reflexivity|]].
        intros j. rewrite Hr1, IH, IHl.
        repeat destruct (decide _); try nia; try reflexivity;
          rewrite Hv by lia; ltb_cases; repeat f_equal; lia. }
  specialize (Houter hh (Nat.le_refl _)). cbn zeta in Houter.
  destruct (for_range hh body (out0, None)) as [out1 x1]. cbn [fst snd] in *.
  destruct Houter as (Hl1 & _ & Hr1).
  assert (Hcell : forall x y, x < outW -> y < outH ->
             (y * outW + x) / outW = y /\ (y * outW + x) mod outW = x).
  { intros x y Hx Hy. split; symmetry.
    - apply Nat.div_unique with (r := x); nia.
    - apply Nat.mod_unique with (q := y); nia. }
  assert (Hfin : forall out3,
            length out3 = outW * outH ->
            (forall j, j < outW * outH -> out3 !! j = Some (val j)) ->
            length out3 = outW * outH /\
            forall x y, x < outW -> y < outH ->
              out3 !! (y * outW + x) =
              Some (fround (reduce (map (getf data) (kids w h x y))))).
  { intros out3 Hl3 Hr3. split; [exact Hl3|]. intros x y Hx Hy.
    rewrite Hr3 by nia.
    unfold val. destruct (Hcell x y Hx Hy) as [-> ->]. reflexivity. }
  destruct (Nat.ltb_spec hh outH) as [Hlt|Hge].
  - (* an odd height: the last row holds pairs, and perhaps one single cell *)
    destruct (write_row_spec (hh * outW) hw (g2h hh) out1) as [Hl2 Hr2].
    cbn zeta in Hl2, Hr2.
    set (out2 := for_range hw (fun x out => store32 out (hh * outW + x) (g2h hh x)) out1) in *.
    assert (Hv : forall j, hh * outW <= j < hh * outW + outW ->
              val j = fround (if j - hh * outW <? hw then g2h hh (j - hh * outW)
                              else g1 hh (j - hh * outW))).
    { intros j Hj. unfold val.
      assert (j = hh * outW + (j - hh * outW)) as Hj' by lia.
      destruct (Hcell (j - hh * outW) hh) as [Hd Hm]; [lia|lia|].
      rewrite <- Hj' in Hd, Hm. rewrite Hd, Hm.
      rewrite kids_cases by (fold outW outH; lia). fold hw hh.
      destruct (Nat.ltb_spec (j - hh * outW) hw), (Nat.ltb_spec hh hh); try lia; reflexivity. }
    destruct (Nat.ltb_spec hw outW) as [Hlt'|Hge']; cbn [andb]; apply Hfin.
    + rewrite store32_length, Hl2. exact Hl1.
    + intros j Hj. rewrite store32_lookup, Hl2, Hr2, Hr1, Hl1.
      repeat destruct (decide _); try nia; try reflexivity;
        rewrite Hv by nia; ltb_cases; repeat f_equal; lia.
    + rewrite Hl2. exact Hl1.
    + intros j Hj. rewrite Hr2, Hr1, Hl1.
      repeat destruct (decide _); try nia; try reflexivity;
        rewrite Hv by nia; ltb_cases; repeat f_equal; lia.
  - (* an even height: every row was written by the first loop nest *)
    rewrite andb_false_r. apply Hfin; [exact Hl1|].
    intros j Hj. rewrite Hr1. destruct (decide _) as [_|Hn]; [reflexivity|nia].
Qed.

(** * The reducers *)

Lemma fold_min_spec args r0 :
  let r := fold_left (fun r v => if (v <? r)%float then v else r) args r0 in
  ((r = r0 /\ forall v, In v args -> (v <? r0)%float = false) \/
   (In r args /\ (r <? r0)%float = true)) /\
  forall v, In v args -> (v <? r)%float = false.
Proof.
  revert r0. induction args as [|v1 rest IH]; intros r0; cbn zeta.
  - cbn. split; [left; split; [reflexivity|]|]; intros v [].
  - cbn [fold_left]. specialize (IH (if (v1 <? r0)%float then v1 else r0)).
    cbn zeta in IH. destruct IH as [IH1 IH2].
    set (r := fold_left _ rest _) in *.
    destruct (v1 <? r0)%float eqn:E.
    + destruct IH1 as [[-> Hall]|[Hin Hlt]].
      * split; [right; split; [left; reflexivity|exact E]|].
        intros v [<-|Hv]; [apply ltb_irrefl|apply Hall, Hv].
      * split; [right; split; [right; exact Hin|eapply ltb_trans; eauto]|].
        intros v [<-|Hv]; [apply ltb_asym, Hlt|apply IH2, Hv].
    + destruct IH1 as [[-> Hall]|[Hin Hlt]].
      * split; [left; split; [reflexivity|]|]; (intros v [<-|Hv]; [exact E|apply Hall, Hv]).
      * split; [right; split; [right; exact Hin|exact Hlt]|].
        intros v [<-|Hv]; [|apply IH2, Hv].
        destruct (v1 <? r)%float eqn:E'; [|reflexivity].
        rewrite (ltb_trans _ _ _ E' Hlt) in E. discriminate.
Qed.

Lemma fold_max_spec args r0 :
  let r := fold_left (fun r v => if (r <? v)%float then v else r) args r0 in
  ((r = r0 /\ forall v, In v args -> (r0 <? v)%float = false) \/
   (In r args /\ (r0 <? r)%float = true)) /\
  forall v, In v args -> (r <? v)%float = false.
Proof.
  revert r0. induction args as [|v1 rest IH]; intros r0; cbn zeta.
  - cbn. split; [left; split; [reflexivity|]|]; intros v [].
  - cbn [fold_left]. specialize (IH (if (r0 <? v1)%float then v1 else r0)).
    cbn zeta in IH. destruct IH as [IH1 IH2].
    set (r := fold_left _ rest _) in *.
    destruct (r0 <? v1)%float eqn:E.
    + destruct IH1 as [[-> Hall]|[Hin Hlt]].
      * split; [right; split; [left; reflexivity|exact E]|].
        intros v [<-|Hv]; [apply ltb_irrefl|apply Hall, Hv].
      * split; [right; split; [right; exact Hin|eapply ltb_trans; eauto]|].
        intros v [<-|Hv]; [apply ltb_asym, Hlt|apply IH2, Hv].
    + destruct IH1 as [[-> Hall]|[Hin Hlt]].
      * split; [left; split; [reflexivity|]|]; (intros v [<-|Hv]; [exact E|apply Hall, Hv]).
      * split; [right; split; [right; exact Hin|exact Hlt]|].
        intros v [<-|Hv]; [|apply IH2, Hv].
        destruct (r <? v1)%float eqn:E'; [|reflexivity].
        rewrite (ltb_trans _ _ _ Hlt E') in E. discriminate.
Qed.

Lemma minFinite_spec args :
  ((minFinite args = PrimFloat.infinity /\
    forall v, In v args -> (v <? PrimFloat.infinity)%float = false) \/
   (In (minFinite args) args /\ (minFinite args <? PrimFloat.infinity)%float = true)) /\
  forall v, In v args -> (v <? minFinite args)%float = false.
Proof. apply fold_min_spec. Qed.

Lemma maxFinite_spec args :
  ((maxFinite args = PrimFloat.neg_infinity /\
    forall v, In v args -> (PrimFloat.neg_infinity <? v)%float = false) \/
   (In (maxFinite args) args /\ (PrimFloat.neg_infinity <? maxFinite args)%float = true)) /\
  forall v, In v args -> (maxFinite args <? v)%float = false.
Proof. apply fold_max_spec. Qed.

(** * The shape of the pyramid *)

Lemma ceil_half_le n : ceil_half n <= n.
Proof. unfold ceil_half. halves n. lia. Qed.

Lemma ceil_half_lt n : 1 < n -> ceil_half n < n.
Proof. unfold ceil_half. halves n. lia. Qed.

Lemma ceil_half_pos n : 1 <= n -> 1 <= ceil_half n.
Proof. unfold ceil_half. halves n. lia. Qed.

Lemma unshift_levels_suffix fuel lv : exists pre, unshift_levels fuel lv = pre ++ lv.
Proof.
  revert lv. induction fuel as [|fuel IH]; intros lv; cbn.
  - exists []. reflexivity.
  - destruct lv as [|top rest]; [exists []; reflexivity|].
    destruct (_ || _); [|exists []; reflexivity].
    destruct (IH (mipmapReduce top :: top :: rest)) as [pre ->].
    exists (pre ++ [mipmapReduce top]). rewrite <- app_assoc. reflexivity.
Qed.

Lemma unshift_levels_chain fuel lv :
  reduced_chain lv -> reduced_chain (unshift_levels fuel lv).
Proof.
  revert lv. induction fuel as [|fuel IH]; intros lv Hc; cbn; [exact Hc|].
  destruct lv as [|top rest]; [exact Hc|].
  destruct (_ || _); [|exact Hc].
  apply IH. intros [|k] a b Ha Hb; cbn in *.
  - congruence.
  - eapply Hc; eauto.
Qed.

Lemma unshift_levels_last fuel lv b :
  last lv = Some b -> last (unshift_levels fuel lv) = Some b.
Proof.
  intros Hb. destruct (unshift_levels_suffix fuel lv) as [pre ->].
  rewrite last_app, Hb. reflexivity.
Qed.

(** With [width + height] iterations allowed, the loop stops because its
    test fails, and more fuel changes nothing. *)
Lemma unshift_levels_done fuel top rest :
  width top + height top <= fuel ->
  exists top' rest',
    unshift_levels fuel (top :: rest) = top' :: rest' /\
    width top' <= 1 /\ height top' <= 1 /\
    (1 <= width top -> 1 <= width top') /\ (1 <= height top -> 1 <= height top').
Proof.
  revert top rest. induction fuel as [|fuel IH]; intros top rest Hf; cbn [unshift_levels].
  - exists top, rest. repeat split; lia.
  - destruct (Nat.ltb_spec 1 (width top)) as [Hw|Hw]; cbn [orb];
      [|destruct (Nat.ltb_spec 1 (height top)) as [Hh|Hh]].
    + destruct (IH (mipmapReduce top) (top :: rest)) as (t & r & -> & ? & ? & Hw' & Hh').
      { cbn [mipmapReduce width height]. pose proof (ceil_half_lt _ Hw). pose proof (ceil_half_le (height top)). lia. }
      exists t, r. repeat split; try assumption.
      * intros _. apply Hw'. cbn [mipmapReduce width height]. apply ceil_half_pos. lia.
      * intros ?. apply Hh'. cbn [mipmapReduce width height]. apply ceil_half_pos. lia.
    + destruct (IH (mipmapReduce top) (top :: rest)) as (t & r & -> & ? & ? & Hw' & Hh').
      { cbn [mipmapReduce width height]. pose proof (ceil_half_lt _ Hh). pose proof (ceil_half_le (width top)). lia. }
      exists t, r. repeat split; try assumption.
      * intros ?. apply Hw'. cbn [mipmapReduce width height]. apply ceil_half_pos. lia.
      * intros _. apply Hh'. cbn [mipmapReduce width height]. apply ceil_half_pos. lia.
    + exists top, rest. repeat split; lia.
Qed.

Lemma unshift_levels_more fuel extra top rest :
  width top + height top <= fuel ->
  unshift_levels (fuel + extra) (top :: rest) = unshift_levels fuel (top :: rest).
Proof.
  revert top rest. induction fuel as [|fuel IH]; intros top rest Hf.
  - cbn [Nat.add]. destruct extra; cbn [unshift_levels]; [reflexivity|].
    destruct (Nat.ltb_spec 1 (width top)); [lia|].
    destruct (Nat.ltb_spec 1 (height top)); [lia|]. reflexivity.
  - cbn [Nat.add unshift_levels]. destruct (Nat.ltb_spec 1 (width top)) as [Hw|Hw]; cbn [orb];
      [|destruct (Nat.ltb_spec 1 (height top)) as [Hh|Hh]]; try reflexivity.
    + apply IH. cbn [mipmapReduce width height]. pose proof (ceil_half_lt _ Hw). pose proof (ceil_half_le (height top)). lia.
    + apply IH. cbn [mipmapReduce width height]. pose proof (ceil_half_lt _ Hh). pose proof (ceil_half_le (width top)). lia.
Qed.

Lemma log2_up_half m : 2 <= m -> Nat.log2_up m = S (Nat.log2_up (ceil_half m)).
Proof.
  intros Hm. unfold ceil_half. halves m.
  set (c := (m + 1) / 2) in *.
  destruct (Nat.eq_dec c 1) as [Hc|Hc].
  - assert (m = 2) by lia. subst m. rewrite Hc. reflexivity.
  - assert (Hc1 : 1 < c) by lia.
    apply Nat.log2_up_unique; [lia|].
    pose proof (Nat.log2_up_spec c Hc1) as [Hlo Hhi].
    cbn [pred]. rewrite Nat.pow_succ_r'.
    assert (0 < Nat.log2_up c) as Hpos by (apply Nat.log2_up_pos; lia).
    destruct (Nat.log2_up c) as [|k]; [lia|].
    cbn [pred] in Hlo. rewrite Nat.pow_succ_r' in *. lia.
Qed.

Lemma unshift_levels_length fuel top rest :
  1 <= width top -> 1 <= height top -> width top + height top <= fuel ->
  length (unshift_levels fuel (top :: rest)) =
  length (top :: rest) + Nat.log2_up (Nat.max (width top) (height top)).
Proof.
  revert top rest. induction fuel as [|fuel IH]; intros top rest Hw1 Hh1 Hf; [lia|].
  cbn [unshift_levels].
  assert (Hmax : Nat.max (ceil_half (width top)) (ceil_half (height top)) =
                 ceil_half (Nat.max (width top) (height top))).
  { unfold ceil_half. halves (width top). halves (height top).
    destruct (Nat.max_spec (width top) (height top)) as [[? ->]|[? ->]]; lia. }
  destruct (Nat.ltb_spec 1 (width top)) as [Hw|Hw]; cbn [orb];
    [|destruct (Nat.ltb_spec 1 (height top)) as [Hh|Hh]].
  - rewrite IH; cbn [width height mipmapReduce length].
    + rewrite Hmax, (log2_up_half (Nat.max _ _)) by lia. lia.
    + apply ceil_half_pos; lia.
    + apply ceil_half_pos; lia.
    + pose proof (ceil_half_lt _ Hw). pose proof (ceil_half_le (height top)). lia.
  - rewrite IH; cbn [width height mipmapReduce length].
    + rewrite Hmax, (log2_up_half (Nat.max _ _)) by lia. lia.
    + apply ceil_half_pos; lia.
    + apply ceil_half_pos; lia.
    + pose proof (ceil_half_lt _ Hh). pose proof (ceil_half_le (width top)). lia.
  - replace (Nat.max (width top) (height top)) with 1 by lia. cbn. lia.
Qed.

Lemma pyramid_length raster w h :
  1 <= w -> 1 <= h ->
  length (levels (new_ContourMipmap raster w h)) = Nat.log2_up (Nat.max w h) + 1.
Proof.
  intros Hw Hh. unfold new_ContourMipmap. cbn [levels].
  rewrite unshift_levels_length; cbn [width height length]; lia.
Qed.

Lemma pyramid_chain raster w h :
  reduced_chain (levels (new_ContourMipmap raster w h)) /\
  last (levels (new_ContourMipmap raster w h)) = Some (base_level raster w h).
Proof.
  split.
  - apply unshift_levels_chain. intros [|k] a b Ha Hb; cbn in *; discriminate.
  - apply unshift_levels_last. reflexivity.
Qed.

(** Every level of a chain is reached from its last by reductions. *)
Lemma chain_levels_ind (P : MipmapLevel -> Prop) lv b :
  reduced_chain lv -> last lv = Some b -> P b ->
  (forall L, P L -> P (mipmapReduce L)) ->
  forall k L, lv !! k = Some L -> P L.
Proof.
  intros Hc Hl Hb Hstep. induction lv as [|a lv IH]; intros k L Hk; [discriminate|].
  destruct lv as [|a' lv].
  - destruct k; [|discriminate]. cbn in *. congruence.
  - assert (Hall : forall k L, (a' :: lv) !! k = Some L -> P L).
    { apply IH.
      - intros j x y Hx Hy. apply (Hc (S j)); assumption.
      - exact Hl. }
    destruct k as [|k]; [|apply (Hall k), Hk].
    cbn in Hk. injection Hk as <-.
    rewrite (Hc 0 a a' eq_refl eq_refl). apply Hstep, (Hall 0). reflexivity.
Qed.


(** ** Cells of a reduced level *)

Lemma cell_index_comm W c : cell_index W c = W * snd c + fst c.
Proof. unfold cell_index. lia. Qed.

Lemma getf_lookup data i v : data !! i = Some v -> getf data i = v.
Proof. unfold getf. intros ->. reflexivity. Qed.

Lemma getf_ge data i : length data <= i -> getf data i = PrimFloat.nan.
Proof. unfold getf. intros H. rewrite lookup_ge_None_2 by exact H. reflexivity. Qed.

Lemma mipmapReduce_cell L x y :
  x < ceil_half (width L) -> y < ceil_half (height L) ->
  cell_min (mipmapReduce L) x y =
    fround (minFinite (map (fun c => cell_min L (fst c) (snd c)) (children_in L x y))) /\
  cell_max (mipmapReduce L) x y =
    fround (maxFinite (map (fun c => cell_max L (fst c) (snd c)) (children_in L x y))).
Proof.
  intros Hx Hy. unfold cell_min, cell_max. cbn [mipmapReduce min max width].
  rewrite (Nat.mul_comm (ceil_half (width L)) y).
  destruct (reduceWith_spec (width L) (height L) (min L) minFinite) as [_ Hmin].
  destruct (reduceWith_spec (width L) (height L) (max L) maxFinite) as [_ Hmax].
  rewrite (getf_lookup _ _ _ (Hmin x y Hx Hy)), (getf_lookup _ _ _ (Hmax x y Hx Hy)).
  unfold kids, children_in. rewrite !map_map.
  split; do 2 f_equal; apply map_ext; intros c; rewrite cell_index_comm; reflexivity.
Qed.

Lemma mipmapReduce_index L i :
  i < ceil_half (width L) * ceil_half (height L) ->
  let W' := ceil_half (width L) in
  i mod W' < W' /\ i / W' < ceil_half (height L) /\
  getf (min (mipmapReduce L)) i = cell_min (mipmapReduce L) (i mod W') (i / W') /\
  getf (max (mipmapReduce L)) i = cell_max (mipmapReduce L) (i mod W') (i / W').
Proof.
  intros Hi W'. assert (W' <> 0) by (unfold W'; lia).
  assert (i mod W' < W') by (apply Nat.mod_upper_bound; assumption).
  assert (i / W' < ceil_half (height L)) by (apply Nat.Div0.div_lt_upper_bound; fold W'; lia).
  unfold cell_min, cell_max. cbn [mipmapReduce width]. fold W'.
  rewrite <- (Nat.div_mod_eq i W'). auto.
Qed.

Lemma mipmapReduce_out_of_range L i :
  ceil_half (width L) * ceil_half (height L) <= i ->
  getf (min (mipmapReduce L)) i = PrimFloat.nan /\
  getf (max (mipmapReduce L)) i = PrimFloat.nan.
Proof.
  intros Hi. cbn [mipmapReduce min max].
  destruct (reduceWith_spec (width L) (height L) (min L) minFinite) as [Hl1 _].
  destruct (reduceWith_spec (width L) (height L) (max L) maxFinite) as [Hl2 _].
  rewrite !getf_ge by lia. split; reflexivity.
Qed.

Lemma is_float32_nan : is_float32 PrimFloat.nan.
Proof. reflexivity. Qed.

Lemma is_float32_infinity : is_float32 PrimFloat.infinity.
Proof. reflexivity. Qed.

Lemma is_float32_neg_infinity : is_float32 PrimFloat.neg_infinity.
Proof. reflexivity. Qed.

Lemma getf_float32 raster i : Forall is_float32 raster -> is_float32 (getf raster i).
Proof.
  intros H. unfold getf. destruct (raster !! i) as [v|] eqn:E; cbn.
  - rewrite List.Forall_forall in H. apply H. apply list_elem_of_In.
    eapply list_elem_of_lookup_2; eauto.
  - apply is_float32_nan.
Qed.

Lemma In_map_children {A} (f : nat * nat -> A) L x y v :
  In v (map f (children_in L x y)) ->
  exists c, In c (children_in L x y) /\ v = f c.
Proof.
  intros H. apply in_map_iff in H. destruct H as (c & <- & Hc). eauto.
Qed.

Lemma min_max_ok_refl v : min_max_ok v v.
Proof.
  unfold min_max_ok. destruct (PrimFloat.is_nan v) eqn:E; [left; auto|].
  right. right. float_keys. key_cases v; key_solve.
Qed.

Lemma mipmapReduce_level_ok L : level_ok L -> level_ok (mipmapReduce L).
Proof.
  intros HL i.
  destruct (Nat.lt_ge_cases i (ceil_half (width L) * ceil_half (height L))) as [Hi|Hi].
  2:{ destruct (mipmapReduce_out_of_range L i Hi) as [-> ->].
      repeat split; try apply is_float32_nan. left. split; reflexivity. }
  destruct (mipmapReduce_index L i Hi) as (Hx & Hy & -> & ->).
  destruct (mipmapReduce_cell L _ _ Hx Hy) as [-> ->].
  set (cs := children_in L _ _).
  set (mins := map (fun c => cell_min L (fst c) (snd c)) cs).
  set (maxs := map (fun c => cell_max L (fst c) (snd c)) cs).
  destruct (minFinite_spec mins) as [Hmin Hminall].
  destruct (maxFinite_spec maxs) as [Hmax Hmaxall].
  assert (Hf32min : is_float32 (minFinite mins)).
  { destruct Hmin as [[-> _]|[Hin _]]; [apply is_float32_infinity|].
    apply In_map_children in Hin. destruct Hin as (c & _ & ->). apply HL. }
  assert (Hf32max : is_float32 (maxFinite maxs)).
  { destruct Hmax as [[-> _]|[Hin _]]; [apply is_float32_neg_infinity|].
    apply In_map_children in Hin. destruct Hin as (c & _ & ->). apply HL. }
  rewrite Hf32min, Hf32max. split; [exact Hf32min|split; [exact Hf32max|]].
  (* the child that gives the min, if any, bounds the max from below *)
  assert (Hpair : forall c, In c cs ->
            In (cell_min L (fst c) (snd c)) mins /\ In (cell_max L (fst c) (snd c)) maxs /\
            min_max_ok (cell_min L (fst c) (snd c)) (cell_max L (fst c) (snd c))).
  { intros c Hc. split; [|split].
    - apply in_map_iff. eauto.
    - apply in_map_iff. eauto.
    - apply HL. }
  unfold min_max_ok.
  destruct Hmin as [[Emin Hnone]|[Hin Hlt]].
  - destruct Hmax as [[Emax Hnone']|[Hin' Hgt]].
    + right. left. rewrite Emin, Emax. split; reflexivity.
    + right. right. rewrite Emin.
      apply In_map_children in Hin'. destruct Hin' as (c & Hc & Ec).
      destruct (Hpair c Hc) as (Hcmin & _ & Hok).
      specialize (Hnone _ Hcmin). rewrite Ec in Hgt |- *.
      destruct Hok as [[_ Hn]|[[_ Hn]|Hle]].
      * exfalso. float_keys. key_cases (cell_max L (fst c) (snd c)); key_solve.
      * congruence.
      * float_keys. key_cases (cell_min L (fst c) (snd c));
          key_cases (cell_max L (fst c) (snd c)); key_solve.
  - right. right.
    apply In_map_children in Hin. destruct Hin as (c & Hc & Ec).
    destruct (Hpair c Hc) as (_ & Hcmax & Hok).
    specialize (Hmaxall _ Hcmax). rewrite Ec in Hlt |- *.
    assert (Hle : (cell_min L (fst c) (snd c) <=? cell_max L (fst c) (snd c))%float = true).
    { destruct Hok as [[Hn _]|[[Hn _]|Hle]]; [| congruence | exact Hle].
      exfalso. float_keys. key_cases (cell_min L (fst c) (snd c)); key_solve. }
    assert (Hnn : PrimFloat.is_nan (maxFinite maxs) = false).
    { destruct Hmax as [[-> _]|[_ Hgt]]; [reflexivity|].
      float_keys. key_cases (maxFinite maxs); key_solve. }
    clear Hok Hmax Hminall Hpair Hf32min Hf32max.
    float_keys.
    key_cases (cell_min L (fst c) (snd c)); key_cases (cell_max L (fst c) (snd c));
      key_cases (maxFinite maxs); key_solve.
Qed.

Lemma base_level_ok raster w h :
  Forall is_float32 raster -> level_ok (base_level raster w h).
Proof.
  intros H i. cbn [base_level min max].
  repeat split; try apply getf_float32, H. apply min_max_ok_refl.
Qed.


(** * Footprints *)

Lemma children_in_spec L x y cx cy :
  In (cx, cy) (children_in L x y) <->
  cx < width L /\ cy < height L /\ cx / 2 = x /\ cy / 2 = y.
Proof.
  unfold children_in, child_cells, in_level. rewrite filter_In. cbn [In fst snd].
  rewrite andb_true_iff, !Nat.ltb_lt.
  pose proof (Nat.div_mod_eq cx 2). pose proof (Nat.mod_upper_bound cx 2 ltac:(lia)).
  pose proof (Nat.div_mod_eq cy 2). pose proof (Nat.mod_upper_bound cy 2 ltac:(lia)).
  split.
  - intros [[E|[E|[E|[E|[]]]]] [? ?]]; inversion E; subst; repeat split; try assumption;
      lia.
  - intros (? & ? & <- & <-). split; [|split; assumption].
    assert (cx mod 2 = 0 \/ cx mod 2 = 1) as [Ex|Ex] by lia;
      assert (cy mod 2 = 0 \/ cy mod 2 = 1) as [Ey|Ey] by lia.
    + left. f_equal; lia.
    + right. right. left. f_equal; lia.
    + right. left. f_equal; lia.
    + right. right. right. left. f_equal; lia.
Qed.

Lemma footprint_child w h L x y X Y :
  covers w h L ->
  in_footprint w h (mipmapReduce L) x y X Y <->
  exists c, In c (children_in L x y) /\ in_footprint w h L (fst c) (snd c) X Y.
Proof.
  intros (Hs & Hcx & Hcy). unfold in_footprint. cbn [mipmapReduce scale].
  rewrite <- !Nat.Div0.div_div. split.
  - intros (HX & HY & Ex & Ey). exists (X / scale L, Y / scale L). cbn [fst snd].
    split; [|auto]. apply children_in_spec. auto.
  - intros ([cx cy] & Hc & HX & HY & Ex & Ey). cbn [fst snd] in *.
    apply children_in_spec in Hc. destruct Hc as (_ & _ & <- & <-). subst. auto.
Qed.

Lemma covers_base raster w h : covers w h (base_level raster w h).
Proof.
  unfold covers. cbn [base_level scale width height]. split; [lia|].
  split; intros ? ?; rewrite Nat.div_1_r; assumption.
Qed.

Lemma covers_reduce w h L : covers w h L -> covers w h (mipmapReduce L).
Proof.
  intros (Hs & Hcx & Hcy). unfold covers. cbn [mipmapReduce scale width height].
  split; [lia|]. unfold ceil_half.
  split; intros Z HZ; rewrite <- Nat.Div0.div_div.
  - specialize (Hcx Z HZ). halves (width L).
    pose proof (Nat.div_mod_eq (Z / scale L) 2).
    pose proof (Nat.mod_upper_bound (Z / scale L) 2 ltac:(lia)). lia.
  - specialize (Hcy Z HZ). halves (height L).
    pose proof (Nat.div_mod_eq (Z / scale L) 2).
    pose proof (Nat.mod_upper_bound (Z / scale L) 2 ltac:(lia)). lia.
Qed.

Lemma summary_ok_weaken (S S' : float -> float -> Prop) raster w h L :
  (forall a b, S a b -> S' a b) ->
  summary_ok S raster w h L -> summary_ok S' raster w h L.
Proof.
  intros HS [Hc H]. split; [exact Hc|]. intros x y Hx Hy.
  destruct (H x y Hx Hy) as (? & ? & [?|[? ?]]); repeat split; try assumption.
  - left. assumption.
  - right. auto.
Qed.

Lemma getf_sample_ok raster i : Forall sample_ok raster -> sample_ok (getf raster i).
Proof.
  intros H. unfold getf. destruct (raster !! i) as [v|] eqn:E; cbn.
  - rewrite List.Forall_forall in H. apply H. apply list_elem_of_In.
    eapply list_elem_of_lookup_2; eauto.
  - split; [apply is_float32_nan|right; reflexivity].
Qed.

Lemma summary_ok_base raster w h :
  Forall sample_ok raster -> summary_ok nan_pair raster w h (base_level raster w h).
Proof.
  intros H. split; [apply covers_base|]. intros x y Hx Hy.
  unfold cell_summary, cell_min, cell_max, in_footprint, sample.
  cbn [base_level min max width height scale] in *.
  destruct (getf_sample_ok raster (w * y + x) H) as [Hf [Hfin|Hnan]].
  - repeat split; try exact Hf. left. repeat split; try exact Hfin.
    exists x, y. rewrite !Nat.div_1_r, (Nat.mul_comm y w). auto.
  - repeat split; try exact Hf. right. split; [split; exact Hnan|].
    intros X Y (_ & _ & EX & EY). rewrite Nat.div_1_r in EX, EY. subst.
    rewrite (Nat.mul_comm y w). exact Hnan.
Qed.

Lemma summary_ok_reduce raster w h L :
  summary_ok (fun a b => nan_pair a b \/ empty_pair a b) raster w h L ->
  summary_ok empty_pair raster w h (mipmapReduce L).
Proof.
  intros [Hcov HL]. split; [apply covers_reduce, Hcov|].
  intros x y Hx Hy. cbn [mipmapReduce width height] in Hx, Hy.
  unfold cell_summary.
  destruct (mipmapReduce_cell L x y Hx Hy) as [-> ->].
  set (cs := children_in L x y).
  set (mins := map (fun c => cell_min L (fst c) (snd c)) cs).
  set (maxs := map (fun c => cell_max L (fst c) (snd c)) cs).
  assert (Hcs : forall c, In c cs ->
            fst c < width L /\ snd c < height L /\
            In (cell_min L (fst c) (snd c)) mins /\ In (cell_max L (fst c) (snd c)) maxs).
  { intros [cx cy] Hc. pose proof Hc as Hc'. apply children_in_spec in Hc'.
    cbn [fst snd]. repeat split; try tauto; apply in_map_iff; eexists; split; eauto; reflexivity. }
  destruct (minFinite_spec mins) as [Hmin Hminall].
  destruct (maxFinite_spec maxs) as [Hmax Hmaxall].
  (* is some child finite? *)
  assert (Hdec : (exists c, In c cs /\ PrimFloat.is_finite (cell_min L (fst c) (snd c)) = true) \/
                 (forall c, In c cs -> PrimFloat.is_finite (cell_min L (fst c) (snd c)) = false)).
  { clear. induction cs as [|c cs IH]; [right; intros c []|].
    destruct (PrimFloat.is_finite (cell_min L (fst c) (snd c))) eqn:E.
    - left. exists c. split; [left; reflexivity|exact E].
    - destruct IH as [(c' & Hc' & E')|IH].
      + left. exists c'. split; [right; exact Hc'|exact E'].
      + right. intros c' [<-|Hc']; auto. }
  assert (Hkid : forall c, In c cs ->
            is_float32 (cell_min L (fst c) (snd c)) /\ is_float32 (cell_max L (fst c) (snd c)) /\
            cell_summary (fun a b => nan_pair a b \/ empty_pair a b) raster w h L (fst c) (snd c)).
  { intros c Hc. destruct (Hcs c Hc) as (? & ? & _). apply HL; assumption. }
  destruct Hdec as [(c & Hc & Hfin)|Hnone].
  - (* a finite child: the min and the max are finite values of children *)
    destruct (Hkid c Hc) as (_ & _ & [(_ & Hfmax & X & Y & Hfp & HXY)|[Hshape _]]).
    2:{ exfalso. destruct Hshape as [[Hn _]|[E _]].
        - rewrite (is_finite_nan _ Hn) in Hfin. discriminate.
        - rewrite E in Hfin. discriminate. }
    destruct (Hcs c Hc) as (_ & _ & Hinmin & Hinmax).
    assert (Hrmin : In (minFinite mins) mins /\ (minFinite mins <? PrimFloat.infinity)%float = true).
    { destruct Hmin as [[_ Hno]|?]; [|assumption].
      pose proof (Hno _ Hinmin). pose proof (is_finite_lt_infinity _ Hfin). congruence. }
    assert (Hrmax : In (maxFinite maxs) maxs /\ (PrimFloat.neg_infinity <? maxFinite maxs)%float = true).
    { destruct Hmax as [[_ Hno]|?]; [|assumption].
      pose proof (Hno _ Hinmax). pose proof (is_finite_gt_neg_infinity _ Hfmax). congruence. }
    destruct Hrmin as [Hin1 Hlt1]. destruct Hrmax as [Hin2 Hlt2].
    apply In_map_children in Hin1. destruct Hin1 as (c1 & Hc1 & E1).
    apply In_map_children in Hin2. destruct Hin2 as (c2 & Hc2 & E2).
    destruct (Hkid c1 Hc1) as (F1 & _ & S1). destruct (Hkid c2 Hc2) as (_ & F2 & S2).
    rewrite E1, E2 in *. rewrite F1, F2.
    assert (PrimFloat.is_finite (cell_min L (fst c1) (snd c1)) = true).
    { destruct S1 as [(? & _)|[[[Hn _]|[E _]] _]]; [assumption| |].
      - exfalso. float_keys. key_cases (cell_min L (fst c1) (snd c1)); key_solve.
      - rewrite E in Hlt1. discriminate. }
    assert (PrimFloat.is_finite (cell_max L (fst c2) (snd c2)) = true).
    { destruct S2 as [(_ & ? & _)|[[[_ Hn]|[_ E]] _]]; [assumption| |].
      - exfalso. float_keys. key_cases (cell_max L (fst c2) (snd c2)); key_solve.
      - rewrite E in Hlt2. discriminate. }
    repeat split; try assumption. left. repeat split; try assumption.
    exists X, Y. split; [|exact HXY]. apply footprint_child; [exact Hcov|]. eauto.
  - (* no finite child: nothing is below +Infinity or above -Infinity *)
    assert (Hsh : forall c, In c cs ->
              (nan_pair (cell_min L (fst c) (snd c)) (cell_max L (fst c) (snd c)) \/
               empty_pair (cell_min L (fst c) (snd c)) (cell_max L (fst c) (snd c))) /\
              forall X Y, in_footprint w h L (fst c) (snd c) X Y ->
                          PrimFloat.is_nan (sample raster w X Y) = true).
    { intros c Hc. destruct (Hkid c Hc) as (_ & _ & [(Hf & _)|?]); [|assumption].
      rewrite (Hnone c Hc) in Hf. discriminate. }
    assert (Emin : minFinite mins = PrimFloat.infinity).
    { destruct Hmin as [[E _]|[Hin Hlt]]; [exact E|exfalso].
      apply In_map_children in Hin. destruct Hin as (c & Hc & E). rewrite E in Hlt.
      destruct (Hsh c Hc) as [[[Hn _]|[E' _]] _].
      - float_keys. key_cases (cell_min L (fst c) (snd c)); key_solve.
      - rewrite E' in Hlt. discriminate. }
    assert (Emax : maxFinite maxs = PrimFloat.neg_infinity).
    { destruct Hmax as [[E _]|[Hin Hlt]]; [exact E|exfalso].
      apply In_map_children in Hin. destruct Hin as (c & Hc & E). rewrite E in Hlt.
      destruct (Hsh c Hc) as [[[_ Hn]|[_ E']] _].
      - float_keys. key_cases (cell_max L (fst c) (snd c)); key_solve.
      - rewrite E' in Hlt. discriminate. }
    rewrite Emin, Emax. repeat split; try reflexivity.
    right. split; [split; reflexivity|].
    intros X Y Hfp. apply footprint_child in Hfp; [|exact Hcov].
    destruct Hfp as (c & Hc & Hfp). apply (Hsh c Hc). exact Hfp.
Qed.

Lemma pyramid_summary_ok raster w h k L :
  Forall sample_ok raster ->
  levels (new_ContourMipmap raster w h) !! k = Some L ->
  summary_ok (fun a b => nan_pair a b \/ empty_pair a b) raster w h L.
Proof.
  intros H. destruct (pyramid_chain raster w h) as [Hc Hl].
  apply (chain_levels_ind _ _ _ Hc Hl).
  - eapply summary_ok_weaken; [|apply summary_ok_base, H]. auto.
  - intros L' HL'. eapply summary_ok_weaken; [|apply summary_ok_reduce, HL']. auto.
Qed.

(** * Claims about the pyramid *)

(** C8. For every raster with width >= 1 and height >= 1 the pyramid has
    exactly ceil(log2(max(width, height))) + 1 levels, and its coarsest level
    [levels[0]] is one cell wide and one cell high. *)
Theorem pyramid_depth raster w h :
  1 <= w -> 1 <= h ->
  length (levels (new_ContourMipmap raster w h)) = Nat.log2_up (Nat.max w h) + 1 /\
  exists root, levels (new_ContourMipmap raster w h) !! 0 = Some root /\
               width root = 1 /\ height root = 1.
Proof.
  intros Hw Hh. split; [apply pyramid_length; assumption|].
  unfold new_ContourMipmap. cbn [levels].
  destruct (unshift_levels_done (w + h)
              {| min := raster; max := raster; width := w; height := h; scale := 1 |} [])
    as (top & rest & -> & Hw' & Hh' & Hw1 & Hh1); [cbn; lia|].
  exists top. cbn in Hw1, Hh1. split; [reflexivity|]. lia.
Qed.

Lemma pyramid_depth_witness :
  length (levels (new_ContourMipmap raster_2x2 2 2)) = Nat.log2_up (Nat.max 2 2) + 1 /\
  exists root, levels (new_ContourMipmap raster_2x2 2 2) !! 0 = Some root /\
               width root = 1 /\ height root = 1.
Proof. apply (pyramid_depth raster_2x2 2 2); lia. Defined.




Lemma last_level_is_base raster w h k L :
  levels (new_ContourMipmap raster w h) !! k = Some L ->
  S k = length (levels (new_ContourMipmap raster w h)) ->
  L = base_level raster w h.
Proof.
  intros Hk Hlen. destruct (pyramid_chain raster w h) as [_ Hl].
  rewrite last_lookup, <- Hlen in Hl. cbn [pred] in Hl. congruence.
Qed.




(** * The quadtree walk *)

(** C6. In [evaluate], for every in-bounds cell with finite min and max
    and for every value of the depth cap: a cell that straddles the
    threshold (neither min >= threshold nor max < threshold) classifies
    ABOVE when its level is at or past the cap and WITHIN when it is below
    the cap; a cell with min >= threshold is ABOVE and one with
    max < threshold is BELOW whatever the cap is.  The cap of a walk is its
    [maxMipmapLevel] option when that is a positive number, and the number
    of pyramid levels when the option is absent (or 0, which [||] takes for
    absent); under that default every level of the pyramid is below the
    cap. *)
Theorem evaluate_depth_cap this t cap l x y ml :
  levels this !! l = Some ml ->
  x < width ml -> y < height ml ->
  PrimFloat.is_finite (cell_min ml x y) = true ->
  PrimFloat.is_finite (cell_max ml x y) = true ->
  ((t <=? cell_min ml x y)%float = false -> (cell_max ml x y <? t)%float = false ->
   (cap <= l -> evaluate this t cap l x y = Ok ABOVE) /\
   (l < cap -> evaluate this t cap l x y = Ok WITHIN)) /\
  ((t <=? cell_min ml x y)%float = true -> evaluate this t cap l x y = Ok ABOVE) /\
  ((t <=? cell_min ml x y)%float = false -> (cell_max ml x y <? t)%float = true ->
   evaluate this t cap l x y = Ok BELOW) /\
  (forall m, 1 <= m -> effective_max this (Some m) = m) /\
  effective_max this None = length (levels this) /\
  effective_max this (Some 0) = length (levels this) /\
  l < effective_max this None.
Proof.
  intros Hl Hx Hy Hmin Hmax. pose proof (lookup_lt_Some _ _ _ Hl) as Hlt.
  unfold evaluate, cell_min, cell_max in *. rewrite Hl.
  destruct (Nat.leb_spec (width ml) x); [lia|].
  destruct (Nat.leb_spec (height ml) y); [lia|].
  rewrite Hmin, Hmax. cbn [negb orb].
  split; [|split; [|split; [|split; [|split; [|split]]]]].
  - intros -> ->. split; intros Hc.
    + destruct (Nat.leb_spec cap l); [reflexivity|lia].
    + destruct (Nat.leb_spec cap l); [lia|reflexivity].
  - intros ->. reflexivity.
  - intros -> ->. reflexivity.
  - intros [|m] Hm; [lia|reflexivity].
  - reflexivity.
  - reflexivity.
  - exact Hlt.
Qed.

(** At threshold 3 the cell (0, 1) of level 1 of the 4 by 4 raster holds
    min 0 and max 5: with [maxMipmapLevel = 1] it is forced to ABOVE, with
    the default cap it is WITHIN. *)
Lemma evaluate_depth_cap_witness :
  let this := new_ContourMipmap raster_4x4 4 4 in
  let ml := {| min := [5; 0; 0; 5]%float; max := [5; 0; 5; 5]%float;
               width := 2; height := 2; scale := 2 |} in
  levels this !! 1 = Some ml /\
  (3 <=? cell_min ml 0 1)%float = false /\ (cell_max ml 0 1 <? 3)%float = false /\
  evaluate this 3 (effective_max this (Some 1)) 1 0 1 = Ok ABOVE /\
  evaluate this 3 (effective_max this None) 1 0 1 = Ok WITHIN.
Proof.
  cbn zeta.
  set (this := new_ContourMipmap raster_4x4 4 4).
  set (ml := {| min := [5; 0; 0; 5]%float; max := [5; 0; 5; 5]%float;
                width := 2; height := 2; scale := 2 |}).
  assert (Hl : levels this !! 1 = Some ml) by reflexivity.
  assert (Hx : 0 < width ml) by (cbn; lia).
  assert (Hy : 1 < height ml) by (cbn; lia).
  assert (Hmin : PrimFloat.is_finite (cell_min ml 0 1) = true) by reflexivity.
  assert (Hmax : PrimFloat.is_finite (cell_max ml 0 1) = true) by reflexivity.
  assert (S1 : (3 <=? cell_min ml 0 1)%float = false) by reflexivity.
  assert (S2 : (cell_max ml 0 1 <? 3)%float = false) by reflexivity.
  split; [exact Hl|]. split; [exact S1|]. split; [exact S2|]. split.
  - destruct (evaluate_depth_cap this 3 (effective_max this (Some 1)) 1 0 1 ml
                Hl Hx Hy Hmin Hmax) as (Hs & _ & _ & Hm & _).
    apply (Hs S1 S2). rewrite (Hm 1); lia.
  - destruct (evaluate_depth_cap this 3 (effective_max this None) 1 0 1 ml
                Hl Hx Hy Hmin Hmax) as (Hs & _ & _ & _ & _ & _ & Hd).
    apply (Hs S1 S2). exact Hd.
Defined.

Ltac pick_member := first [ left; repeat f_equal; lia | right; pick_member ].

Lemma edge_visit_compares this t cap addNode fuel c c1 c2 :
  edge_cells c = Some (c1, c2) -> compares this t cap addNode fuel c c1 c2.
Proof.
  destruct c as [l x y|l x y|l x y]; cbn [edge_cells]; intros H; [discriminate|..];
    injection H as <- <-; unfold compares, evaluate_cell, opposite, line_between;
    cbn zeta; cbn [visit].
  - destruct (evaluate this t cap l x y) as [e1|e|]; cbn [obind]; [|reflexivity..].
    destruct (evaluate this t cap l (x + 1) y) as [e2|e|]; cbn [obind]; [|reflexivity..].
    destruct (classification_eqb e1 ABOVE && classification_eqb e2 BELOW) eqn:F1;
      cbn [orb]; [eexists; split; [reflexivity|right; reflexivity]|].
    destruct (classification_eqb e2 ABOVE && classification_eqb e1 BELOW) eqn:F2;
      [eexists; split; [reflexivity|left; reflexivity]|].
    destruct (classification_eqb e1 WITHIN || classification_eqb e2 WITHIN);
      [|reflexivity].
    exists (EdgeH (l + 1) (x * 2 + 1) (y * 2 + 0)), (EdgeH (l + 1) (x * 2 + 1) (y * 2 + 1)).
    do 4 eexists. split; [|split; [reflexivity|split; [reflexivity|]]].
    + unfold splitH. cbn [visit_list].
      destruct (visit this t cap addNode fuel _) as [a| |]; cbn [obind]; [|reflexivity..].
      destruct (visit this t cap addNode fuel _) as [b| |]; cbn [obind]; [|reflexivity..].
      rewrite app_nil_r. reflexivity.
    + unfold child_of, adjacent.
      assert (D0 : forall n, (n * 2 + 0) / 2 = n)
        by (intros n; rewrite Nat.add_0_r; apply Nat.div_mul; lia).
      assert (D1 : forall n, (n * 2 + 1) / 2 = n)
        by (intros n; rewrite Nat.add_comm, Nat.div_add; cbn; lia).
      assert (D2 : forall n, (n * 2 + 1 + 1) / 2 = n + 1).
      { intros n. replace (n * 2 + 1 + 1) with ((n + 1) * 2) by lia.
        apply Nat.div_mul. lia. }
      rewrite ?D0, ?D1, ?D2. repeat split; try lia. intros E. inversion E. lia.
  - destruct (evaluate this t cap l x y) as [e1|e|]; cbn [obind]; [|reflexivity..].
    destruct (evaluate this t cap l x (y + 1)) as [e2|e|]; cbn [obind]; [|reflexivity..].
    destruct (classification_eqb e1 ABOVE && classification_eqb e2 BELOW) eqn:F1;
      cbn [orb]; [eexists; split; [reflexivity|left; reflexivity]|].
    destruct (classification_eqb e2 ABOVE && classification_eqb e1 BELOW) eqn:F2;
      [eexists; split; [reflexivity|right; reflexivity]|].
    destruct (classification_eqb e1 WITHIN || classification_eqb e2 WITHIN);
      [|reflexivity].
    exists (EdgeV (l + 1) (x * 2 + 0) (y * 2 + 1)), (EdgeV (l + 1) (x * 2 + 1) (y * 2 + 1)).
    do 4 eexists. split; [|split; [reflexivity|split; [reflexivity|]]].
    + unfold splitV. cbn [visit_list].
      destruct (visit this t cap addNode fuel _) as [a| |]; cbn [obind]; [|reflexivity..].
      destruct (visit this t cap addNode fuel _) as [b| |]; cbn [obind]; [|reflexivity..].
      rewrite app_nil_r. reflexivity.
    + unfold child_of, adjacent.
      assert (D0 : forall n, (n * 2 + 0) / 2 = n)
        by (intros n; rewrite Nat.add_0_r; apply Nat.div_mul; lia).
      assert (D1 : forall n, (n * 2 + 1) / 2 = n)
        by (intros n; rewrite Nat.add_comm, Nat.div_add; cbn; lia).
      assert (D2 : forall n, (n * 2 + 1 + 1) / 2 = n + 1).
      { intros n. replace (n * 2 + 1 + 1) with ((n + 1) * 2) by lia.
        apply Nat.div_mul. lia. }
      rewrite ?D0, ?D1, ?D2. repeat split; try lia. intros E. inversion E. lia.
Qed.

Lemma node_visit_classifies this t cap addNode fuel c0 :
  classifies this t cap addNode fuel c0.
Proof.
  destruct c0 as [[l x] y]. unfold classifies, evaluate_cell. cbn zeta. cbn [visit].
  destruct (evaluate this t cap l x y) as [e|e|]; cbn [obind]; [|reflexivity..].
  destruct (classification_eqb e WITHIN); reflexivity.
Qed.

(** C1. A node that classifies WITHIN makes eight visits, each once and in
    this order: the four node visits of its children, then edgeH at
    (2x, 2y), edgeV at (2x, 2y), edgeH at (2x, 2y+1) and edgeV at (2x+1, 2y)
    of the next level; what they pass to the callbacks is what the node
    passes, and the first failure among them is the node's.  Each of the
    four edge visits compares the two cells of its pair: it classifies
    them, and it is their classes that decide whether it calls [addLine]
    for the side they share, hands that side on to finer edge visits, or
    does nothing.  The four pairs are pairwise distinct, and a pair of
    cells is compared if and only if both are children of the node and
    share a side: each of the four boundaries between children is visited
    exactly once, none twice and none left out.  Each node visit
    classifies its child. *)
Theorem node_visits_internal_edges this t cap addNode fuel l x y :
  evaluate this t cap l x y = Ok WITHIN ->
  let go := visit this t cap addNode fuel in
  let children :=
    [ (l + 1, x * 2 + 0, y * 2 + 0); (l + 1, x * 2 + 1, y * 2 + 0);
      (l + 1, x * 2 + 0, y * 2 + 1); (l + 1, x * 2 + 1, y * 2 + 1) ] in
  let edges :=
    [ EdgeH (l + 1) (x * 2 + 0) (y * 2 + 0); EdgeV (l + 1) (x * 2 + 0) (y * 2 + 0);
      EdgeH (l + 1) (x * 2 + 0) (y * 2 + 1); EdgeV (l + 1) (x * 2 + 1) (y * 2 + 0) ] in
  visit this t cap addNode (S fuel) (Node l x y) =
    (let* n1 := go (Node (l + 1) (x * 2 + 0) (y * 2 + 0)) in
     let* n2 := go (Node (l + 1) (x * 2 + 1) (y * 2 + 0)) in
     let* n3 := go (Node (l + 1) (x * 2 + 0) (y * 2 + 1)) in
     let* n4 := go (Node (l + 1) (x * 2 + 1) (y * 2 + 1)) in
     let* e1 := go (EdgeH (l + 1) (x * 2 + 0) (y * 2 + 0)) in
     let* e2 := go (EdgeV (l + 1) (x * 2 + 0) (y * 2 + 0)) in
     let* e3 := go (EdgeH (l + 1) (x * 2 + 0) (y * 2 + 1)) in
     let* e4 := go (EdgeV (l + 1) (x * 2 + 1) (y * 2 + 0)) in
     Ok (n1 ++ n2 ++ n3 ++ n4 ++ e1 ++ e2 ++ e3 ++ e4)) /\
  (forall c f, In c edges ->
     exists c1 c2, edge_cells c = Some (c1, c2) /\ compares this t cap addNode f c c1 c2) /\
  List.NoDup (omap edge_cells edges) /\
  (forall c1 c2,
     In (c1, c2) (omap edge_cells edges) <->
     (In c1 children /\ In c2 children /\ adjacent c1 c2)) /\
  (forall c0 f, In c0 children -> classifies this t cap addNode f c0).
Proof.
  intros Hw. cbn zeta. split; [|split; [|split; [|split]]].
  - cbn [visit]. rewrite Hw. cbn [obind classification_eqb]. unfold subdivide.
    cbn [visit_list].
    repeat (match goal with
            | |- context [obind (visit ?a ?b ?c ?d ?e ?f)] =>
                destruct (visit a b c d e f) as [?| |]; cbn [obind]; [|reflexivity..]
            end).
    rewrite app_nil_r. reflexivity.
  - intros c f Hc.
    assert (He : exists c1 c2, edge_cells c = Some (c1, c2)).
    { repeat (destruct Hc as [<-|Hc]; [cbn [edge_cells]; eauto|]). destruct Hc. }
    destruct He as (c1 & c2 & He). exists c1, c2. split; [exact He|].
    apply edge_visit_compares, He.
  - cbn. repeat constructor; cbn; intros H;
      repeat (destruct H as [H|H]; [inversion H; lia|]); exact H.
  - intros [[l1 x1] y1] [[l2 x2] y2].
    cbn. split.
    + intros H. repeat (destruct H as [H|H]; [inversion H; subst; clear H|]); [..|destruct H];
        (split; [solve [pick_member]|split; [solve [pick_member]|lia]]).
    + intros (H1 & H2 & Hl & Hadj).
      repeat (destruct H1 as [H1|H1]; [inversion H1; subst; clear H1|]); [..|destruct H1];
        repeat (destruct H2 as [H2|H2]; [inversion H2; subst; clear H2|]); try destruct H2;
        try lia; solve [pick_member].
  - intros c0 f _. apply node_visit_classifies.
Qed.

(** The 2 by 2 raster at threshold 3: the root is WITHIN, the left and the
    right column each hold a sample below and a sample at or above the
    threshold, so two of the four edge visits call [addLine]. *)
Lemma node_visits_internal_edges_witness :
  let this := new_ContourMipmap raster_2x2 2 2 in
  let go := visit this 3 2 true 1 in
  let children := [ (1, 0, 0); (1, 1, 0); (1, 0, 1); (1, 1, 1) ] in
  let edges := [ EdgeH 1 0 0; EdgeV 1 0 0; EdgeH 1 0 1; EdgeV 1 1 0 ] in
  evaluate this 3 2 0 0 0 = Ok WITHIN /\
  visit this 3 2 true 2 (Node 0 0 0) =
    (let* n1 := go (Node 1 0 0) in
     let* n2 := go (Node 1 1 0) in
     let* n3 := go (Node 1 0 1) in
     let* n4 := go (Node 1 1 1) in
     let* e1 := go (EdgeH 1 0 0) in
     let* e2 := go (EdgeV 1 0 0) in
     let* e3 := go (EdgeH 1 0 1) in
     let* e4 := go (EdgeV 1 1 0) in
     Ok (n1 ++ n2 ++ n3 ++ n4 ++ e1 ++ e2 ++ e3 ++ e4)) /\
  (forall c f, In c edges ->
     exists c1 c2, edge_cells c = Some (c1, c2) /\ compares this 3 2 true f c c1 c2) /\
  List.NoDup (omap edge_cells edges) /\
  (forall c1 c2,
     In (c1, c2) (omap edge_cells edges) <->
     (In c1 children /\ In c2 children /\ adjacent c1 c2)) /\
  (forall c0 f, In c0 children -> classifies this 3 2 true f c0).
Proof.
  split; [reflexivity|].
  apply (node_visits_internal_edges (new_ContourMipmap raster_2x2 2 2) 3 2 true 1 0 0 0).
  reflexivity.
Defined.

(** ** Termination of the walk *)

Lemma evaluate_ok this t cap l x y :
  l < length (levels this) -> exists e, evaluate this t cap l x y = Ok e.
Proof.
  intros Hl. unfold evaluate.
  destruct (lookup_lt_is_Some_2 _ _ Hl) as [ml ->].
  repeat match goal with |- context [if ?b then _ else _] => destruct b end; eauto.
Qed.

(** A raw sample is never WITHIN when the threshold is a number: min and
    max are the same value. *)
Lemma finest_never_within raster w h t cap l x y :
  PrimFloat.is_nan t = false ->
  S l = length (levels (new_ContourMipmap raster w h)) ->
  evaluate (new_ContourMipmap raster w h) t cap l x y <> Ok WITHIN.
Proof.
  intros Ht Hl. unfold evaluate.
  destruct (levels (new_ContourMipmap raster w h) !! l) as [ml|] eqn:E; [|discriminate].
  pose proof (last_level_is_base _ _ _ _ _ E Hl) as ->.
  cbn [base_level min max width height].
  destruct (_ <=? _); [discriminate|]. destruct (_ <=? _); [discriminate|]. cbn [orb].
  destruct (PrimFloat.is_finite (getf raster (w * y + x))) eqn:Hf; [|discriminate].
  cbn [negb orb].
  destruct (t <=? getf raster (w * y + x))%float eqn:E1; [discriminate|].
  rewrite (leb_false_ltb _ _ Ht (is_finite_not_nan _ Hf) E1). discriminate.
Qed.

Lemma visit_list_ok (visit1 : call -> outcome (list event)) cs :
  (forall c, In c cs -> exists evs, visit1 c = Ok evs) ->
  exists evs, visit_list visit1 cs = Ok evs.
Proof.
  induction cs as [|c cs IH]; intros H; cbn; [eauto|].
  destruct (H c (or_introl eq_refl)) as [evs ->].
  destruct IH as [evs' ->]; [intros; apply H; right; assumption|]. cbn. eauto.
Qed.

Lemma visit_ok raster w h t addNode fuel c :
  PrimFloat.is_nan t = false ->
  let this := new_ContourMipmap raster w h in
  let n := length (levels this) in
  call_level c < n -> n <= call_level c + fuel ->
  forall cap, exists evs, visit this t cap addNode fuel c = Ok evs.
Proof.
  intros Ht this n. revert c.
  induction fuel as [|fuel IH]; intros c Hlt Hge cap; [lia|].
  assert (Hsub : forall l x y cs,
            call_level c = l ->
            (evaluate this t cap l x y = Ok WITHIN \/ evaluate this t cap l (x + 1) y = Ok WITHIN
             \/ evaluate this t cap l x (y + 1) = Ok WITHIN) ->
            (forall c', In c' cs -> call_level c' = l + 1) ->
            exists evs, visit_list (visit this t cap addNode fuel) cs = Ok evs).
  { intros l x y cs El Hw Hcs. apply visit_list_ok. intros c' Hc'.
    assert (S l <> n).
    { intros Hn. destruct Hw as [Hw|[Hw|Hw]]; revert Hw;
        apply finest_never_within; assumption. }
    apply IH; rewrite (Hcs c' Hc'); lia. }
  assert (Hlev : forall cs l, Forall (fun c' => call_level c' = l + 1) cs ->
            forall c', In c' cs -> call_level c' = l + 1).
  { intros cs l H. apply List.Forall_forall. exact H. }
  destruct c as [l x y|l x y|l x y]; cbn [call_level] in *; cbn [visit].
  - destruct (evaluate_ok this t cap l x y Hlt) as [e He]. rewrite He. cbn [obind].
    destruct e; cbn [classification_eqb]; eauto.
    apply (Hsub l x y); auto. apply Hlev. repeat constructor.
  - destruct (evaluate_ok this t cap l x y Hlt) as [e1 He1].
    destruct (evaluate_ok this t cap l (x + 1) y Hlt) as [e2 He2].
    rewrite He1, He2. cbn [obind].
    destruct e1, e2; cbn [classification_eqb andb orb]; eauto;
      (apply (Hsub l x y); [reflexivity|tauto|apply Hlev; repeat constructor]).
  - destruct (evaluate_ok this t cap l x y Hlt) as [e1 He1].
    destruct (evaluate_ok this t cap l x (y + 1) Hlt) as [e2 He2].
    rewrite He1, He2. cbn [obind].
    destruct e1, e2; cbn [classification_eqb andb orb]; eauto;
      (apply (Hsub l x y); [reflexivity|tauto|apply Hlev; repeat constructor]).
Qed.

Lemma levels_nonempty raster w h : 0 < length (levels (new_ContourMipmap raster w h)).
Proof.
  destruct (pyramid_chain raster w h) as [_ Hl].
  destruct (levels (new_ContourMipmap raster w h)); [discriminate|cbn; lia].
Qed.

(** C4 (amended). For every raster and every threshold that is a number
    (not NaN), under the default [maxMipmapLevel]: no cell of the finest
    level classifies WITHIN, and [evaluateContour] returns with recursion
    depth at most the number of pyramid levels, so it never reads
    [this.levels] past its end. *)
Theorem evaluateContour_terminates raster w h t addNode :
  PrimFloat.is_nan t = false ->
  let this := new_ContourMipmap raster w h in
  (forall l x y, S l = length (levels this) ->
     evaluate this t (effective_max this None) l x y <> Ok WITHIN) /\
  exists evs, evaluateContour this t None addNode (length (levels this)) = Ok evs.
Proof.
  intros Ht this. split.
  - intros l x y Hl. apply finest_never_within; assumption.
  - subst this. unfold evaluateContour.
    apply visit_ok; [exact Ht|apply levels_nonempty|cbn [call_level]; lia].
Qed.

Lemma evaluateContour_terminates_witness :
  let this := new_ContourMipmap raster_4x4 4 4 in
  (forall l x y, S l = length (levels this) ->
     evaluate this 3 (effective_max this None) l x y <> Ok WITHIN) /\
  exists evs, evaluateContour this 3 None false (length (levels this)) = Ok evs.
Proof. apply (evaluateContour_terminates raster_4x4 4 4 3 false). reflexivity. Defined.

(** C4 as stated fails for the threshold NaN: the only cell of a 1 by 1
    raster is then WITHIN at the finest level, and the walk recurses into a
    level the pyramid does not have. *)
Lemma nan_threshold_walks_past_finest_level :
  length (levels (new_ContourMipmap [5%float] 1 1)) = 1 /\
  evaluate (new_ContourMipmap [5%float] 1 1) PrimFloat.nan 1 0 0 0 = Ok WITHIN /\
  evaluateContour (new_ContourMipmap [5%float] 1 1) PrimFloat.nan None false 1 = OutOfFuel /\
  evaluateContour (new_ContourMipmap [5%float] 1 1) PrimFloat.nan None false 2 = Throw TypeError /\
  ~ exists fuel evs,
      evaluateContour (new_ContourMipmap [5%float] 1 1) PrimFloat.nan None false fuel = Ok evs.
Proof.
  repeat split; try reflexivity.
  intros ([|[|fuel]] & evs & H); try discriminate H.
Qed.

(** * Stitching *)

(** C2 fails on the code. For the 4 by 4 raster above and threshold 3 the
    first two segments handed to the stitcher both start at (2, 2) and no
    fragment ends there: the second [fragmentStart.set] replaces the first
    fragment's entry, the maps hold 1 and 2 entries, [console.error] is
    called, and the fragment (2,2)-(2,0) is missing from the lines
    [contour] assembles. *)
Theorem stitch_sizes_differ :
  exists segments,
    contour_segments (new_ContourMipmap raster_4x4 4 4) 3 default_opts 3 = Ok segments /\
    firstn 2 segments =
      [ {| start := (2, 2)%Z; end_ := (2, 0)%Z |};
        {| start := (2, 2)%Z; end_ := (2, 3)%Z |} ] /\
    map_size (fragmentStart (stitch [] (firstn 2 segments))) = 1 /\
    map_size (fragmentEnd (stitch [] (firstn 2 segments))) = 2 /\
    mismatches (stitch [] (firstn 2 segments)) = [(1, 2)] /\
    stitched_lines (stitch [] segments) =
      [ [(4, 2); (2, 2); (2, 3); (2, 4)]%Z; [(0, 3); (1, 3); (1, 2)]%Z ].
Proof.
  eexists. split; [vm_compute; reflexivity|].
  repeat split; vm_compute; reflexivity.
Qed.

(** * The stitcher and the heap it runs on *)

Lemma map_get_shift n k m : map_get k (shift_map n m) = Nat.add n <$> map_get k m.
Proof.
  unfold shift_map. induction m as [|[k' v] m IH]; cbn [map map_get fst snd]; [reflexivity|].
  destruct (k' =? k)%Z; [reflexivity|exact IH].
Qed.

Lemma map_set_shift n k v m :
  map_set k (n + v) (shift_map n m) = shift_map n (map_set k v m).
Proof.
  unfold shift_map. induction m as [|[k' v'] m IH]; cbn [map map_set fst snd]; [reflexivity|].
  destruct (k' =? k)%Z; cbn [map fst snd]; [reflexivity|]. rewrite IH. reflexivity.
Qed.

Lemma map_delete_shift n k m :
  map_delete k (shift_map n m) = shift_map n (map_delete k m).
Proof.
  unfold map_delete, shift_map.
  induction m as [|[k' v'] m IH]; cbn [map List.filter fst snd]; [reflexivity|].
  destruct (k' =? k)%Z; cbn [negb map fst snd]; [exact IH|]. rewrite IH. reflexivity.
Qed.

Lemma map_size_shift n m : map_size (shift_map n m) = map_size m.
Proof. apply length_map. Qed.

Lemma deref_shift (h st : heap) r : deref (h ++ st) (length h + r) = deref st r.
Proof.
  unfold deref. rewrite lookup_app_r by lia.
  replace (length h + r - length h) with r by lia. reflexivity.
Qed.

Lemma insert_shift (h st : heap) r v :
  <[length h + r := v]> (h ++ st) = h ++ <[r := v]> st.
Proof.
  rewrite insert_app_r_alt by lia. f_equal. f_equal. lia.
Qed.

Lemma array_push_shift (h st : heap) r p :
  array_push (h ++ st) (length h + r) p = h ++ array_push st r p.
Proof. unfold array_push. rewrite deref_shift, insert_shift. reflexivity. Qed.

Lemma array_unshift_shift (h st : heap) r p :
  array_unshift (h ++ st) (length h + r) p = h ++ array_unshift st r p.
Proof. unfold array_unshift. rewrite deref_shift, insert_shift. reflexivity. Qed.

Lemma stitch_segment_shift h st s :
  stitch_segment (shift_state h st) s = shift_state h (stitch_segment st s).
Proof.
  unfold stitch_segment. cbn [shift_state fragmentStart fragmentEnd rings store mismatches].
  rewrite !map_get_shift.
  destruct (map_get (key (start s)) (fragmentEnd st)) as [a|],
           (map_get (key (end_ s)) (fragmentStart st)) as [b|]; cbn [fmap option_fmap option_map].
  - replace (length h + a =? length h + b) with (a =? b)
      by (destruct (Nat.eqb_spec a b), (Nat.eqb_spec (length h + a) (length h + b)); lia).
    destruct (a =? b); unfold shift_state;
      cbn [fragmentStart fragmentEnd rings store mismatches].
    + rewrite !map_delete_shift, array_push_shift, map_app. reflexivity.
    + rewrite !deref_shift, !map_delete_shift, length_app, !map_set_shift, <- app_assoc.
      reflexivity.
  - unfold shift_state; cbn [fragmentStart fragmentEnd rings store mismatches].
    rewrite !map_delete_shift, !map_set_shift, array_push_shift. reflexivity.
  - unfold shift_state; cbn [fragmentStart fragmentEnd rings store mismatches].
    rewrite !map_delete_shift, !map_set_shift, array_unshift_shift. reflexivity.
  - unfold shift_state; cbn [fragmentStart fragmentEnd rings store mismatches].
    rewrite length_app, !map_set_shift, <- app_assoc. reflexivity.
Qed.

Lemma check_sizes_shift h st : check_sizes (shift_state h st) = shift_state h (check_sizes st).
Proof.
  unfold check_sizes. cbn [shift_state fragmentStart fragmentEnd rings store mismatches].
  rewrite !map_size_shift. destruct (_ =? _); reflexivity.
Qed.

Lemma stitch_step_shift h st s :
  stitch_step (shift_state h st) s = shift_state h (stitch_step st s).
Proof. unfold stitch_step. rewrite stitch_segment_shift, check_sizes_shift. reflexivity. Qed.

Lemma stitch_shift h segments :
  stitch h segments = shift_state h (stitch [] segments).
Proof.
  unfold stitch.
  assert (H : forall st, fold_left stitch_step segments (shift_state h st) =
                         shift_state h (fold_left stitch_step segments st)).
  { induction segments as [|s segments IH]; intros st; cbn [fold_left]; [reflexivity|].
    rewrite stitch_step_shift. apply IH. }
  rewrite <- H. f_equal. unfold stitch_init, shift_state. cbn.
  rewrite app_nil_r. reflexivity.
Qed.

Lemma stitched_lines_shift h st : stitched_lines (shift_state h st) = stitched_lines st.
Proof.
  unfold stitched_lines, map_values, shift_state, shift_map.
  cbn [fragmentStart rings store].
  rewrite !map_app, !map_map. f_equal; apply map_ext; intros; cbn; apply deref_shift.
Qed.

(** [contour] neither reads nor changes the arrays it finds on the heap: it
    returns what it returns on an empty heap, and leaves its own arrays
    after the ones that were there. *)
Lemma contour_heap this level opts fuel h :
  contour this level opts fuel h =
  (fst (contour this level opts fuel []), h ++ snd (contour this level opts fuel [])).
Proof.
  unfold contour. destruct (contour_segments this level opts fuel) as [segments|e|]; cbn [fst snd].
  - rewrite (stitch_shift h), stitched_lines_shift. reflexivity.
  - rewrite app_nil_r. reflexivity.
  - rewrite app_nil_r. reflexivity.
Qed.

(** Reading the pyramid follows references into the heap that was there:
    what is allocated after it does not change what is read. *)
Lemma load_numbers_app h h' r a :
  load_numbers h r = Some a -> load_numbers (h ++ h') r = Some a.
Proof.
  unfold load_numbers. destruct (h !! r) as [o|] eqn:E; [|discriminate].
  rewrite (lookup_app_l_Some _ _ _ _ E). trivial.
Qed.

Lemma load_level_app h h' r l :
  load_level h r = Some l -> load_level (h ++ h') r = Some l.
Proof.
  unfold load_level. destruct (h !! r) as [o|] eqn:E; [|discriminate].
  rewrite (lookup_app_l_Some _ _ _ _ E). destruct o; try discriminate.
  destruct (load_numbers h min_ref) as [a|] eqn:Ea; [|discriminate].
  destruct (load_numbers h max_ref) as [b|] eqn:Eb; [|discriminate].
  rewrite (load_numbers_app _ h' _ _ Ea), (load_numbers_app _ h' _ _ Eb). trivial.
Qed.

Lemma load_levels_app h h' refs ls :
  load_levels h refs = Some ls -> load_levels (h ++ h') refs = Some ls.
Proof.
  revert ls. induction refs as [|r refs IH]; intros ls; cbn [load_levels]; [trivial|].
  destruct (load_level h r) as [l|] eqn:El; [|discriminate].
  destruct (load_levels h refs) as [ls'|] eqn:Els; [|discriminate].
  rewrite (load_level_app _ h' _ _ El), (IH _ eq_refl). trivial.
Qed.

Lemma load_mipmap_app h h' this cm :
  load_mipmap h this = Some cm -> load_mipmap (h ++ h') this = Some cm.
Proof.
  unfold load_mipmap. destruct (h !! this) as [o|] eqn:E; [|discriminate].
  rewrite (lookup_app_l_Some _ _ _ _ E). destruct o; try discriminate.
  destruct (h !! levels_ref) as [o|] eqn:E'; [|discriminate].
  rewrite (lookup_app_l_Some _ _ _ _ E'). destruct o; try discriminate.
  destruct (load_levels h level_refs) as [ls|] eqn:Els; [|discriminate].
  rewrite (load_levels_app _ h' _ _ Els). trivial.
Qed.

Lemma contour_call_heap s this level opts fuel :
  load_mipmap (objects s) (this_ref s) = Some this ->
  contour_call s level opts fuel =
  (fst (contour this level opts fuel []),
   {| this_ref := this_ref s;
      objects := objects s ++ snd (contour this level opts fuel []) |}).
Proof.
  intros Hload. unfold contour_call. rewrite Hload.
  rewrite (contour_heap this level opts fuel (objects s)). reflexivity.
Qed.

(** C10. Two calls of [contour] with the same threshold and options on a
    [ContourMipmap] held in the heap, the second in the state the first
    leaves, return the same lines, which are the lines of that pyramid
    whatever else the heap holds.  Neither call changes an object that was
    in the heap before it: every write of the stitcher goes through a
    reference to an array allocated in the same call.  So the pyramid read
    back from the heap after each call (min, max, width, height and scale
    of every level) is the pyramid that was there before. *)
Theorem contour_deterministic_and_pure (s : js_state) this level opts fuel :
  load_mipmap (objects s) (this_ref s) = Some this ->
  let r1 := contour_call s level opts fuel in
  let r2 := contour_call (snd r1) level opts fuel in
  fst r1 = fst r2 /\
  fst r1 = fst (contour this level opts fuel []) /\
  load_mipmap (objects (snd r1)) (this_ref (snd r1)) = Some this /\
  load_mipmap (objects (snd r2)) (this_ref (snd r2)) = Some this /\
  (forall r, r < length (objects s) ->
     objects (snd r1) !! r = objects s !! r /\ objects (snd r2) !! r = objects s !! r).
Proof.
  intros Hload. cbn zeta.
  rewrite (contour_call_heap s this level opts fuel Hload).
  cbn [fst snd this_ref objects].
  set (new := snd (contour this level opts fuel [])).
  pose proof (load_mipmap_app _ new _ _ Hload) as Hload1.
  rewrite (contour_call_heap {| this_ref := this_ref s; objects := objects s ++ new |}
             this level opts fuel Hload1).
  cbn [fst snd this_ref objects]. fold new.
  split; [reflexivity|]. split; [reflexivity|]. split; [exact Hload1|]. split.
  - apply load_mipmap_app, Hload1.
  - intros r Hr. split.
    + apply lookup_app_l. exact Hr.
    + rewrite <- app_assoc. apply lookup_app_l. exact Hr.
Qed.

(** On the heap that holds the pyramid of the 2 by 2 raster, at threshold 3
    and with a kernel one point wide: the call returns one line, and
    allocates the arrays of its fragments after the eight objects that were
    there. *)
Lemma contour_deterministic_and_pure_witness :
  let s := {| this_ref := 6; objects := heap_2x2 |} in
  let opts := {| maxMipmapLevel := None; smoothKernelWidth := 1;
                 smoothCycles := 2; minPoints := 0 |} in
  let r1 := contour_call s 3 opts 2 in
  let r2 := contour_call (snd r1) 3 opts 2 in
  load_mipmap (objects s) (this_ref s) = Some (new_ContourMipmap raster_2x2 2 2) /\
  fst r1 = fst r2 /\
  fst r1 = fst (contour (new_ContourMipmap raster_2x2 2 2) 3 opts 2 []) /\
  load_mipmap (objects (snd r1)) (this_ref (snd r1)) =
    Some (new_ContourMipmap raster_2x2 2 2) /\
  load_mipmap (objects (snd r2)) (this_ref (snd r2)) =
    Some (new_ContourMipmap raster_2x2 2 2) /\
  (forall r, r < length (objects s) ->
     objects (snd r1) !! r = objects s !! r /\ objects (snd r2) !! r = objects s !! r).
Proof.
  cbn zeta. split; [reflexivity|].
  apply (contour_deterministic_and_pure {| this_ref := 6; objects := heap_2x2 |}
           (new_ContourMipmap raster_2x2 2 2) 3
           {| maxMipmapLevel := None; smoothKernelWidth := 1;
              smoothCycles := 2; minPoints := 0 |} 2).
  reflexivity.
Defined.

(** * Rings closed by the stitcher *)

Lemma key_inj p q : in_range p -> in_range q -> key p = key q -> p = q.
Proof.
  destruct p as [px py], q as [qx qy]. unfold in_range, key. cbn [fst snd].
  intros ? ? H. f_equal; lia.
Qed.

Lemma map_get_set k k0 v m :
  map_get k (map_set k0 v m) = if (k0 =? k)%Z then Some v else map_get k m.
Proof.
  induction m as [|[k' v'] m IH]; cbn [map_set map_get].
  - destruct (Z.eqb_spec k0 k); reflexivity.
  - destruct (Z.eqb_spec k' k0) as [->|Hne]; cbn [map_get].
    + destruct (Z.eqb_spec k0 k); reflexivity.
    + rewrite IH. destruct (Z.eqb_spec k' k), (Z.eqb_spec k0 k); try reflexivity. lia.
Qed.

Lemma map_get_delete k k0 m :
  map_get k (map_delete k0 m) = if (k0 =? k)%Z then None else map_get k m.
Proof.
  unfold map_delete. induction m as [|[k' v'] m IH]; cbn [List.filter map_get fst].
  - destruct (k0 =? k)%Z; reflexivity.
  - destruct (Z.eqb_spec k' k0) as [->|Hne]; cbn [negb map_get].
    + rewrite IH. destruct (Z.eqb_spec k0 k); reflexivity.
    + rewrite IH. destruct (Z.eqb_spec k' k), (Z.eqb_spec k0 k); try reflexivity. lia.
Qed.

Lemma deref_ge (h : heap) r : length h <= r -> deref h r = [].
Proof. intros H. unfold deref. rewrite lookup_ge_None_2 by exact H. reflexivity. Qed.

Lemma deref_insert (h : heap) a v r :
  a < length h -> deref (<[a := Points v]> h) r = if decide (r = a) then v else deref h r.
Proof.
  intros Ha. unfold deref. destruct (decide (r = a)) as [->|Hne].
  - rewrite list_lookup_insert_eq by exact Ha. reflexivity.
  - rewrite list_lookup_insert_ne by congruence. reflexivity.
Qed.

Lemma deref_alloc (h : heap) v r :
  deref (h ++ [Points v]) r = if decide (r = length h) then v else deref h r.
Proof.
  unfold deref. destruct (decide (r = length h)) as [->|Hne].
  - rewrite lookup_app_r, Nat.sub_diag by lia. reflexivity.
  - destruct (Nat.lt_ge_cases r (length h)).
    + rewrite lookup_app_l by assumption. reflexivity.
    + rewrite !lookup_ge_None_2; [reflexivity|lia|rewrite length_app; cbn; lia].
Qed.

Lemma first_point_app c d : c <> [] -> first_point (c ++ d) = first_point c.
Proof. destruct c; [congruence|reflexivity]. Qed.

Lemma last_point_app c d : d <> [] -> last_point (c ++ d) = last_point d.
Proof.
  intros Hd. unfold last_point. induction c as [|x c IH]; [reflexivity|].
  cbn [app]. destruct (c ++ d) eqn:E.
  - destruct c; [cbn in E; congruence|discriminate].
  - exact IH.
Qed.

Lemma last_point_cons p c : c <> [] -> last_point (p :: c) = last_point c.
Proof. intros Hc. apply (last_point_app [p] c Hc). Qed.

Lemma check_sizes_fields st :
  fragmentStart (check_sizes st) = fragmentStart st /\
  fragmentEnd (check_sizes st) = fragmentEnd st /\
  rings (check_sizes st) = rings st /\
  store (check_sizes st) = store st.
Proof. unfold check_sizes. destruct (_ =? _); repeat split; reflexivity. Qed.

Lemma check_sizes_inv st : stitch_inv st -> stitch_inv (check_sizes st).
Proof.
  destruct (check_sizes_fields st) as (E1 & E2 & E3 & E4).
  intros [H1 H2 H3 H4]. split; rewrite ?E1, ?E2, ?E3, ?E4; assumption.
Qed.

Ltac eqb_cases :=
  repeat match goal with
         | H : context [(?a =? ?b)%Z] |- _ => destruct (Z.eqb_spec a b); try discriminate
         | H : context [decide (?a = ?b)] |- _ => destruct (decide (a = b)); try subst
         | |- context [decide (?a = ?b)] => destruct (decide (a = b)); try subst
         end.

Lemma stitch_segment_inv st s :
  stitch_inv st -> segment_in_range s -> stitch_inv (stitch_segment st s).
Proof.
  intros [Hfirst Hlast Hrings Hrange] [Hs He]. unfold stitch_segment.
  destruct (map_get (key (start s)) (fragmentEnd st)) as [a|] eqn:Ea;
    destruct (map_get (key (end_ s)) (fragmentStart st)) as [b|] eqn:Eb.
  - destruct (Hlast _ _ Ea) as (Va & Na & Ka). destruct (Hfirst _ _ Eb) as (Vb & Nb & Kb).
    destruct (Nat.eqb_spec a b) as [->|Hab].
    + (* Close a ring *)
      split; cbn [fragmentStart fragmentEnd rings store]; unfold array_push.
      * intros k r Hk. rewrite map_get_delete in Hk.
        destruct (Z.eqb_spec (key (end_ s)) k); [discriminate|].
        destruct (Hfirst _ _ Hk) as (V & N & K).
        rewrite length_insert, deref_insert by assumption.
        destruct (decide (r = b)) as [->|]; [congruence|auto].
      * intros k r Hk. rewrite map_get_delete in Hk.
        destruct (Z.eqb_spec (key (start s)) k); [discriminate|].
        destruct (Hlast _ _ Hk) as (V & N & K).
        rewrite length_insert, deref_insert by assumption.
        destruct (decide (r = b)) as [->|]; [congruence|auto].
      * intros r Hr. rewrite length_insert, deref_insert by assumption.
        apply in_app_or in Hr. destruct Hr as [Hr|[<-|[]]].
        -- destruct (Hrings r Hr) as (V & NS & NE & C).
           destruct (decide (r = b)) as [->|]; [destruct (NE _ Ea)|].
           split; [assumption|]. split; [|split; [|assumption]];
             intros k Hk; rewrite map_get_delete in Hk;
             destruct (_ =? _)%Z; try discriminate;
             first [apply (NS k Hk)|apply (NE k Hk)].
        -- destruct (decide (b = b)); [|congruence].
           repeat split; try assumption.
           ++ intros k Hk. rewrite map_get_delete in Hk.
              destruct (Z.eqb_spec (key (end_ s)) k); [discriminate|].
              destruct (Hfirst _ _ Hk) as (_ & _ & K). congruence.
           ++ intros k Hk. rewrite map_get_delete in Hk.
              destruct (Z.eqb_spec (key (start s)) k); [discriminate|].
              destruct (Hlast _ _ Hk) as (_ & _ & K). congruence.
           ++ intros E. apply app_eq_nil in E. destruct E; discriminate.
           ++ rewrite first_point_app by assumption.
              rewrite last_point_app by discriminate. cbn.
              apply key_inj; [|exact He|exact Kb].
              apply (Hrange b). destruct (deref (store st) b); [congruence|left; reflexivity].
      * intros r p. rewrite deref_insert by assumption.
        destruct (decide (r = b)) as [->|]; [|apply Hrange].
        intros Hp. apply in_app_or in Hp. destruct Hp as [Hp|[<-|[]]]; [|exact He].
        apply (Hrange b), Hp.
    + (* Join two lines together *)
      assert (Ncv : deref (store st) a ++ deref (store st) b <> []).
      { intros E. apply app_eq_nil in E. tauto. }
      split; cbn [fragmentStart fragmentEnd rings store].
      * intros k r Hk. rewrite length_app, deref_alloc. cbn [length].
        rewrite map_get_set, map_get_delete in Hk.
        destruct (Z.eqb_spec (key (first_point (deref (store st) a ++ deref (store st) b))) k).
        -- injection Hk as <-. destruct (decide _); [|congruence].
           repeat split; [lia|assumption|assumption].
        -- destruct (Z.eqb_spec (key (end_ s)) k); [discriminate|].
           destruct (Hfirst _ _ Hk) as (V & N & K).
           destruct (decide _); [lia|]. repeat split; [lia|assumption|assumption].
      * intros k r Hk. rewrite length_app, deref_alloc. cbn [length].
        rewrite map_get_set, map_get_delete in Hk.
        destruct (Z.eqb_spec (key (last_point (deref (store st) a ++ deref (store st) b))) k).
        -- injection Hk as <-. destruct (decide _); [|congruence].
           repeat split; [lia|assumption|assumption].
        -- destruct (Z.eqb_spec (key (start s)) k); [discriminate|].
           destruct (Hlast _ _ Hk) as (V & N & K).
           destruct (decide _); [lia|]. repeat split; [lia|assumption|assumption].
      * intros r Hr. destruct (Hrings r Hr) as (V & NS & NE & C).
        rewrite length_app, deref_alloc. cbn [length].
        destruct (decide _); [lia|].
        split; [lia|]. split; [|split; [|assumption]];
          intros k Hk; rewrite map_get_set, map_get_delete in Hk;
          repeat (destruct (_ =? _)%Z; try discriminate);
          try (injection Hk as <-; lia);
          first [apply (NS k Hk)|apply (NE k Hk)].
      * intros r p. rewrite deref_alloc. destruct (decide _); [|apply Hrange].
        intros Hp. apply in_app_or in Hp. destruct Hp; eapply Hrange; eauto.
  - (* Extend an existing line from the end *)
    destruct (Hlast _ _ Ea) as (Va & Na & Ka).
    split; cbn [fragmentStart fragmentEnd rings store]; unfold array_push.
    + intros k r Hk. destruct (Hfirst _ _ Hk) as (V & N & K).
      rewrite length_insert, deref_insert by assumption.
      destruct (decide (r = a)) as [->|]; [|auto].
      repeat split; [assumption| |rewrite first_point_app by assumption; exact K].
      intros E. apply app_eq_nil in E. destruct E; discriminate.
    + intros k r Hk. rewrite map_get_set, map_get_delete in Hk.
      rewrite length_insert, deref_insert by assumption.
      destruct (Z.eqb_spec (key (end_ s)) k).
      * injection Hk as <-. destruct (decide _); [|congruence].
        repeat split; [assumption| |rewrite last_point_app by discriminate; assumption].
        intros E. apply app_eq_nil in E. destruct E; discriminate.
      * destruct (Z.eqb_spec (key (start s)) k); [discriminate|].
        destruct (Hlast _ _ Hk) as (V & N & K).
        destruct (decide (r = a)) as [->|]; [congruence|auto].
    + intros r Hr. destruct (Hrings r Hr) as (V & NS & NE & C).
      rewrite length_insert, deref_insert by assumption.
      destruct (decide (r = a)) as [->|]; [destruct (NE _ Ea)|].
      split; [assumption|]. split; [assumption|]. split; [|assumption]. intros k Hk.
      rewrite map_get_set, map_get_delete in Hk.
      destruct (Z.eqb_spec (key (end_ s)) k); [congruence|].
      destruct (_ =? _)%Z; [discriminate|apply (NE k Hk)].
    + intros r p. rewrite deref_insert by assumption.
      destruct (decide (r = a)) as [->|]; [|apply Hrange].
      intros Hp. apply in_app_or in Hp. destruct Hp as [Hp|[<-|[]]]; [|exact He].
      apply (Hrange a), Hp.
  - (* Extend an existing line from the start *)
    destruct (Hfirst _ _ Eb) as (Vb & Nb & Kb).
    split; cbn [fragmentStart fragmentEnd rings store]; unfold array_unshift.
    + intros k r Hk. rewrite map_get_set, map_get_delete in Hk.
      rewrite length_insert, deref_insert by assumption.
      destruct (Z.eqb_spec (key (start s)) k).
      * injection Hk as <-. destruct (decide _); [|congruence].
        repeat split; [assumption|discriminate|assumption].
      * destruct (Z.eqb_spec (key (end_ s)) k); [discriminate|].
        destruct (Hfirst _ _ Hk) as (V & N & K).
        destruct (decide (r = b)) as [->|]; [congruence|auto].
    + intros k r Hk. destruct (Hlast _ _ Hk) as (V & N & K).
      rewrite length_insert, deref_insert by assumption.
      destruct (decide (r = b)) as [->|]; [|auto].
      repeat split; [assumption|discriminate|rewrite last_point_cons by assumption; exact K].
    + intros r Hr. destruct (Hrings r Hr) as (V & NS & NE & C).
      rewrite length_insert, deref_insert by assumption.
      destruct (decide (r = b)) as [->|]; [destruct (NS _ Eb)|].
      split; [assumption|]. split; [|split; assumption]. intros k Hk.
      rewrite map_get_set, map_get_delete in Hk.
      destruct (Z.eqb_spec (key (start s)) k); [congruence|].
      destruct (_ =? _)%Z; [discriminate|apply (NS k Hk)].
    + intros r p. rewrite deref_insert by assumption.
      destruct (decide (r = b)) as [->|]; [|apply Hrange].
      intros [<-|Hp]; [exact Hs|]. apply (Hrange b), Hp.
  - (* New line doesn't connect to any existing line *)
    split; cbn [fragmentStart fragmentEnd rings store].
    + intros k r Hk. rewrite length_app, deref_alloc. cbn [length].
      rewrite map_get_set in Hk.
      destruct (Z.eqb_spec (key (start s)) k).
      * injection Hk as <-. destruct (decide _); [|congruence].
        repeat split; [lia|discriminate|assumption].
      * destruct (Hfirst _ _ Hk) as (V & N & K).
        destruct (decide _); [lia|]. repeat split; [lia|assumption|assumption].
    + intros k r Hk. rewrite length_app, deref_alloc. cbn [length].
      rewrite map_get_set in Hk.
      destruct (Z.eqb_spec (key (end_ s)) k).
      * injection Hk as <-. destruct (decide _); [|congruence].
        repeat split; [lia|discriminate|assumption].
      * destruct (Hlast _ _ Hk) as (V & N & K).
        destruct (decide _); [lia|]. repeat split; [lia|assumption|assumption].
    + intros r Hr. destruct (Hrings r Hr) as (V & NS & NE & C).
      rewrite length_app, deref_alloc. cbn [length].
      destruct (decide _); [lia|].
      split; [lia|]. split; [|split; [|assumption]];
        intros k Hk; rewrite map_get_set in Hk;
        repeat (destruct (_ =? _)%Z; try discriminate);
        try (injection Hk as <-; lia);
        first [apply (NS k Hk)|apply (NE k Hk)].
    + intros r p. rewrite deref_alloc. destruct (decide _); [|apply Hrange].
      intros [<-|[<-|[]]]; assumption.
Qed.

Lemma stitch_inv_init : stitch_inv (stitch_init []).
Proof.
  split; cbn; try discriminate; try tauto.
  intros r p. unfold deref. rewrite lookup_nil. cbn. tauto.
Qed.

Lemma stitch_inv_all segments :
  Forall segment_in_range segments -> stitch_inv (stitch [] segments).
Proof.
  unfold stitch. generalize (stitch_init []) stitch_inv_init.
  induction segments as [|s segments IH]; intros st Hst Hall; cbn [fold_left]; [exact Hst|].
  inversion Hall; subst. apply IH; [|assumption].
  apply check_sizes_inv, stitch_segment_inv; assumption.
Qed.

(** Whatever is on the heap, the arrays in [rings] are closed. *)
Lemma stitch_rings_closed h segments r :
  Forall segment_in_range segments ->
  In r (rings (stitch h segments)) ->
  closed (deref (store (stitch h segments)) r).
Proof.
  intros Hall Hr. rewrite stitch_shift in *. cbn [shift_state rings store] in *.
  apply in_map_iff in Hr. destruct Hr as (r0 & <- & Hr0).
  rewrite deref_shift. apply (inv_rings _ (stitch_inv_all segments Hall) r0 Hr0).
Qed.

(** * Segments of a raster that fits the key base *)

Lemma insert_segment_Forall (P : segment -> Prop) s l :
  P s -> Forall P l -> Forall P (insert_segment s l).
Proof.
  intros Hs Hl. induction Hl as [|t l Ht Hl IH]; cbn.
  - repeat constructor. exact Hs.
  - destruct (_ <? _)%Z; repeat constructor; assumption.
Qed.

Lemma sort_segments_Forall (P : segment -> Prop) l :
  Forall P l -> Forall P (sort_segments l).
Proof.
  unfold sort_segments. intros Hl.
  assert (Hacc : Forall P (@nil segment)) by constructor.
  revert Hacc. generalize (@nil segment) as acc.
  induction Hl as [|s l Hs Hl IH]; intros acc Hacc; cbn; [exact Hacc|].
  apply IH, insert_segment_Forall; assumption.
Qed.

Lemma unshift_levels_Forall (P : MipmapLevel -> Prop) fuel lv :
  (forall L, P L -> 1 < width L \/ 1 < height L -> P (mipmapReduce L)) ->
  Forall P lv -> Forall P (unshift_levels fuel lv).
Proof.
  intros Hstep. revert lv. induction fuel as [|fuel IH]; intros lv Hlv;
    cbn [unshift_levels]; [exact Hlv|].
  destruct lv as [|top rest]; [exact Hlv|].
  destruct ((1 <? width top) || (1 <? height top)) eqn:Hc; [|exact Hlv].
  apply IH. constructor; [|exact Hlv]. apply Hstep; [apply (Forall_inv Hlv)|].
  apply orb_true_iff in Hc. destruct Hc as [Hc|Hc]; apply Nat.ltb_lt in Hc; lia.
Qed.

Lemma ceil_half_pow n j d :
  S j <= n -> d <= 2 ^ (n - j) -> ceil_half d <= 2 ^ (n - S j).
Proof.
  intros Hj Hd. replace (n - j) with (S (n - S j)) in Hd by lia.
  rewrite Nat.pow_succ_r' in Hd. unfold ceil_half. halves d. lia.
Qed.

Lemma level_fits_reduce n L :
  level_fits n L -> 1 < width L \/ 1 < height L -> level_fits n (mipmapReduce L).
Proof.
  intros (j & Hj & Hs & Hw & Hh) Hbig.
  assert (Hlt : S j <= n).
  { destruct (Nat.eq_dec j n) as [->|]; [|lia].
    rewrite Nat.sub_diag in Hw, Hh. cbn in Hw, Hh. lia. }
  exists (S j). cbn [mipmapReduce scale width height].
  split; [exact Hlt|]. split; [rewrite Nat.pow_succ_r', Hs; lia|].
  split; apply ceil_half_pow; assumption.
Qed.

Lemma pyramid_levels_fit n raster w h :
  w <= 2 ^ n -> h <= 2 ^ n ->
  Forall (level_fits n) (levels (new_ContourMipmap raster w h)).
Proof.
  intros Hw Hh. apply unshift_levels_Forall; [apply level_fits_reduce|].
  repeat constructor. exists 0. cbn [scale width height].
  rewrite Nat.sub_0_r. repeat split; [lia|assumption|assumption].
Qed.

Lemma level_fits_extent n L :
  level_fits n L -> scale L * width L <= 2 ^ n /\ scale L * height L <= 2 ^ n.
Proof.
  intros (j & Hj & Hs & Hw & Hh).
  assert (Hp : 2 ^ n = 2 ^ j * 2 ^ (n - j)).
  { rewrite <- Nat.pow_add_r. f_equal. lia. }
  rewrite Hp, Hs. split; apply Nat.mul_le_mono_l; assumption.
Qed.

(** ** The walk only draws between cells of the raster *)

Lemma evaluate_in_bounds this t cap l x y e :
  evaluate this t cap l x y = Ok e -> e = ABOVE \/ e = BELOW \/ e = WITHIN ->
  exists ml, levels this !! l = Some ml /\ x < width ml /\ y < height ml.
Proof.
  unfold evaluate. intros He Hcls. destruct (levels this !! l) as [ml|]; [|discriminate].
  exists ml. split; [reflexivity|].
  destruct (Nat.leb_spec (width ml) x); cbn [orb] in He;
    [injection He as <-; destruct Hcls as [|[|]]; discriminate|].
  destruct (Nat.leb_spec (height ml) y); cbn [orb] in He;
    [injection He as <-; destruct Hcls as [|[|]]; discriminate|].
  lia.
Qed.

Lemma visit_list_Forall (P : event -> Prop) visit1 cs evs :
  (forall c evs, visit1 c = Ok evs -> Forall P evs) ->
  visit_list visit1 cs = Ok evs -> Forall P evs.
Proof.
  intros Hv. revert evs. induction cs as [|c cs IH]; intros evs H; cbn in H.
  - injection H as <-. constructor.
  - destruct (visit1 c) as [e1| |] eqn:H1; try discriminate. cbn in H.
    destruct (visit_list visit1 cs) as [e2| |] eqn:H2; try discriminate. cbn in H.
    injection H as <-. apply Forall_app. split; [eapply Hv; eassumption|apply IH; reflexivity].
Qed.

Ltac eval_bounds H :=
  let ml := fresh "ml" in
  let Hl := fresh "Hl" in
  let Hx := fresh "Hx" in
  let Hy := fresh "Hy" in
  destruct (evaluate_in_bounds _ _ _ _ _ _ _ H) as (ml & Hl & Hx & Hy);
  [auto|].

Lemma visit_lines_ok this t cap addNode fuel c evs :
  visit this t cap addNode fuel c = Ok evs -> Forall (line_ok this) evs.
Proof.
  revert c evs. induction fuel as [|fuel IH]; intros c evs H; [discriminate|].
  cbn [visit] in H.
  pose proof (fun cs evs => visit_list_Forall (line_ok this) _ cs evs IH) as Hrec.
  destruct c as [l x y|l x y|l x y].
  - destruct (evaluate this t cap l x y) as [e| |]; try discriminate. cbn [obind] in H.
    destruct (classification_eqb e WITHIN); [eapply Hrec; eassumption|].
    injection H as <-. destruct addNode; repeat constructor.
  - destruct (evaluate this t cap l x y) as [e1| |] eqn:H1; try discriminate. cbn [obind] in H.
    destruct (evaluate this t cap l (x + 1) y) as [e2| |] eqn:H2; try discriminate. cbn [obind] in H.
    destruct e1, e2; cbn [classification_eqb andb orb] in H; try (eapply Hrec; eassumption);
      try (injection H as <-; constructor; fail);
      injection H as <-; eval_bounds H1; eval_bounds H2;
      repeat constructor; exists ml; repeat split; try assumption;
      assert (ml0 = ml) by congruence; subst; lia.
  - destruct (evaluate this t cap l x y) as [e1| |] eqn:H1; try discriminate. cbn [obind] in H.
    destruct (evaluate this t cap l x (y + 1)) as [e2| |] eqn:H2; try discriminate. cbn [obind] in H.
    destruct e1, e2; cbn [classification_eqb andb orb] in H; try (eapply Hrec; eassumption);
      try (injection H as <-; constructor; fail);
      injection H as <-; eval_bounds H1; eval_bounds H2;
      repeat constructor; exists ml; repeat split; try assumption;
      assert (ml0 = ml) by congruence; subst; lia.
Qed.

Lemma collect_segments_in_range this evs segs :
  (forall l ml, levels this !! l = Some ml ->
                (Z.of_nat (scale ml * width ml) < 65536 /\
                 Z.of_nat (scale ml * height ml) < 65536)%Z) ->
  Forall (line_ok this) evs ->
  collect_segments this evs = Ok segs -> Forall segment_in_range segs.
Proof.
  intros Hfit Hevs. revert segs.
  induction Hevs as [|ev evs Hev Hevs IH]; intros segs H; cbn in H.
  - injection H as <-. constructor.
  - destruct ev as [l x1 y1 x2 y2|l x y e]; [|apply IH, H].
    destruct Hev as (ml & Hl & Hx1 & Hx2 & Hy1 & Hy2). rewrite Hl in H.
    destruct (collect_segments this evs) as [segs'| |]; try discriminate. cbn in H.
    injection H as <-. constructor; [|apply IH; reflexivity].
    destruct (Hfit l ml Hl) as [Hw Hh].
    unfold segment_in_range, in_range. cbn. nia.
Qed.

Lemma pyramid_extent raster w h l ml :
  (Z.of_nat (Nat.max w h) <= 2 ^ 15)%Z ->
  levels (new_ContourMipmap raster w h) !! l = Some ml ->
  (Z.of_nat (scale ml * width ml) < 65536 /\
   Z.of_nat (scale ml * height ml) < 65536)%Z.
Proof.
  intros Hmax Hl.
  assert (Hp : Z.of_nat (2 ^ 15) = (2 ^ 15)%Z).
  { rewrite Nat2Z.inj_pow. reflexivity. }
  assert (Hq : Z.of_nat (2 ^ 15) = 32768%Z) by (rewrite Hp; reflexivity).
  assert (Hw : w <= 2 ^ 15) by lia.
  assert (Hh : h <= 2 ^ 15) by lia.
  pose proof (pyramid_levels_fit 15 raster w h Hw Hh) as Hall.
  rewrite Forall_lookup in Hall.
  apply Hall, level_fits_extent in Hl. lia.
Qed.

Lemma contour_segments_in_range raster w h level opts fuel segs :
  (Z.of_nat (Nat.max w h) <= 2 ^ 15)%Z ->
  contour_segments (new_ContourMipmap raster w h) level opts fuel = Ok segs ->
  Forall segment_in_range segs.
Proof.
  intros Hmax. unfold contour_segments, evaluateContour. intros H.
  destruct (visit _ _ _ _ _ _) as [evs| |] eqn:Hv; try discriminate. cbn in H.
  destruct (collect_segments _ evs) as [raw| |] eqn:Hc; try discriminate. cbn in H.
  injection H as <-. apply sort_segments_Forall.
  eapply collect_segments_in_range; [|eapply visit_lines_ok; exact Hv|exact Hc].
  intros l ml. apply pyramid_extent. exact Hmax.
Qed.

(** * Smoothing keeps a ring closed *)

Lemma line_at_some line i :
  (0 <= i < Z.of_nat (length line))%Z -> exists q, line_at line i = Some q.
Proof.
  intros Hi. unfold line_at. destruct (Z.leb_spec 0 i); [|lia].
  destruct (lookup_lt_is_Some_2 line (Z.to_nat i)) as [q Hq]; [lia|].
  exists q. exact Hq.
Qed.

Lemma sum_points_some line from n p :
  (0 <= from)%Z -> (from + Z.of_nat n <= Z.of_nat (length line))%Z ->
  exists q, sum_points line from n p = Some q.
Proof.
  revert from p. induction n as [|n IH]; intros from p H0 Hn; cbn [sum_points].
  - exists p. reflexivity.
  - destruct (line_at_some line from) as [q ->]; [lia|]. cbn.
    apply IH; lia.
Qed.

Lemma pointAt_loop_some line i :
  line <> [] -> (- Z.of_nat (length line) <= i)%Z ->
  exists q, pointAt true line i = Some q.
Proof.
  intros Hne Hi. unfold pointAt. apply line_at_some.
  apply Z.rem_bound_pos; [lia|]. destruct line; [congruence|cbn; lia].
Qed.

Lemma slide_loop_some kw sc line n i res p :
  line <> [] -> (0 <= kw <= Z.of_nat (length line))%Z -> (0 <= i)%Z ->
  exists res', slide true kw sc line i n res p = Some res' /\ length res' = length res.
Proof.
  intros Hne Hkw. revert i res p. induction n as [|n IH]; intros i res p Hi; cbn [slide].
  - exists res. split; reflexivity.
  - destruct (pointAt_loop_some line (i + kw) Hne) as [a ->]; [lia|].
    destruct (pointAt_loop_some line (i - kw) Hne) as [b ->]; [lia|]. cbn.
    destruct (IH (i + 1)%Z
                (<[Z.to_nat i := ((fst p * sc)%float, (snd p * sc)%float)]> res)
                ((fst p + (fst a - fst b))%float, (snd p + (snd a - snd b))%float))
      as (res' & -> & Hlen); [lia|].
    exists res'. split; [reflexivity|]. rewrite Hlen. apply length_insert.
Qed.

Lemma reclose_fclosed (res : list fpoint) r0 :
  res !! 0 = Some r0 -> fclosed (<[length res - 1 := r0]> res).
Proof.
  intros H0. assert (Hlen : 0 < length res) by (eapply lookup_lt_Some; exact H0).
  split.
  - intros Hnil. apply (f_equal length) in Hnil. rewrite length_insert in Hnil.
    cbn in Hnil. lia.
  - rewrite head_lookup, last_lookup, length_insert.
    replace (Init.Nat.pred (length res)) with (length res - 1) by lia.
    rewrite (list_lookup_insert_eq res (length res - 1) r0) by lia.
    destruct (Nat.eq_dec (length res - 1) 0) as [E|E].
    + rewrite E. apply list_lookup_insert_eq. lia.
    + rewrite list_lookup_insert_ne by exact E. exact H0.
Qed.

Lemma smooth_cycle_loop kernelWidth sc line :
  line <> [] -> kernelWidth <= length line ->
  exists res, smooth_cycle true kernelWidth sc line = Some res /\
              length res = length line /\ fclosed res.
Proof.
  intros Hne Hkw. unfold smooth_cycle.
  destruct (sum_points_some line (Z.of_nat (length line) - Z.of_nat kernelWidth)
              kernelWidth (PrimFloat.zero, PrimFloat.zero)) as [p0 ->]; [lia|lia|].
  cbn [mbind option_bind].
  destruct (sum_points_some line 0 kernelWidth p0) as [p1 ->]; [lia|lia|].
  cbn [mbind option_bind].
  destruct (slide_loop_some (Z.of_nat kernelWidth) sc line (length line) 0 line p1)
    as (res & -> & Hlen); [exact Hne|lia|lia|].
  cbn [mbind option_bind].
  destruct (lookup_lt_is_Some_2 res 0) as [r0 Hr0].
  { rewrite Hlen. destruct line; [congruence|cbn; lia]. }
  rewrite Hr0. cbn [mbind option_bind].
  eexists. split; [reflexivity|]. split; [rewrite length_insert; exact Hlen|].
  apply reclose_fclosed, Hr0.
Qed.

Lemma smooth_cycles_loop kernelWidth sc cycles line :
  fclosed line -> kernelWidth <= length line ->
  exists res, smooth_cycles true kernelWidth sc cycles line = Some res /\
              length res = length line /\ fclosed res.
Proof.
  revert line. induction cycles as [|cycles IH]; intros line Hcl Hkw; cbn [smooth_cycles].
  - exists line. repeat split; [apply Hcl|apply Hcl].
  - destruct (smooth_cycle_loop kernelWidth sc line) as (r & -> & Hlen & Hr);
      [apply Hcl|exact Hkw|].
    cbn [mbind option_bind].
    destruct (IH r Hr) as (res & Hres & Hlen' & Hcl'); [lia|].
    exists res. repeat split; [exact Hres|lia|apply Hcl'|apply Hcl'].
Qed.

Lemma last_point_last (c : list point) : c <> [] -> last c = Some (last_point c).
Proof.
  unfold last_point. induction c as [|p c IH]; intros Hne; [congruence|].
  destruct c as [|q c]; [reflexivity|].
  change (last (p :: q :: c)) with (last (q :: c)).
  change (List.last (p :: q :: c) (0, 0)%Z) with (List.last (q :: c) (0, 0)%Z).
  apply IH. discriminate.
Qed.

Lemma closed_fclosed ring : closed ring -> fclosed (map to_fpoint ring).
Proof.
  intros [Hne Heq]. split; [destruct ring; [congruence|discriminate]|].
  change (map to_fpoint ring) with (to_fpoint <$> ring).
  rewrite fmap_last, (last_point_last ring Hne), <- Heq.
  destruct ring; [congruence|reflexivity].
Qed.

Lemma is_loop_fclosed line :
  fclosed line ->
  (forall p, head line = Some p ->
             PrimFloat.is_nan (fst p) = false /\ PrimFloat.is_nan (snd p) = false) ->
  is_loop line = Some true.
Proof.
  intros [Hne Heq] Hnum. unfold is_loop, line_at.
  destruct (Z.leb_spec 0 0); [|lia].
  destruct (Z.leb_spec 0 (Z.of_nat (length line) - 1));
    [|destruct line; [congruence|cbn in *; lia]].
  rewrite head_lookup in Heq, Hnum. rewrite last_lookup in Heq.
  change (Z.to_nat 0) with 0.
  replace (Z.to_nat (Z.of_nat (length line) - 1)) with (Init.Nat.pred (length line)) by lia.
  rewrite <- Heq. destruct (line !! 0) as [p|] eqn:Hp.
  - cbn. destruct (Hnum p eq_refl) as [Hx Hy].
    rewrite (eqb_refl_number _ Hx), (eqb_refl_number _ Hy). reflexivity.
  - apply lookup_ge_None in Hp. destruct line; [congruence|cbn in Hp; lia].
Qed.

Lemma smooth_ring ring kernelWidth cycles :
  closed ring -> kernelWidth <= length ring ->
  exists res, smooth (map to_fpoint ring) kernelWidth cycles = Some res /\
              length res = length ring /\ fclosed res.
Proof.
  intros Hcl Hkw. pose proof (closed_fclosed ring Hcl) as Hf. unfold smooth.
  rewrite (is_loop_fclosed _ Hf).
  - cbn [mbind option_bind].
    destruct (smooth_cycles_loop kernelWidth
                (1 / N2F (kernelWidth * 2))%float cycles (map to_fpoint ring) Hf)
      as (res & Hres & Hlen & Hcl'); [rewrite length_map; exact Hkw|].
    exists res. rewrite length_map in Hlen. repeat split; [exact Hres|exact Hlen|apply Hcl'|apply Hcl'].
  - intros p Hp. destruct ring as [|q ring]; [discriminate|].
    cbn in Hp. injection Hp as <-. cbn. split; apply Z2F_not_nan.
Qed.

(** * A raster wider than the key base *)

Lemma pow2_pos l : 0 < 2 ^ l.
Proof. induction l; cbn; lia. Qed.

Lemma ceil_half_pow2 l : ceil_half (2 ^ S l) = 2 ^ l.
Proof. rewrite Nat.pow_succ_r'. unfold ceil_half. pose proof (pow2_pos l). halves (2 * 2 ^ l). lia. Qed.

Lemma children_full L x y :
  x * 2 + 1 < width L -> y * 2 + 1 < height L ->
  children_in L x y = child_cells x y.
Proof.
  intros Hx Hy. unfold children_in, child_cells, in_level. cbn [List.filter fst snd].
  repeat (match goal with |- context [?a <? ?b] =>
            destruct (Nat.ltb_spec a b); [|lia] end; cbn [andb]).
  reflexivity.
Qed.

Lemma children_top L x y :
  x * 2 + 1 < width L -> y * 2 < height L -> height L <= y * 2 + 1 ->
  children_in L x y = [ (x * 2 + 0, y * 2 + 0); (x * 2 + 1, y * 2 + 0) ].
Proof.
  intros Hx Hy Hy'. unfold children_in, child_cells, in_level. cbn [List.filter fst snd].
  repeat (match goal with |- context [?a <? ?b] =>
            destruct (Nat.ltb_spec a b); try lia end; cbn [andb]).
  reflexivity.
Qed.

Lemma wide_raster_sample n x y :
  x < 2 ^ n -> y < 3 ->
  getf (wide_raster n) (2 ^ n * y + x) = wide_min n n x y.
Proof.
  intros Hx Hy. unfold wide_raster, wide_min. rewrite Nat.eqb_refl.
  apply getf_lookup.
  destruct y as [|[|[|y]]]; [| | |lia]; cbn [Nat.eqb orb andb].
  - rewrite lookup_app_l by (rewrite length_replicate; lia).
    apply lookup_replicate_2. lia.
  - rewrite lookup_app_r by (rewrite length_replicate; lia).
    rewrite length_replicate. replace (2 ^ n * 1 + x - 2 ^ n) with x by lia.
    rewrite lookup_app_l by (cbn; rewrite length_replicate; lia).
    destruct x as [|x]; [reflexivity|]. cbn. apply lookup_replicate_2. lia.
  - rewrite lookup_app_r by (rewrite length_replicate; lia).
    rewrite length_replicate.
    rewrite lookup_app_r by (cbn; rewrite length_replicate; lia).
    cbn [length]. rewrite length_replicate. apply lookup_replicate_2. lia.
Qed.

Lemma wide_levels_length n : 2 <= n -> length (levels (wide_pyramid n)) = n + 1.
Proof.
  intros Hn. pose proof (pow2_pos n).
  unfold wide_pyramid. rewrite pyramid_length by lia. f_equal.
  assert (H4 : 2 ^ 2 <= 2 ^ n) by (apply Nat.pow_le_mono_r; lia).
  rewrite Nat.max_l by (cbn in H4; lia). apply Nat.log2_up_pow2. lia.
Qed.

Lemma wide_base n :
  levels (wide_pyramid n) !! n = Some (base_level (wide_raster n) (2 ^ n) 3) \/ n < 2.
Proof.
  destruct (Nat.le_gt_cases 2 n) as [Hn|Hn]; [left|right; lia].
  destruct (pyramid_chain (wide_raster n) (2 ^ n) 3) as [_ Hl].
  rewrite last_lookup in Hl. fold (wide_pyramid n) in Hl.
  rewrite (wide_levels_length n Hn) in Hl.
  replace (Init.Nat.pred (n + 1)) with n in Hl by lia. exact Hl.
Qed.

Lemma wide_level_base n : wide_level n n (base_level (wide_raster n) (2 ^ n) 3).
Proof.
  unfold wide_level, wide_height. cbn [base_level width height]. rewrite Nat.eqb_refl.
  split; [reflexivity|]. split; [reflexivity|]. intros x y Hx Hy.
  unfold cell_min, cell_max, wide_max. cbn [base_level width min max].
  rewrite Nat.eqb_refl, (wide_raster_sample n x y Hx Hy).
  unfold wide_min. rewrite Nat.eqb_refl. split; reflexivity.
Qed.

Lemma wide_level_reduce n l L :
  S l <= n -> wide_level n (S l) L -> wide_level n l (mipmapReduce L).
Proof.
  intros Hl (Hw & Hh & Hc). unfold wide_level. cbn [mipmapReduce width height].
  rewrite Hw, Hh, ceil_half_pow2. split; [reflexivity|].
  assert (Hhl : ceil_half (wide_height n (S l)) = wide_height n l).
  { unfold wide_height.
    destruct (Nat.eqb_spec (S l) n); [destruct (Nat.eqb_spec l n); [lia|reflexivity]|].
    destruct (Nat.eqb_spec l n); [lia|].
    destruct (Nat.eqb_spec (S (S l)) n); reflexivity. }
  split; [exact Hhl|]. intros x y Hx Hy.
  destruct (mipmapReduce_cell L x y) as [Hmin Hmax];
    [rewrite Hw, ceil_half_pow2; exact Hx|rewrite Hh; exact Hy|].
  rewrite Hmin, Hmax. clear Hmin Hmax. rewrite Hhl in Hy.
  assert (Hx2 : x * 2 + 1 < width L) by (rewrite Hw, Nat.pow_succ_r'; lia).
  assert (Hcmin : forall cx cy, cx < width L -> cy < height L ->
            cell_min L cx cy = wide_min n (S l) cx cy) by (intros; apply Hc; assumption).
  assert (Hcmax : forall cx cy, cx < width L -> cy < height L ->
            cell_max L cx cy = wide_max n (S l) cx cy) by (intros; apply Hc; assumption).
  clear Hc. unfold wide_height in Hy, Hh.
  unfold wide_min, wide_max.
  destruct (Nat.eqb_spec l n) as [|_]; [lia|].
  destruct (Nat.eqb_spec (S l) n) as [E|E].
  - (* the finer level is the raster: three rows *)
    destruct y as [|[|y]]; [| |lia].
    + rewrite children_full by lia. unfold child_cells. cbn [map fst snd].
      rewrite !Hcmin, !Hcmax by lia.
      unfold wide_min, wide_max. rewrite E, Nat.eqb_refl. cbn [Nat.mul Nat.add Nat.eqb orb andb].
      destruct x as [|x]; cbn; split; reflexivity.
    + rewrite children_top by lia. cbn [map fst snd].
      rewrite !Hcmin, !Hcmax by lia.
      unfold wide_min, wide_max. rewrite E, Nat.eqb_refl. cbn [Nat.mul Nat.add Nat.eqb orb andb].
      split; reflexivity.
  - destruct (Nat.eqb_spec (S (S l)) n) as [E2|E2].
    + (* the finer level has two rows *)
      destruct y as [|y]; [|lia].
      rewrite children_full by lia. unfold child_cells. cbn [map fst snd].
      rewrite !Hcmin, !Hcmax by lia.
      unfold wide_min, wide_max.
      destruct (Nat.eqb_spec (S l) n); [lia|]. rewrite (proj2 (Nat.eqb_eq _ _) E2).
      cbn [Nat.mul Nat.add Nat.eqb orb andb]. split; reflexivity.
    + (* the finer level has one row *)
      destruct y as [|y]; [|lia].
      rewrite children_top by lia. cbn [map fst snd].
      rewrite !Hcmin, !Hcmax by lia.
      unfold wide_min, wide_max.
      destruct (Nat.eqb_spec (S l) n); [lia|].
      destruct (Nat.eqb_spec (S (S l)) n); [lia|].
      cbn [Nat.mul Nat.add Nat.eqb orb andb]. split; reflexivity.
Qed.

Lemma wide_level_at n l :
  2 <= n -> l <= n ->
  exists L, levels (wide_pyramid n) !! l = Some L /\ wide_level n l L /\
            (l = n -> scale L = 1).
Proof.
  intros Hn Hl. remember (n - l) as d eqn:Hd. revert l Hl Hd.
  induction d as [|d IH]; intros l Hl Hd.
  - assert (l = n) as -> by lia. destruct (wide_base n) as [Hb|]; [|lia].
    eexists. split; [exact Hb|]. split; [apply wide_level_base|reflexivity].
  - destruct (IH (S l)) as (Lf & HLf & Hwl & _); [lia|lia|].
    destruct (lookup_lt_is_Some_2 (levels (wide_pyramid n)) l) as [L HL].
    { rewrite wide_levels_length by exact Hn. lia. }
    destruct (pyramid_chain (wide_raster n) (2 ^ n) 3) as [Hc _].
    rewrite (Hc l L Lf HL HLf) in HL.
    eexists. split; [exact HL|]. split; [apply wide_level_reduce; [lia|exact Hwl]|lia].
Qed.

Lemma wide_evaluate n l x y :
  2 <= n -> l <= n ->
  evaluate (wide_pyramid n) 3 (n + 1) l x y = Ok (wide_class n l x y).
Proof.
  intros Hn Hl. destruct (wide_level_at n l Hn Hl) as (L & HL & (Hw & Hh & Hc) & _).
  unfold evaluate. rewrite HL.
  change (getf (min L) (width L * y + x)) with (cell_min L x y).
  change (getf (max L) (width L * y + x)) with (cell_max L x y).
  destruct (Nat.leb_spec (n + 1) l); [lia|].
  unfold wide_class.
  assert (Hhc : wide_height n l = if l =? n then 3 else if S l =? n then 2 else 1)
    by reflexivity.
  destruct (Nat.leb_spec (width L) x) as [Hx|Hx]; cbn [orb].
  { rewrite Hw in Hx. destruct (Nat.ltb_spec x (2 ^ l)); [lia|].
    destruct (Nat.eqb_spec l n) as [->|]; [destruct (Nat.ltb_spec x (2 ^ n)); [lia|]|];
      cbn [andb]; [reflexivity|]. destruct (S l =? n); reflexivity. }
  destruct (Nat.leb_spec (height L) y) as [Hy|Hy]; cbn [orb].
  { rewrite Hh, Hhc in Hy.
    destruct (Nat.eqb_spec l n) as [->|].
    - destruct (Nat.ltb_spec y 3); [lia|]. rewrite andb_false_r. reflexivity.
    - destruct (Nat.eqb_spec (S l) n).
      + destruct (Nat.ltb_spec y 2); [lia|]. rewrite andb_false_r. reflexivity.
      + destruct (Nat.ltb_spec y 1); [lia|]. rewrite andb_false_r. reflexivity. }
  destruct (Hc x y Hx Hy) as [-> ->]. rewrite Hw in Hx. rewrite Hh, Hhc in Hy.
  unfold wide_min, wide_max.
  destruct (Nat.eqb_spec l n) as [->|].
  - destruct (Nat.ltb_spec x (2 ^ n)); [|lia]. destruct (Nat.ltb_spec y 3); [|lia].
    cbn [andb]. destruct ((y =? 0) || (y =? 1) && (x =? 0)); reflexivity.
  - destruct (Nat.ltb_spec x (2 ^ l)); [|lia]. destruct (Nat.eqb_spec (S l) n).
    + destruct (Nat.ltb_spec y 2); [|lia]. cbn [andb].
      destruct y as [|[|y]]; [reflexivity|reflexivity|lia].
    + destruct (Nat.ltb_spec y 1); [|lia]. cbn [andb]. reflexivity.
Qed.

(** ** The walk over that pyramid *)

(** Any pyramid whose cells [evaluate] classifies by [wide_class]. *)
Section WideWalk.
Variable this : ContourMipmap.
Variable cap n : nat.
Hypothesis Hn : 2 <= n.
Hypothesis Hev : forall l x y, l <= n ->
  evaluate this 3 cap l x y = Ok (wide_class n l x y).

Lemma walk_node f l x y :
  visit this 3 cap false (S f) (Node l x y) =
  let* e := evaluate this 3 cap l x y in
  if classification_eqb e WITHIN then
    visit_list (visit this 3 cap false f) (subdivide l x y)
  else Ok [].
Proof. reflexivity. Qed.

Lemma walk_edgeH f l x y :
  visit this 3 cap false (S f) (EdgeH l x y) =
  let* e1 := evaluate this 3 cap l x y in
  let* e2 := evaluate this 3 cap l (x + 1) y in
  if classification_eqb e1 ABOVE && classification_eqb e2 BELOW then
    Ok [Line l (x + 1) (y + 1) (x + 1) y]
  else if classification_eqb e2 ABOVE && classification_eqb e1 BELOW then
    Ok [Line l (x + 1) y (x + 1) (y + 1)]
  else if classification_eqb e1 WITHIN || classification_eqb e2 WITHIN then
    visit_list (visit this 3 cap false f) (splitH l x y)
  else Ok [].
Proof. reflexivity. Qed.

Lemma walk_edgeV f l x y :
  visit this 3 cap false (S f) (EdgeV l x y) =
  let* e1 := evaluate this 3 cap l x y in
  let* e2 := evaluate this 3 cap l x (y + 1) in
  if classification_eqb e1 ABOVE && classification_eqb e2 BELOW then
    Ok [Line l x (y + 1) (x + 1) (y + 1)]
  else if classification_eqb e2 ABOVE && classification_eqb e1 BELOW then
    Ok [Line l (x + 1) (y + 1) x (y + 1)]
  else if classification_eqb e1 WITHIN || classification_eqb e2 WITHIN then
    visit_list (visit this 3 cap false f) (splitV l x y)
  else Ok [].
Proof. reflexivity. Qed.

Lemma one_lt_pow2 : 1 < 2 ^ n.
Proof.
  assert (H : 2 ^ 1 <= 2 ^ n) by (apply Nat.pow_le_mono_r; lia). cbn in H. lia.
Qed.

Ltac class_cases :=
  repeat match goal with
  | |- context [?a <? ?b] => destruct (Nat.ltb_spec a b); try lia
  | |- context [?a <=? ?b] => destruct (Nat.leb_spec a b); try lia
  | |- context [?a =? ?b] => destruct (Nat.eqb_spec a b); try lia
  end; cbn [andb orb classification_eqb obind]; try reflexivity.

Ltac zero_subst :=
  repeat match goal with
  | H : ?v = 0 |- _ => is_var v; subst v
  | H : ?v = 1 |- _ => is_var v; subst v
  end.

Lemma walk_fin_node f x y : visit this 3 cap false (S f) (Node n x y) = Ok [].
Proof.
  rewrite walk_node, Hev by lia. unfold wide_class. cbn [obind]. class_cases.
Qed.

Lemma walk_fin_edgeH f x y :
  visit this 3 cap false (S f) (EdgeH n x y) = Ok (fin_edgeH n x y).
Proof.
  pose proof one_lt_pow2.
  rewrite walk_edgeH, !Hev by lia. unfold wide_class, fin_edgeH. cbn [obind].
  class_cases; zero_subst; reflexivity.
Qed.

Lemma walk_fin_edgeV f x y :
  visit this 3 cap false (S f) (EdgeV n x y) = Ok (fin_edgeV n x y).
Proof.
  pose proof one_lt_pow2.
  rewrite walk_edgeV, !Hev by lia. unfold wide_class, fin_edgeV. cbn [obind].
  class_cases; zero_subst; reflexivity.
Qed.

Lemma class_coarse l x y :
  l + 2 <= n ->
  wide_class n l x y = if (x <? 2 ^ l) && (y =? 0) then WITHIN else OUTSIDE.
Proof. intros Hl. unfold wide_class. class_cases. Qed.

Lemma class_mid l x y :
  S l = n ->
  wide_class n l x y =
  if (x <? 2 ^ l) && (y <? 2) then (if y =? 0 then WITHIN else ABOVE) else OUTSIDE.
Proof. intros Hl. unfold wide_class. class_cases. Qed.

Lemma fin_edgeH_row0 x : fin_edgeH n x 0 = [].
Proof. unfold fin_edgeH. rewrite andb_false_r. reflexivity. Qed.

Lemma fin_edgeH_odd x y : fin_edgeH n (x * 2 + 1) y = [].
Proof. unfold fin_edgeH. class_cases. Qed.

Lemma fin_edgeV_row1 x : fin_edgeV n x 1 = if x =? 0 then [Line n 1 2 0 2] else [].
Proof. unfold fin_edgeV. class_cases. Qed.

Lemma walk_mid l X Y f :
  S l = n -> 2 <= f ->
  visit this 3 cap false f (EdgeH l X Y) = Ok [] /\
  visit this 3 cap false f (EdgeV l X Y) =
    Ok (if (X =? 0) && (Y =? 0) then [Line n 1 2 0 2] else []) /\
  visit this 3 cap false f (Node l X Y) =
    Ok (if (X <? 2 ^ l) && (Y =? 0) then wide_events n 0 X else []).
Proof.
  intros Hl Hf. destruct f as [|[|f]]; try lia. pose proof (pow2_pos l).
  assert (Hl1 : l + 1 = n) by lia.
  split; [|split].
  - rewrite walk_edgeH, !Hev, !class_mid by lia. cbn [obind].
    class_cases; unfold splitH; cbn [visit_list]; rewrite Hl1, !walk_fin_edgeH;
      cbn [obind]; rewrite !fin_edgeH_odd; reflexivity.
  - rewrite walk_edgeV, !Hev, !class_mid by lia. cbn [obind].
    class_cases; unfold splitV; cbn [visit_list]; rewrite Hl1, !walk_fin_edgeV;
      cbn [obind]; zero_subst; cbn [Nat.mul Nat.add]; rewrite !fin_edgeV_row1;
      class_cases.
  - rewrite walk_node, !Hev, !class_mid by lia. cbn [obind].
    class_cases; unfold subdivide; cbn [visit_list];
      rewrite Hl1, !walk_fin_node, !walk_fin_edgeH, !walk_fin_edgeV;
      cbn [obind]; zero_subst; cbn [Nat.mul Nat.add app wide_events];
      rewrite fin_edgeH_row0, !app_nil_r; reflexivity.
Qed.

Lemma walk_coarse d :
  forall l X Y f, l + 1 + d = n -> d + 2 <= f ->
  visit this 3 cap false f (EdgeH l X Y) = Ok [] /\
  visit this 3 cap false f (EdgeV l X Y) =
    Ok (if (d =? 0) && (X =? 0) && (Y =? 0) then [Line n 1 2 0 2] else []) /\
  visit this 3 cap false f (Node l X Y) =
    Ok (if (X <? 2 ^ l) && (Y =? 0) then wide_events n d X else []).
Proof.
  induction d as [|d IH]; intros l X Y f Hl Hf.
  { apply walk_mid; lia. }
  destruct f as [|f]; [lia|]. pose proof (pow2_pos l).
  assert (Hp : 2 ^ (l + 1) = 2 * 2 ^ l) by (rewrite Nat.add_1_r; apply Nat.pow_succ_r').
  assert (HH : forall x y, visit this 3 cap false f (EdgeH (l + 1) x y) = Ok [])
    by (intros; apply IH; lia).
  assert (HV : forall x y, visit this 3 cap false f (EdgeV (l + 1) x y) =
            Ok (if (d =? 0) && (x =? 0) && (y =? 0) then [Line n 1 2 0 2] else []))
    by (intros; apply IH; lia).
  assert (HN : forall x y, visit this 3 cap false f (Node (l + 1) x y) =
            Ok (if (x <? 2 ^ (l + 1)) && (y =? 0) then wide_events n d x else []))
    by (intros; apply IH; lia).
  split; [|split].
  - rewrite walk_edgeH, !Hev, !class_coarse by lia. cbn [obind].
    class_cases; unfold splitH; cbn [visit_list]; rewrite !HH; reflexivity.
  - rewrite walk_edgeV, !Hev, !class_coarse by lia. cbn [obind].
    class_cases; unfold splitV; cbn [visit_list]; rewrite !HV; cbn [obind];
      class_cases.
  - rewrite walk_node, !Hev, !class_coarse by lia. cbn [obind].
    class_cases. unfold subdivide; cbn [visit_list]. rewrite !HN, !HH, !HV. cbn [obind].
    zero_subst. cbn [Nat.mul Nat.add wide_events]. rewrite Hp.
    class_cases; cbn [app]; rewrite ?app_nil_r; reflexivity.
Qed.

Lemma walk_root :
  visit this 3 cap false (n + 1) (Node 0 0 0) = Ok (wide_events n (n - 1) 0).
Proof.
  destruct (walk_coarse (n - 1) 0 0 0 (n + 1)) as (_ & _ & H); [lia|lia|].
  rewrite H. reflexivity.
Qed.
End WideWalk.

(** ** The segments of that raster *)

Lemma wide_events_level n d X :
  Forall (fun ev => exists x1 y1 x2 y2, ev = Line n x1 y1 x2 y2) (wide_events n d X).
Proof.
  revert X. induction d as [|d IH]; intros X; cbn [wide_events].
  - unfold fin_edgeV, fin_edgeH.
    repeat (apply Forall_app; split);
      repeat match goal with |- context [if ?b then _ else _] => destruct b end;
      repeat constructor; eauto.
  - repeat (apply Forall_app; split); try apply IH.
    destruct (_ && _); repeat constructor. eauto.
Qed.

Lemma collect_segments_finest this n ml evs :
  levels this !! n = Some ml -> scale ml = 1 ->
  Forall (fun ev => exists x1 y1 x2 y2, ev = Line n x1 y1 x2 y2) evs ->
  collect_segments this evs = Ok (flat_map line_segment evs).
Proof.
  intros Hl Hs Hevs. induction Hevs as [|ev evs (x1 & y1 & x2 & y2 & ->) _ IH];
    [reflexivity|].
  cbn [collect_segments flat_map line_segment]. rewrite Hl, IH, Hs. reflexivity.
Qed.

Lemma fin_edgeV_segment n x : flat_map line_segment (fin_edgeV n x 0) = rowopt n x.
Proof.
  unfold fin_edgeV, rowopt. cbn [Nat.eqb andb].
  destruct ((1 <=? x) && (x <? 2 ^ n)); [|reflexivity].
  cbn [flat_map line_segment app]. unfold rowZ. do 3 f_equal; f_equal; lia.
Qed.

Lemma rowopt_range n a m :
  1 <= a -> a + m <= 2 ^ n ->
  flat_map (rowopt n) (seq a m) = map rowZ (zrange (Z.of_nat a) m).
Proof.
  revert a. induction m as [|m IH]; intros a Ha Hm; [reflexivity|].
  cbn [seq flat_map zrange map]. rewrite IH by lia.
  unfold rowopt at 1. destruct (Nat.leb_spec 1 a); [|lia].
  destruct (Nat.ltb_spec a (2 ^ n)); [|lia]. cbn [andb app].
  do 3 f_equal. lia.
Qed.

Lemma wide_events_segments n d X :
  Permutation (flat_map line_segment (wide_events n d X))
    (flat_map (rowopt n) (seq (X * 2 ^ S d) (2 ^ S d)) ++
     (if X =? 0 then
        {| start := (1, 1)%Z; end_ := (1, 2)%Z |} ::
        (if d =? 0 then [] else [ {| start := (1, 2)%Z; end_ := (0, 2)%Z |} ])
      else [])).
Proof.
  revert X. induction d as [|d IH]; intros X.
  - cbn [wide_events]. rewrite !flat_map_app, !fin_edgeV_segment.
    change (2 ^ 1) with 2. cbn [seq flat_map Nat.eqb].
    replace (X * 2 + 0) with (X * 2) by lia. replace (S (X * 2)) with (X * 2 + 1) by lia.
    rewrite app_nil_r, <- app_assoc. apply Permutation_app_head.
    rewrite Permutation_app_comm. apply Permutation_app_head.
    unfold fin_edgeH. destruct (Nat.eqb_spec X 0) as [->|];
      [reflexivity|]. destruct (Nat.eqb_spec (X * 2) 0); [lia|reflexivity].
  - cbn [wide_events]. rewrite !flat_map_app, !IH.
    assert (Hp : 2 ^ S (S d) = 2 ^ S d + 2 ^ S d) by (rewrite (Nat.pow_succ_r' 2 (S d)); lia).
    rewrite Hp, seq_app, flat_map_app.
    replace ((X * 2 + 0) * 2 ^ S d) with (X * (2 ^ S d + 2 ^ S d)) by lia.
    replace ((X * 2 + 1) * 2 ^ S d) with (X * (2 ^ S d + 2 ^ S d) + 2 ^ S d) by lia.
    destruct (Nat.eqb_spec (X * 2 + 1) 0); [lia|]. rewrite app_nil_r.
    rewrite <- !app_assoc. apply Permutation_app_head.
    rewrite (app_assoc (if X * 2 + 0 =? 0 then _ else _)).
    rewrite (Permutation_app_comm (if X * 2 + 0 =? 0 then _ else _)), <- app_assoc.
    apply Permutation_app_head.
    destruct (Nat.eqb_spec X 0) as [->|].
    + destruct d; reflexivity.
    + destruct (Nat.eqb_spec (X * 2 + 0) 0); [lia|]. rewrite andb_false_r. reflexivity.
Qed.

(** ** Sorting a permutation of an ascending list *)

Lemma insert_segment_perm s l : Permutation (insert_segment s l) (s :: l).
Proof.
  induction l as [|t l IH]; cbn [insert_segment]; [reflexivity|].
  destruct (_ <? _)%Z; [reflexivity|]. rewrite IH. apply perm_swap.
Qed.

Lemma sort_segments_perm l : Permutation (sort_segments l) l.
Proof.
  unfold sort_segments.
  enough (G : forall acc, Permutation (fold_left (fun acc s => insert_segment s acc) l acc)
                            (acc ++ l)) by apply (G []).
  induction l as [|s l IH]; intros acc; cbn [fold_left].
  - rewrite app_nil_r. reflexivity.
  - rewrite IH, insert_segment_perm. apply Permutation_middle.
Qed.

Lemma insert_segment_sorted s l :
  StronglySorted (fun a b => (key (start a) <= key (start b))%Z) l ->
  StronglySorted (fun a b => (key (start a) <= key (start b))%Z) (insert_segment s l).
Proof.
  intros H. induction H as [|t l Hl IH Ht]; cbn [insert_segment].
  - repeat constructor.
  - destruct (Z.ltb_spec (key (start s)) (key (start t))) as [Hlt|Hge].
    + constructor; [constructor; assumption|].
      constructor; [lia|]. eapply Forall_impl; [exact Ht|]. cbn. intros u Hu. lia.
    + constructor; [exact IH|].
      rewrite insert_segment_perm. constructor; [exact Hge|exact Ht].
Qed.

Lemma sort_segments_sorted l :
  StronglySorted (fun a b => (key (start a) <= key (start b))%Z) (sort_segments l).
Proof.
  unfold sort_segments.
  assert (H : StronglySorted (fun a b => (key (start a) <= key (start b))%Z) [])
    by constructor.
  revert H. generalize (@nil segment) as acc.
  induction l as [|s l IH]; intros acc H; cbn [fold_left]; [exact H|].
  apply IH, insert_segment_sorted, H.
Qed.

Lemma keys_ascending_bound s l :
  keys_ascending (s :: l) = true ->
  Forall (fun t => (key (start s) < key (start t))%Z) l.
Proof.
  revert s. induction l as [|t l IH]; intros s H; [constructor|].
  cbn [keys_ascending] in H. apply andb_true_iff in H. destruct H as [Hst H].
  apply Z.ltb_lt in Hst. constructor; [exact Hst|].
  eapply Forall_impl; [apply (IH t H)|]. cbn. intros u Hu. lia.
Qed.

Lemma sorted_perm_ascending l1 l2 :
  StronglySorted (fun a b => (key (start a) <= key (start b))%Z) l1 ->
  keys_ascending l2 = true -> Permutation l1 l2 -> l1 = l2.
Proof.
  revert l1. induction l2 as [|s l2 IH]; intros l1 Hs Ha Hp.
  - apply Permutation_nil_r in Hp. exact Hp.
  - destruct l1 as [|a l1]; [apply Permutation_nil_l in Hp; discriminate|].
    apply StronglySorted_inv in Hs. destruct Hs as [Hs1 Hmin].
    pose proof (keys_ascending_bound s l2 Ha) as Hlt.
    rewrite List.Forall_forall in Hmin, Hlt.
    assert (Eas : a = s).
    { assert (Hin : In a (s :: l2)) by (eapply Permutation_in; [exact Hp|left; reflexivity]).
      destruct Hin as [->|Hin]; [reflexivity|].
      assert (Hin' : In s (a :: l1))
        by (eapply Permutation_in; [symmetry; exact Hp|left; reflexivity]).
      specialize (Hlt a Hin). destruct Hin' as [->|Hin']; [reflexivity|].
      specialize (Hmin s Hin'). lia. }
    subst a. f_equal. apply IH.
    + exact Hs1.
    + destruct l2; [reflexivity|]. cbn [keys_ascending] in Ha.
      apply andb_true_iff in Ha. apply Ha.
    + eapply Permutation_cons_inv. exact Hp.
Qed.

Lemma sort_segments_unique l l' :
  Permutation l l' -> keys_ascending l' = true -> sort_segments l = l'.
Proof.
  intros Hp Ha. apply sorted_perm_ascending; [apply sort_segments_sorted|exact Ha|].
  rewrite sort_segments_perm. exact Hp.
Qed.

(** ** What [contour] stitches for that raster *)

Lemma wide_contour_segments n :
  2 <= n -> keys_ascending (wide_segs n) = true ->
  contour_segments (wide_pyramid n) 3 default_opts (n + 1) = Ok (wide_segs n).
Proof.
  intros Hn Ha. unfold contour_segments, evaluateContour, effective_max.
  cbn [maxMipmapLevel default_opts]. rewrite wide_levels_length by exact Hn.
  rewrite (walk_root (wide_pyramid n) (n + 1) n Hn)
    by (intros; apply wide_evaluate; assumption).
  cbn [obind]. destruct (wide_level_at n n Hn) as (L & HL & _ & Hsc); [lia|].
  rewrite (collect_segments_finest _ n L _ HL (Hsc eq_refl) (wide_events_level n (n - 1) 0)).
  cbn [obind]. f_equal. apply sort_segments_unique; [|exact Ha].
  rewrite wide_events_segments. cbn [Nat.mul Nat.eqb].
  replace (S (n - 1)) with n by lia. pose proof (pow2_pos n) as Hp.
  replace (2 ^ n) with (S (2 ^ n - 1)) at 1 by lia.
  cbn [seq flat_map]. unfold rowopt at 1. cbn [Nat.leb andb app].
  rewrite rowopt_range by lia. unfold wide_segs.
  destruct (Nat.eqb_spec (n - 1) 0); [lia|].
  change (Z.of_nat 1) with 1%Z.
  rewrite Permutation_app_comm. cbn [app]. constructor.
  rewrite Permutation_app_comm. reflexivity.
Qed.

(** * Rings returned by [contour] *)

Lemma smooth_all_lookup ls kernelWidth cycles rs :
  smooth_all ls kernelWidth cycles = Ok rs ->
  forall i l, ls !! i = Some l ->
  exists r, rs !! i = Some r /\ smooth l kernelWidth cycles = Some r.
Proof.
  revert rs. induction ls as [|l0 ls IH]; intros rs H i l Hi; [discriminate|].
  cbn [smooth_all] in H. destruct (smooth l0 kernelWidth cycles) as [r0|] eqn:H0;
    [|discriminate].
  destruct (smooth_all ls kernelWidth cycles) as [rs'| |]; try discriminate.
  cbn [obind] in H. injection H as <-. destruct i as [|i]; cbn in Hi |- *.
  - injection Hi as <-. exists r0. split; [reflexivity|exact H0].
  - apply (IH rs' eq_refl i l Hi).
Qed.

Lemma keep_line_kernel opts l :
  keep_line opts l = true -> smoothKernelWidth opts <= length l.
Proof.
  unfold keep_line. intros H. apply andb_true_iff in H. destruct H as [_ H].
  apply Nat.leb_le in H. lia.
Qed.

Lemma ring_lines_closed h segments :
  Forall segment_in_range segments -> Forall closed (ring_lines (stitch h segments)).
Proof.
  intros Hr. unfold ring_lines. apply List.Forall_forall. intros c Hc.
  apply in_map_iff in Hc. destruct Hc as (r & <- & Hin).
  apply stitch_rings_closed; assumption.
Qed.

(** C5, for rasters of at most 32768 by 32768 samples.  Every array that
    [contour] pushed to [rings] starts and ends with the same point; smoothing
    such a ring that passed the length filter succeeds for every number of
    cycles and returns a line whose first and last entries are the same pair
    of doubles; and the lines [contour] returns begin with the smoothed
    rings, each closed in that sense. *)
Theorem contour_rings_closed raster w h level opts fuel hp segs lines :
  (Z.of_nat (Nat.max w h) <= 2 ^ 15)%Z ->
  contour_segments (new_ContourMipmap raster w h) level opts fuel = Ok segs ->
  fst (contour (new_ContourMipmap raster w h) level opts fuel hp) = Ok lines ->
  Forall closed (ring_lines (stitch hp segs)) /\
  (forall cycles ring,
     In ring (ring_lines (stitch hp segs)) -> keep_line opts ring = true ->
     exists res, smooth (map to_fpoint ring) (smoothKernelWidth opts) cycles = Some res /\
                 length res = length ring /\ fclosed res) /\
  (forall i, i < length (List.filter (keep_line opts) (ring_lines (stitch hp segs))) ->
     exists res, lines !! i = Some res /\ fclosed res).
Proof.
  intros Hmax Hsegs Hout.
  pose proof (contour_segments_in_range _ _ _ _ _ _ _ Hmax Hsegs) as Hrange.
  pose proof (ring_lines_closed hp segs Hrange) as Hclosed.
  split; [exact Hclosed|]. split.
  - intros cycles ring Hin Hkeep. apply smooth_ring.
    + rewrite List.Forall_forall in Hclosed. apply Hclosed, Hin.
    + apply keep_line_kernel, Hkeep.
  - intros i Hi. unfold contour in Hout. rewrite Hsegs in Hout. cbn [fst] in Hout.
    unfold stitched_lines in Hout. rewrite map_app, List.filter_app, map_app in Hout.
    fold (ring_lines (stitch hp segs)) in Hout.
    destruct (lookup_lt_is_Some_2 _ i Hi) as [ring Hring].
    destruct (smooth_all_lookup _ _ _ _ Hout i (map to_fpoint ring)) as (res & Hres & Hsm).
    { rewrite lookup_app_l by (rewrite length_map; exact Hi).
      change (map (map to_fpoint)) with (fmap (M := list) (map to_fpoint)).
      rewrite list_lookup_fmap, Hring. reflexivity. }
    exists res. split; [exact Hres|].
    apply list_elem_of_lookup_2, list_elem_of_In, filter_In in Hring.
    destruct Hring as [Hin Hkeep].
    destruct (smooth_ring ring (smoothKernelWidth opts) (smoothCycles opts))
      as (res' & Hsm' & _ & Hcl).
    + rewrite List.Forall_forall in Hclosed. apply Hclosed, Hin.
    + apply keep_line_kernel, Hkeep.
    + congruence.
Qed.

Lemma contour_rings_closed_witness :
  Forall closed (ring_lines (stitch [] peak_segments)) /\
  (forall cycles ring,
     In ring (ring_lines (stitch [] peak_segments)) -> keep_line default_opts ring = true ->
     exists res, smooth (map to_fpoint ring) (smoothKernelWidth default_opts) cycles = Some res /\
                 length res = length ring /\ fclosed res) /\
  (forall i, i < length (List.filter (keep_line default_opts)
                           (ring_lines (stitch [] peak_segments))) ->
     exists res, peak_lines !! i = Some res /\ fclosed res).
Proof.
  apply (contour_rings_closed raster_peak 3 3 3 default_opts 3 [] peak_segments peak_lines).
  - cbn. lia.
  - vm_compute. reflexivity.
  - vm_compute. reflexivity.
Defined.

(** ** Beyond the key base *)

(** C5 as stated fails once a coordinate reaches 65536, where
    [key (65536, 1) = key (0, 2)].  For the raster 65536 wide and 3 high whose
    first row is 0, whose last row is 5 and whose middle row is 0 in column 0
    and 5 elsewhere, at threshold 3 with the default options, [contour]
    stitches the 65537 segments of [wide_segs 16].  The last of them,
    (1,2)-(0,2), finds the one open fragment both as the fragment ending at
    its start and, through the colliding key, as the fragment starting at its
    end: the fragment is pushed to [rings] with first point (65536,1) and
    last point (0,2), no size mismatch is reported, and [smooth] does not
    take the line for a loop. *)
Lemma wide_raster_ring_is_open :
  key (65536, 1)%Z = key (0, 2)%Z /\
  contour_segments (wide_pyramid 16) 3 default_opts 17 = Ok (wide_segs 16) /\
  snd (contour (wide_pyramid 16) 3 default_opts 17 []) = store (stitch [] (wide_segs 16)) /\
  rings (stitch [] (wide_segs 16)) = [0] /\
  fragmentStart (stitch [] (wide_segs 16)) = [] /\
  mismatches (stitch [] (wide_segs 16)) = [] /\
  first_point (deref (store (stitch [] (wide_segs 16))) 0) = (65536, 1)%Z /\
  last_point (deref (store (stitch [] (wide_segs 16))) 0) = (0, 2)%Z /\
  ~ Forall closed (ring_lines (stitch [] (wide_segs 16))) /\
  is_loop (map to_fpoint (deref (store (stitch [] (wide_segs 16))) 0)) = Some false.
Proof.
  assert (Hsegs : contour_segments (wide_pyramid 16) 3 default_opts 17 = Ok (wide_segs 16)).
  { apply (wide_contour_segments 16); [lia|vm_compute; reflexivity]. }
  assert (Hrings : rings (stitch [] (wide_segs 16)) = [0]) by (vm_compute; reflexivity).
  assert (Hfirst : first_point (deref (store (stitch [] (wide_segs 16))) 0) = (65536, 1)%Z)
    by (vm_compute; reflexivity).
  assert (Hlast : last_point (deref (store (stitch [] (wide_segs 16))) 0) = (0, 2)%Z)
    by (vm_compute; reflexivity).
  split; [reflexivity|].
  split; [exact Hsegs|].
  split; [unfold contour; rewrite Hsegs; reflexivity|].
  split; [exact Hrings|].
  split; [vm_compute; reflexivity|].
  split; [vm_compute; reflexivity|].
  split; [exact Hfirst|]. split; [exact Hlast|]. split.
  - unfold ring_lines. rewrite Hrings. cbn [map]. intros H.
    apply Forall_inv in H. destruct H as [_ H]. rewrite Hfirst, Hlast in H. discriminate.
  - vm_compute. reflexivity.
Qed.

(** * Adding a positive double does not go down *)

Section FloatAdd.

Local Open Scope Z_scope.







Lemma sfval_mono_exp m e1 e2 : 0 <= m -> -1074 <= e1 <= e2 -> sfval m e1 <= sfval m e2.
Proof.
  intros Hm He. unfold sfval. apply Z.mul_le_mono_nonneg_l; [exact Hm|].
  apply Z.pow_le_mono_r; lia.
Qed.




















End FloatAdd.




(** * [intervals] *)



(** ** Without rounding *)


Lemma Qltb_ge a b : Qltb a b = false <-> (b <= a)%Q.
Proof.
  unfold Qltb. rewrite negb_false_iff. apply Qle_bool_iff.
Qed.








(** ** In doubles *)





(** ** The claim *)



(** * Further properties of the code *)

(** * Lines the stitcher returns *)

Lemma map_get_In k m r : map_get k m = Some r -> In (k, r) m.
Proof.
  induction m as [|[k' v] m IH]; cbn [map_get]; [discriminate|].
  destruct (Z.eqb_spec k' k) as [->|]; intros H.
  - injection H as ->. left. reflexivity.
  - right. apply IH, H.
Qed.

Lemma In_map_set k r m k' r' :
  In (k', r') (map_set k r m) -> (k', r') = (k, r) \/ In (k', r') m.
Proof.
  induction m as [|[k0 v0] m IH]; cbn [map_set].
  - intros [H|[]]. left. congruence.
  - destruct (k0 =? k)%Z; intros [H|H].
    + left. congruence.
    + right. right. exact H.
    + right. left. exact H.
    + destruct (IH H) as [E|E]; [left; exact E|right; right; exact E].
Qed.

Lemma In_map_delete k m x : In x (map_delete k m) -> In x m.
Proof. unfold map_delete. intros H. apply filter_In in H. apply H. Qed.

Lemma stitch_segment_wf st s : stitch_wf st -> stitch_wf (stitch_segment st s).
Proof.
  intros (HS & HE & HR & HL). unfold stitch_segment.
  destruct (map_get (key (start s)) (fragmentEnd st)) as [a|] eqn:Ea;
    destruct (map_get (key (end_ s)) (fragmentStart st)) as [b|] eqn:Eb.
  - pose proof (HE _ _ (map_get_In _ _ _ Ea)) as Ha.
    pose proof (HS _ _ (map_get_In _ _ _ Eb)) as Hb.
    pose proof (HL _ Ha) as La. pose proof (HL _ Hb) as Lb.
    destruct (a =? b); unfold stitch_wf, array_push;
      cbn [fragmentStart fragmentEnd rings store].
    + rewrite length_insert. repeat split.
      * intros k r H. apply In_map_delete in H. eapply HS, H.
      * intros k r H. apply In_map_delete in H. eapply HE, H.
      * intros r H. apply in_app_iff in H. destruct H as [H|[<-|[]]]; [apply HR, H|exact Ha].
      * intros r Hr. rewrite deref_insert by exact Ha.
        destruct (decide (r = a)); [rewrite length_app; cbn; lia|apply HL, Hr].
    + rewrite length_app. cbn [length]. repeat split.
      * intros k r H. apply In_map_set in H. destruct H as [H|H]; [injection H as _ ->; lia|].
        apply In_map_delete in H. apply HS in H. lia.
      * intros k r H. apply In_map_set in H. destruct H as [H|H]; [injection H as _ ->; lia|].
        apply In_map_delete in H. apply HE in H. lia.
      * intros r H. apply HR in H. lia.
      * intros r Hr. rewrite deref_alloc.
        destruct (decide (r = length (store st))); [rewrite length_app; lia|apply HL; lia].
  - pose proof (HE _ _ (map_get_In _ _ _ Ea)) as Ha.
    pose proof (HL _ Ha) as La.
    unfold stitch_wf, array_push. cbn [fragmentStart fragmentEnd rings store].
    rewrite length_insert. repeat split.
    + exact HS.
    + intros k r H. apply In_map_set in H. destruct H as [H|H]; [injection H as _ ->; lia|].
      apply In_map_delete in H. eapply HE, H.
    + exact HR.
    + intros r Hr. rewrite deref_insert by exact Ha.
      destruct (decide (r = a)); [rewrite length_app; cbn; lia|apply HL, Hr].
  - pose proof (HS _ _ (map_get_In _ _ _ Eb)) as Hb.
    pose proof (HL _ Hb) as Lb.
    unfold stitch_wf, array_unshift. cbn [fragmentStart fragmentEnd rings store].
    rewrite length_insert. repeat split.
    + intros k r H. apply In_map_set in H. destruct H as [H|H]; [injection H as _ ->; lia|].
      apply In_map_delete in H. eapply HS, H.
    + exact HE.
    + exact HR.
    + intros r Hr. rewrite deref_insert by exact Hb.
      destruct (decide (r = b)); [cbn; lia|apply HL, Hr].
  - unfold stitch_wf. cbn [fragmentStart fragmentEnd rings store].
    rewrite length_app. cbn [length]. repeat split.
    + intros k r H. apply In_map_set in H. destruct H as [H|H]; [injection H as _ ->; lia|].
      apply HS in H. lia.
    + intros k r H. apply In_map_set in H. destruct H as [H|H]; [injection H as _ ->; lia|].
      apply HE in H. lia.
    + intros r H. apply HR in H. lia.
    + intros r Hr. rewrite deref_alloc.
      destruct (decide (r = length (store st))); [cbn; lia|apply HL; lia].
Qed.

Lemma stitch_wf_all segments : stitch_wf (stitch [] segments).
Proof.
  unfold stitch.
  assert (H0 : stitch_wf (stitch_init [])).
  { unfold stitch_wf. cbn. repeat split; try tauto. intros r Hr. lia. }
  revert H0. generalize (stitch_init []).
  induction segments as [|s segments IH]; intros st Hst; cbn [fold_left]; [exact Hst|].
  apply IH. unfold stitch_step.
  destruct (check_sizes_fields (stitch_segment st s)) as (E1 & E2 & E3 & E4).
  pose proof (stitch_segment_wf st s Hst) as H. unfold stitch_wf in *.
  rewrite E1, E2, E3, E4. exact H.
Qed.

Lemma stitched_lines_length h segments :
  Forall (fun c => 2 <= length c) (stitched_lines (stitch h segments)).
Proof.
  rewrite stitch_shift, stitched_lines_shift.
  destruct (stitch_wf_all segments) as (HS & _ & HR & HL).
  unfold stitched_lines. apply List.Forall_forall. intros c Hc.
  apply in_map_iff in Hc. destruct Hc as (r & <- & Hr).
  apply HL.
  apply in_app_iff in Hr. destruct Hr as [Hr|Hr]; [apply HR, Hr|].
  unfold map_values in Hr. apply in_map_iff in Hr. destruct Hr as ([k r'] & <- & Hr).
  apply (HS k r' Hr).
Qed.

(** * When [smooth] returns *)

Lemma pointAt_open_some line i : line <> [] -> exists q, pointAt false line i = Some q.
Proof.
  intros Hne. unfold pointAt. apply line_at_some.
  destruct line; [congruence|]. cbn [length]. lia.
Qed.

Lemma slide_some isLoop kw sc line n i res p :
  line <> [] -> (0 <= kw <= Z.of_nat (length line))%Z -> (0 <= i)%Z ->
  exists res', slide isLoop kw sc line i n res p = Some res' /\ length res' = length res.
Proof.
  destruct isLoop; [apply slide_loop_some|].
  intros Hne Hkw. revert i res p. induction n as [|n IH]; intros i res p Hi; cbn [slide].
  - exists res. split; reflexivity.
  - destruct (pointAt_open_some line (i + kw) Hne) as [a ->].
    destruct (pointAt_open_some line (i - kw) Hne) as [b ->]. cbn.
    destruct (IH (i + 1)%Z
                (<[Z.to_nat i := ((fst p * sc)%float, (snd p * sc)%float)]> res)
                ((fst p + (fst a - fst b))%float, (snd p + (snd a - snd b))%float))
      as (res' & -> & Hlen); [lia|].
    exists res'. split; [reflexivity|]. rewrite Hlen. apply length_insert.
Qed.

Lemma smooth_cycle_some isLoop kernelWidth sc line :
  line <> [] -> kernelWidth <= length line ->
  exists res, smooth_cycle isLoop kernelWidth sc line = Some res /\
              length res = length line.
Proof.
  intros Hne Hkw. destruct isLoop.
  { destruct (smooth_cycle_loop kernelWidth sc line Hne Hkw) as (res & H & Hl & _). eauto. }
  unfold smooth_cycle.
  destruct (line_at_some line 0) as [f ->]; [destruct line; [congruence|cbn; lia]|].
  cbn [mbind option_bind].
  destruct (sum_points_some line 0 kernelWidth
              ((fst f * N2F kernelWidth)%float, (snd f * N2F kernelWidth)%float))
    as [p1 ->]; [lia|lia|].
  cbn [mbind option_bind].
  destruct (slide_some false (Z.of_nat kernelWidth) sc line (length line) 0 line p1)
    as (res & -> & Hlen); [exact Hne|lia|lia|].
  cbn [mbind option_bind]. eauto.
Qed.

Lemma smooth_cycles_some isLoop kernelWidth sc cycles line :
  line <> [] -> kernelWidth <= length line ->
  exists res, smooth_cycles isLoop kernelWidth sc cycles line = Some res /\
              length res = length line.
Proof.
  revert line. induction cycles as [|cycles IH]; intros line Hne Hkw; cbn [smooth_cycles].
  - eauto.
  - destruct (smooth_cycle_some isLoop kernelWidth sc line Hne Hkw) as (r & -> & Hl).
    cbn [mbind option_bind].
    destruct (IH r) as (res & Hres & Hl'); [|lia|].
    + intros ->. destruct line; [congruence|discriminate].
    + exists res. split; [exact Hres|lia].
Qed.

Lemma is_loop_some line : line <> [] -> exists b, is_loop line = Some b.
Proof.
  intros Hne. unfold is_loop.
  assert (Hlen : 0 < length line) by (destruct line; [congruence|cbn; lia]).
  destruct (line_at_some line 0) as [p ->]; [lia|].
  destruct (line_at_some line (Z.of_nat (length line) - 1)) as [q ->]; [lia|].
  cbn. eauto.
Qed.

Lemma line_at_none line i :
  (i < 0 \/ Z.of_nat (length line) <= i)%Z -> line_at line i = None.
Proof.
  intros H. unfold line_at. destruct (Z.leb_spec 0 i); [|reflexivity].
  apply lookup_ge_None_2. lia.
Qed.

Lemma sum_points_none line from n p :
  1 <= n -> (from < 0 \/ Z.of_nat (length line) < from + Z.of_nat n)%Z ->
  sum_points line from n p = None.
Proof.
  revert from p. induction n as [|n IH]; intros from p Hn H; [lia|]. cbn [sum_points].
  destruct (line_at line from) as [q|] eqn:E; [|reflexivity]. cbn.
  assert (Hin : (0 <= from < Z.of_nat (length line))%Z).
  { destruct (Z.lt_ge_cases from 0); [rewrite line_at_none in E by lia; discriminate|].
    destruct (Z.lt_ge_cases from (Z.of_nat (length line))); [lia|].
    rewrite line_at_none in E by lia. discriminate. }
  apply IH; lia.
Qed.

Lemma smooth_cycle_short isLoop kernelWidth sc line :
  length line < kernelWidth -> smooth_cycle isLoop kernelWidth sc line = None.
Proof.
  intros Hlt. unfold smooth_cycle. destruct isLoop.
  - rewrite sum_points_none by lia. reflexivity.
  - destruct (line_at line 0) as [f|]; [|reflexivity]. cbn [mbind option_bind].
    rewrite sum_points_none by lia. reflexivity.
Qed.

Lemma smooth_length line kernelWidth cycles res :
  smooth line kernelWidth cycles = Some res -> length res = length line.
Proof.
  unfold smooth. destruct (is_loop line) as [b|]; [|discriminate]. cbn [mbind option_bind].
  generalize (1 / N2F (kernelWidth * 2))%float as sc. intros sc.
  revert line. induction cycles as [|cycles IH]; intros line H; cbn [smooth_cycles] in H.
  - injection H as <-. reflexivity.
  - destruct (smooth_cycle b kernelWidth sc line) as [r|] eqn:E; [|discriminate].
    cbn [mbind option_bind] in H. rewrite (IH r H).
    destruct (Nat.lt_ge_cases (length line) kernelWidth) as [Hs|Hs].
    { rewrite smooth_cycle_short in E by exact Hs. discriminate. }
    destruct line as [|p line].
    { cbn [length] in Hs. assert (kernelWidth = 0) as -> by lia.
      unfold smooth_cycle in E. destruct b; cbn in E; discriminate. }
    destruct (smooth_cycle_some b kernelWidth sc (p :: line)) as (r' & E' & Hl);
      [discriminate|exact Hs|]. congruence.
Qed.

Lemma smooth_some line kernelWidth cycles :
  line <> [] -> cycles = 0 \/ kernelWidth <= length line ->
  exists res, smooth line kernelWidth cycles = Some res.
Proof.
  intros Hne Hc. unfold smooth. destruct (is_loop_some line Hne) as [b ->].
  cbn [mbind option_bind]. destruct Hc as [->|Hkw]; [cbn; eauto|].
  destruct (smooth_cycles_some b kernelWidth (1 / N2F (kernelWidth * 2))%float
              cycles line Hne Hkw) as (res & H & _). eauto.
Qed.

(** X11. [smooth] returns exactly when the line is not empty and, if any cycle
    is run, has at least [kernelWidth] points; otherwise it throws a
    TypeError reading a coordinate of [undefined].  What it returns has as
    many points as the line, and is the line itself when no cycle is run. *)
Theorem smooth_returns_iff line kernelWidth cycles :
  ((exists res, smooth line kernelWidth cycles = Some res) <->
   line <> [] /\ (cycles = 0 \/ kernelWidth <= length line)) /\
  (forall res, smooth line kernelWidth cycles = Some res -> length res = length line) /\
  (line <> [] -> smooth line kernelWidth 0 = Some line).
Proof.
  split; [|split; [apply smooth_length|]].
  - split.
    + intros [res H]. unfold smooth in H.
      destruct line as [|p line]; [discriminate|]. split; [discriminate|].
      destruct (is_loop (p :: line)) as [b|]; [|discriminate]. cbn [mbind option_bind] in H.
      destruct cycles as [|cycles]; [left; reflexivity|right].
      cbn [smooth_cycles] in H.
      destruct (Nat.lt_ge_cases (length (p :: line)) kernelWidth) as [Hs|Hs]; [|exact Hs].
      rewrite smooth_cycle_short in H by exact Hs. discriminate.
    + intros [Hne Hc]. apply smooth_some; assumption.
  - intros Hne. unfold smooth. destruct (is_loop_some line Hne) as [b ->]. reflexivity.
Qed.

(** * [contour] returns *)

Lemma collect_segments_ok this evs :
  Forall (line_ok this) evs -> exists segs, collect_segments this evs = Ok segs.
Proof.
  induction 1 as [|ev evs Hev _ [segs IH]]; cbn [collect_segments]; [eauto|].
  destruct ev as [l x1 y1 x2 y2|l x y e]; [|eauto].
  destruct Hev as (ml & -> & _). rewrite IH. cbn [obind]. eauto.
Qed.

Lemma smooth_all_ok ls kernelWidth cycles :
  Forall (fun l => l <> [] /\ kernelWidth <= length l) ls ->
  exists rs, smooth_all ls kernelWidth cycles = Ok rs /\
             Forall2 (fun l r => length r = length l) ls rs.
Proof.
  induction 1 as [|l ls [Hne Hkw] _ (rs & IH & Hlen)]; cbn [smooth_all].
  - exists []. split; [reflexivity|constructor].
  - destruct (smooth_some l kernelWidth cycles Hne) as [r Hr]; [right; exact Hkw|].
    rewrite Hr, IH. cbn [obind]. exists (r :: rs). split; [reflexivity|].
    constructor; [eapply smooth_length; exact Hr|exact Hlen].
Qed.

Lemma filter_Forall_both {A} (f : A -> bool) (P : A -> Prop) l :
  Forall P l -> Forall (fun x => P x /\ f x = true) (List.filter f l).
Proof.
  intros H. apply List.Forall_forall. intros x Hx. apply filter_In in Hx.
  rewrite List.Forall_forall in H. split; [apply H|]; apply Hx.
Qed.

(** X12. For every raster, every threshold that is not NaN and all options,
    [contour] returns (it does not throw), within a recursion depth of the
    number of pyramid levels; every line it returns has at least two points,
    at least [minPoints] points and at least [2 * smoothKernelWidth]
    points. *)
Theorem contour_returns raster w h t opts hp :
  PrimFloat.is_nan t = false ->
  exists lines,
    fst (contour (new_ContourMipmap raster w h) t opts
           (length (levels (new_ContourMipmap raster w h))) hp) = Ok lines /\
    Forall (fun r => 2 <= length r /\ minPoints opts <= length r /\
                     smoothKernelWidth opts * 2 <= length r) lines.
Proof.
  intros Ht. set (this := new_ContourMipmap raster w h).
  destruct (visit_ok raster w h t false (length (levels this)) (Node 0 0 0) Ht)
    with (cap := effective_max this (maxMipmapLevel opts)) as [evs Hevs].
  { apply levels_nonempty. }
  { cbn [call_level]. fold this. lia. }
  fold this in Hevs.
  destruct (collect_segments_ok this evs (visit_lines_ok _ _ _ _ _ _ _ Hevs)) as [raw Hraw].
  unfold contour, contour_segments, evaluateContour. rewrite Hevs. cbn [obind].
  rewrite Hraw. cbn [obind fst].
  set (kept := List.filter (keep_line opts) (stitched_lines (stitch hp (sort_segments raw)))).
  assert (Hkept : Forall (fun c => 2 <= length c /\ keep_line opts c = true) kept).
  { apply filter_Forall_both, stitched_lines_length. }
  destruct (smooth_all_ok (map (map to_fpoint) kept) (smoothKernelWidth opts)
              (smoothCycles opts)) as (lines & Hlines & Hlen).
  { apply Forall_map. eapply Forall_impl; [exact Hkept|]. cbn. intros c [H2 Hk].
    rewrite length_map. split; [destruct c; [cbn in H2; lia|discriminate]|].
    apply keep_line_kernel, Hk. }
  exists lines. split; [exact Hlines|].
  apply Forall2_Forall_r with (1 := Hlen). apply Forall_map.
  eapply Forall_impl; [exact Hkept|]. cbn. intros c [H2 Hk] r Hr.
  rewrite length_map in Hr. rewrite Hr. unfold keep_line in Hk.
  apply andb_true_iff in Hk. destruct Hk as [Hk1 Hk2].
  apply Nat.leb_le in Hk1, Hk2. lia.
Qed.

(** * What the walk reports *)

Lemma visit_events_sound this t cap addNode fuel c evs :
  visit this t cap addNode fuel c = Ok evs -> Forall (event_sound this t cap) evs.
Proof.
  revert c evs. induction fuel as [|fuel IH]; intros c evs H; [discriminate|].
  cbn [visit] in H.
  pose proof (fun cs evs => visit_list_Forall (event_sound this t cap) _ cs evs IH) as Hrec.
  destruct c as [l x y|l x y|l x y].
  - destruct (evaluate this t cap l x y) as [e| |] eqn:He; try discriminate.
    cbn [obind] in H.
    destruct e; cbn [classification_eqb] in H; try (eapply Hrec; eassumption);
      injection H as <-; destruct addNode; repeat constructor;
      try exact He; discriminate.
  - destruct (evaluate this t cap l x y) as [e1| |] eqn:H1; try discriminate.
    cbn [obind] in H.
    destruct (evaluate this t cap l (x + 1) y) as [e2| |] eqn:H2; try discriminate.
    cbn [obind] in H.
    destruct e1, e2; cbn [classification_eqb andb orb] in H;
      try (eapply Hrec; eassumption);
      try (injection H as <-; constructor; fail);
      injection H as <-; repeat constructor; exists x, y; tauto.
  - destruct (evaluate this t cap l x y) as [e1| |] eqn:H1; try discriminate.
    cbn [obind] in H.
    destruct (evaluate this t cap l x (y + 1)) as [e2| |] eqn:H2; try discriminate.
    cbn [obind] in H.
    destruct e1, e2; cbn [classification_eqb andb orb] in H;
      try (eapply Hrec; eassumption);
      try (injection H as <-; constructor; fail);
      injection H as <-; repeat constructor; exists x, y; tauto.
Qed.

(** X6. Every call the walk makes to its callbacks is justified by the
    classes of the cells: [addLine] is called only for the side shared by two
    neighbouring cells of one level of which one is ABOVE and the other
    BELOW (never next to a cell that is OUTSIDE or WITHIN), with the ABOVE
    cell on the same hand of the direction of the line in all four cases;
    [addNode] is called with the class of its cell, which is never WITHIN. *)
Theorem walk_events_sound this t opt addNode fuel evs :
  evaluateContour this t opt addNode fuel = Ok evs ->
  Forall (event_sound this t (effective_max this opt)) evs.
Proof. apply visit_events_sound. Qed.

Lemma walk_events_sound_witness :
  Forall (event_sound (new_ContourMipmap raster_peak 3 3) 3
            (effective_max (new_ContourMipmap raster_peak 3 3) None))
    peak_events.
Proof.
  apply (walk_events_sound (new_ContourMipmap raster_peak 3 3) 3 None true 3).
  vm_compute. reflexivity.
Defined.

Lemma visit_list_lines_only v1 v2 cs :
  (forall c, v1 c = lines_only (v2 c)) ->
  visit_list v1 cs = lines_only (visit_list v2 cs).
Proof.
  intros Hv. induction cs as [|c cs IH]; cbn [visit_list]; [reflexivity|].
  rewrite Hv, IH. destruct (v2 c) as [e1| |]; cbn [lines_only obind]; try reflexivity.
  destruct (visit_list v2 cs) as [e2| |]; cbn [lines_only obind]; try reflexivity.
  rewrite List.filter_app. reflexivity.
Qed.

(** X7. Passing an [addNode] callback does not change the [addLine] calls:
    the walk without [addNode] makes exactly the [addLine] calls of the walk
    with it, in the same order, and fails exactly when that one fails. *)
Theorem addNode_keeps_lines this t opt fuel :
  evaluateContour this t opt false fuel =
  lines_only (evaluateContour this t opt true fuel).
Proof.
  unfold evaluateContour. generalize (effective_max this opt) as cap. intros cap.
  generalize (Node 0 0 0) as c. induction fuel as [|fuel IH]; intros c; [reflexivity|].
  cbn [visit].
  pose proof (visit_list_lines_only (visit this t cap false fuel)
                (visit this t cap true fuel)) as Hrec.
  destruct c as [l x y|l x y|l x y].
  - destruct (evaluate this t cap l x y) as [e| |]; cbn [obind lines_only]; try reflexivity.
    destruct (classification_eqb e WITHIN); [apply Hrec, IH|reflexivity].
  - destruct (evaluate this t cap l x y) as [e1| |]; cbn [obind lines_only]; try reflexivity.
    destruct (evaluate this t cap l (x + 1) y) as [e2| |]; cbn [obind lines_only];
      try reflexivity.
    repeat (match goal with |- context [if ?b then _ else _] => destruct b end;
            try reflexivity); apply Hrec, IH.
  - destruct (evaluate this t cap l x y) as [e1| |]; cbn [obind lines_only]; try reflexivity.
    destruct (evaluate this t cap l x (y + 1)) as [e2| |]; cbn [obind lines_only];
      try reflexivity.
    repeat (match goal with |- context [if ?b then _ else _] => destruct b end;
            try reflexivity); apply Hrec, IH.
Qed.

(** * The depth cap *)

Lemma evaluate_within_below_cap this t cap l x y :
  evaluate this t cap l x y = Ok WITHIN -> l < cap.
Proof.
  unfold evaluate. destruct (levels this !! l); [|discriminate].
  repeat match goal with |- context [if ?b then _ else _] => destruct b eqn:? end;
    try discriminate.
  intros _. match goal with H : (cap <=? l) = false |- _ => apply Nat.leb_gt in H; exact H end.
Qed.

Lemma visit_capped this t cap addNode fuel c :
  cap < length (levels this) -> call_level c <= cap -> cap < call_level c + fuel ->
  exists evs, visit this t cap addNode fuel c = Ok evs /\
              Forall (fun ev => event_level ev <= cap) evs.
Proof.
  intros Hcap. revert c. induction fuel as [|fuel IH]; intros c Hl Hf; [lia|].
  assert (Hrec : forall cs,
            (forall c', In c' cs -> call_level c' = call_level c + 1) ->
            call_level c < cap ->
            exists evs, visit_list (visit this t cap addNode fuel) cs = Ok evs /\
                        Forall (fun ev => event_level ev <= cap) evs).
  { intros cs Hcs Hlt. induction cs as [|c' cs IHcs]; cbn [visit_list].
    - exists []. split; [reflexivity|constructor].
    - destruct (IH c') as (e1 & -> & F1).
      { rewrite (Hcs c' (or_introl eq_refl)). lia. }
      { rewrite (Hcs c' (or_introl eq_refl)). lia. }
      destruct IHcs as (e2 & -> & F2); [intros; apply Hcs; right; assumption|].
      cbn [obind]. exists (e1 ++ e2). split; [reflexivity|].
      apply Forall_app. split; assumption. }
  cbn [visit]. destruct c as [l x y|l x y|l x y]; cbn [call_level] in *.
  - destruct (evaluate_ok this t cap l x y) as [e He]; [lia|]. rewrite He. cbn [obind].
    destruct e; cbn [classification_eqb];
      try (eexists; split; [reflexivity|destruct addNode; repeat constructor; exact Hl]).
    apply Hrec; [|eapply evaluate_within_below_cap, He].
    intros c' Hc'. cbn in Hc'. repeat (destruct Hc' as [<-|Hc']; [reflexivity|]). destruct Hc'.
  - destruct (evaluate_ok this t cap l x y) as [e1 H1]; [lia|].
    destruct (evaluate_ok this t cap l (x + 1) y) as [e2 H2]; [lia|].
    rewrite H1, H2. cbn [obind].
    destruct e1, e2; cbn [classification_eqb andb orb];
      try (eexists; split; [reflexivity|repeat constructor; exact Hl]);
      (apply Hrec;
       [intros c' Hc'; cbn in Hc'; repeat (destruct Hc' as [<-|Hc']; [reflexivity|]);
        destruct Hc'
       |first [eapply evaluate_within_below_cap, H1|eapply evaluate_within_below_cap, H2]]).
  - destruct (evaluate_ok this t cap l x y) as [e1 H1]; [lia|].
    destruct (evaluate_ok this t cap l x (y + 1)) as [e2 H2]; [lia|].
    rewrite H1, H2. cbn [obind].
    destruct e1, e2; cbn [classification_eqb andb orb];
      try (eexists; split; [reflexivity|repeat constructor; exact Hl]);
      (apply Hrec;
       [intros c' Hc'; cbn in Hc'; repeat (destruct Hc' as [<-|Hc']; [reflexivity|]);
        destruct Hc'
       |first [eapply evaluate_within_below_cap, H1|eapply evaluate_within_below_cap, H2]]).
Qed.

(** X8. With [maxMipmapLevel = m] between 1 and the index of the finest
    level, the walk returns for every threshold (NaN included) within a
    recursion depth of [m + 1], and every callback is called for a level of
    index at most [m]: no level finer than [m] is read. *)
Theorem walk_depth_capped this t m addNode :
  1 <= m -> m < length (levels this) ->
  exists evs, evaluateContour this t (Some m) addNode (m + 1) = Ok evs /\
              Forall (fun ev => event_level ev <= m) evs.
Proof.
  intros Hm Hlt. unfold evaluateContour.
  assert (E : effective_max this (Some m) = m) by (destruct m; [lia|reflexivity]).
  rewrite E. apply visit_capped; cbn [call_level]; lia.
Qed.

Lemma walk_depth_capped_witness :
  exists evs,
    evaluateContour (new_ContourMipmap raster_4x4 4 4) PrimFloat.nan (Some 1) true (1 + 1)
      = Ok evs /\
    Forall (fun ev => event_level ev <= 1) evs.
Proof.
  apply (walk_depth_capped (new_ContourMipmap raster_4x4 4 4) PrimFloat.nan 1 true).
  - lia.
  - vm_compute. lia.
Defined.

(** * Thresholds and rasters without a contour *)

Lemma contour_no_lines this t opts fuel hp e :
  evaluate this t (effective_max this (maxMipmapLevel opts)) 0 0 0 = Ok e ->
  e <> WITHIN -> 1 <= fuel ->
  contour this t opts fuel hp = (Ok [], hp).
Proof.
  intros He Hne Hf. destruct fuel as [|fuel]; [lia|].
  unfold contour, contour_segments, evaluateContour. cbn [visit]. rewrite He. cbn [obind].
  destruct e; try congruence; reflexivity.
Qed.

(** X13. A threshold at or below [min ()], or above [max ()], has no contour:
    [contour] returns the empty list without looking below the root and
    leaves the heap as it found it. *)
Theorem contour_empty_outside_range this t opts fuel hp mn mx :
  cm_min this = Ok mn -> cm_max this = Ok mx ->
  (t <=? mn)%float = true \/ (mx <? t)%float = true ->
  1 <= fuel ->
  contour this t opts fuel hp = (Ok [], hp).
Proof.
  unfold cm_min, cm_max. intros Hmn Hmx Ht Hf.
  destruct (levels this) as [|top rest] eqn:El; [discriminate|].
  injection Hmn as <-. injection Hmx as <-.
  assert (He : exists e, evaluate this t (effective_max this (maxMipmapLevel opts)) 0 0 0
                         = Ok e /\ e <> WITHIN).
  { unfold evaluate. rewrite El. cbn [lookup list_lookup].
    rewrite Nat.mul_0_r. cbn [Nat.add].
    destruct (_ || _); [eexists; split; [reflexivity|discriminate]|].
    destruct (t <=? getf (min top) 0)%float eqn:E1;
      [eexists; split; [reflexivity|discriminate]|].
    destruct (getf (max top) 0 <? t)%float eqn:E2;
      [eexists; split; [reflexivity|discriminate]|].
    destruct Ht; discriminate. }
  destruct He as (e & He & Hne). eapply contour_no_lines; eassumption.
Qed.

Lemma contour_empty_outside_range_witness :
  contour (new_ContourMipmap raster_peak 3 3) 7 default_opts 1 [] = (Ok [], []).
Proof.
  apply (contour_empty_outside_range (new_ContourMipmap raster_peak 3 3) 7 default_opts 1 []
           0 5); [reflexivity|reflexivity|right; reflexivity|lia].
Defined.

(** X14. A raster without a single finite sample (all NaN; the empty raster;
    a raster shorter than [width * height] counts its missing samples as
    NaN) has no contour at any threshold and with any options: the root is
    OUTSIDE and [contour] returns the empty list. *)
Theorem contour_empty_without_finite_sample raster w h t opts fuel hp :
  Forall (fun v => PrimFloat.is_nan v = true) raster -> 1 <= fuel ->
  contour (new_ContourMipmap raster w h) t opts fuel hp = (Ok [], hp).
Proof.
  intros Hnan Hf. set (this := new_ContourMipmap raster w h).
  assert (Hs : forall i, PrimFloat.is_nan (getf raster i) = true).
  { intros i. unfold getf. destruct (raster !! i) as [v|] eqn:E; [|reflexivity].
    rewrite Forall_lookup in Hnan. apply (Hnan i v E). }
  assert (Hok : Forall sample_ok raster).
  { eapply Forall_impl; [exact Hnan|]. cbn. intros v Hv.
    assert (v = PrimFloat.nan) as ->.
    { apply Prim2SF_inj. unfold PrimFloat.is_nan in Hv.
      apply negb_true_iff in Hv. pose proof (FloatAxioms.eqb_spec v v) as E.
      rewrite Hv in E. destruct (Prim2SF v) as [s|s| |s m e]; try reflexivity.
      - destruct s; discriminate E.
      - destruct s; discriminate E.
      - unfold SFeqb, SFcompare in E.
        destruct s; rewrite ?Z.compare_refl, ?Pos.compare_cont_refl in E;
          cbn in E; rewrite ?Pos.compare_refl in E; discriminate E. }
    split; [apply is_float32_nan|right; reflexivity]. }
  destruct (lookup_lt_is_Some_2 (levels this) 0 (levels_nonempty raster w h)) as [L HL].
  destruct (pyramid_summary_ok raster w h 0 L Hok HL) as [_ HLs].
  assert (He : exists e, evaluate this t (effective_max this (maxMipmapLevel opts)) 0 0 0
                         = Ok e /\ e <> WITHIN).
  { unfold evaluate. rewrite HL.
    destruct (Nat.leb_spec (width L) 0) as [|Hx]; cbn [orb];
      [eexists; split; [reflexivity|discriminate]|].
    destruct (Nat.leb_spec (height L) 0) as [|Hy]; cbn [orb];
      [eexists; split; [reflexivity|discriminate]|].
    destruct (HLs 0 0 Hx Hy) as (_ & _ & [(_ & _ & X & Y & _ & Hfin)|[Hshape _]]).
    - exfalso. unfold sample in Hfin. specialize (Hs (Y * w + X)).
      apply is_finite_not_nan in Hfin. congruence.
    - change (getf (min L) (width L * 0 + 0)) with (cell_min L 0 0).
      change (getf (max L) (width L * 0 + 0)) with (cell_max L 0 0).
      assert (Hnf : PrimFloat.is_finite (cell_min L 0 0) = false).
      { destruct Hshape as [[Hn _]|[-> _]]; [|reflexivity].
        destruct (PrimFloat.is_finite (cell_min L 0 0)) eqn:E; [|reflexivity].
        apply is_finite_not_nan in E. congruence. }
      rewrite Hnf. cbn [negb orb]. eexists; split; [reflexivity|discriminate]. }
  destruct He as (e & He & Hne). eapply contour_no_lines; eassumption.
Qed.

Lemma contour_empty_without_finite_sample_witness :
  contour (new_ContourMipmap raster_nans 2 1) 3 default_opts 1 [] = (Ok [], []).
Proof.
  apply (contour_empty_without_finite_sample raster_nans 2 1 3 default_opts 1 []);
    [repeat constructor|lia].
Defined.

(** ** One infinite sample *)

Lemma fround_infinite x :
  fkey x = Some (2, 0, 0)%Z \/ fkey x = Some (-2, 0, 0)%Z -> fround x = x.
Proof.
  unfold fround, fkey. destruct (Prim2SF x) as [s|s| |s m e]; try reflexivity.
  destruct s; cbn; intros [H|H]; discriminate H.
Qed.

Lemma minFinite_neg_infinity args v :
  In v args -> fkey v = Some (-2, 0, 0)%Z -> fkey (minFinite args) = Some (-2, 0, 0)%Z.
Proof.
  intros Hin Hv. destruct (minFinite_spec args) as [Hres Hlow].
  specialize (Hlow v Hin).
  destruct Hres as [[Hinf Hall]|[_ Hlt]].
  - specialize (Hall v Hin). float_keys. rewrite Hv in Hall. exfalso. apply Hall. cbn. lia.
  - float_keys. rewrite Hv in Hlow. key_cases (minFinite args); [|key_solve].
    cbn [klt] in *. assert (c = -2)%Z by lia.
    match goal with H0 : _ \/ _ -> _ /\ _ |- _ => destruct H0 as [-> ->]; [right; assumption|] end.
    subst. reflexivity.
Qed.

Lemma maxFinite_infinity args v :
  In v args -> fkey v = Some (2, 0, 0)%Z -> fkey (maxFinite args) = Some (2, 0, 0)%Z.
Proof.
  intros Hin Hv. destruct (maxFinite_spec args) as [Hres Hhigh].
  specialize (Hhigh v Hin).
  destruct Hres as [[Hinf Hall]|[_ Hlt]].
  - specialize (Hall v Hin). float_keys. rewrite Hv in Hall. exfalso. apply Hall. cbn. lia.
  - float_keys. rewrite Hv in Hhigh. key_cases (maxFinite args); [|key_solve].
    cbn [klt] in *. assert (c = 2)%Z by lia.
    match goal with H0 : _ \/ _ -> _ /\ _ |- _ => destruct H0 as [-> ->]; [left; assumption|] end.
    subst. reflexivity.
Qed.

Lemma infinite_sample_reaches_up raster w h X Y :
  X < w -> Y < h -> PrimFloat.is_infinity (sample raster w X Y) = true ->
  forall k L, levels (new_ContourMipmap raster w h) !! k = Some L ->
    covers w h L /\
    (fkey (cell_min L (X / scale L) (Y / scale L)) = Some (-2, 0, 0)%Z \/
     fkey (cell_max L (X / scale L) (Y / scale L)) = Some (2, 0, 0)%Z).
Proof.
  intros HX HY Hinf. destruct (pyramid_chain raster w h) as [Hc Hl].
  apply (chain_levels_ind _ _ _ Hc Hl).
  - split; [apply covers_base|]. cbn [base_level scale]. rewrite !Nat.div_1_r.
    unfold cell_min, cell_max. cbn [base_level min max width].
    unfold sample in Hinf. rewrite (Nat.mul_comm Y w) in Hinf.
    apply is_infinity_key in Hinf. tauto.
  - intros L [Hcov HP]. split; [apply covers_reduce, Hcov|].
    pose proof (covers_reduce w h L Hcov) as (_ & Hcx & Hcy).
    cbn [mipmapReduce scale width height] in Hcx, Hcy |- *.
    destruct (mipmapReduce_cell L (X / (scale L * 2)) (Y / (scale L * 2)))
      as [-> ->]; [apply Hcx, HX|apply Hcy, HY|].
    assert (Hchild : In (X / scale L, Y / scale L)
                       (children_in L (X / (scale L * 2)) (Y / (scale L * 2)))).
    { apply children_in_spec. destruct Hcov as (_ & Hx & Hy).
      rewrite <- !Nat.Div0.div_div. auto. }
    destruct HP as [Hmin|Hmax].
    + left.
      assert (K : fkey (minFinite (map (fun c => cell_min L (fst c) (snd c))
                   (children_in L (X / (scale L * 2)) (Y / (scale L * 2)))))
                  = Some (-2, 0, 0)%Z).
      { eapply minFinite_neg_infinity; [|exact Hmin].
        apply (in_map (fun c => cell_min L (fst c) (snd c)) _ _ Hchild). }
      rewrite fround_infinite; [exact K|right; exact K].
    + right.
      assert (K : fkey (maxFinite (map (fun c => cell_max L (fst c) (snd c))
                   (children_in L (X / (scale L * 2)) (Y / (scale L * 2)))))
                  = Some (2, 0, 0)%Z).
      { eapply maxFinite_infinity; [|exact Hmax].
        apply (in_map (fun c => cell_max L (fst c) (snd c)) _ _ Hchild). }
      rewrite fround_infinite; [exact K|left; exact K].
Qed.

Lemma infinite_key_not_finite x :
  fkey x = Some (-2, 0, 0)%Z \/ fkey x = Some (2, 0, 0)%Z -> PrimFloat.is_finite x = false.
Proof.
  intros H. destruct (PrimFloat.is_finite x) eqn:E; [|reflexivity].
  apply is_finite_key in E. destruct E as (c & e & m & E & Hc).
  destruct H as [H|H]; rewrite H in E; inversion E; lia.
Qed.

(** X15. One infinite sample anywhere in the raster silences it: the reducers
    skip NaN but not infinities, so -Infinity rises through the minima (and
    +Infinity through the maxima) up to the root, the root is OUTSIDE, and
    [contour] returns the empty list for every threshold and all options. *)
Theorem contour_empty_with_infinite_sample raster w h X Y t opts fuel hp :
  X < w -> Y < h -> PrimFloat.is_infinity (sample raster w X Y) = true ->
  1 <= fuel ->
  contour (new_ContourMipmap raster w h) t opts fuel hp = (Ok [], hp).
Proof.
  intros HX HY Hinf Hf. set (this := new_ContourMipmap raster w h).
  destruct (unshift_levels_done (w + h) (base_level raster w h) [])
    as (top & rest & Etop & Hw1 & Hh1 & _); [cbn; lia|].
  assert (HL : levels this !! 0 = Some top).
  { unfold this, new_ContourMipmap. cbn [levels].
    change {| min := raster; max := raster; width := w; height := h; scale := 1 |}
      with (base_level raster w h). rewrite Etop. reflexivity. }
  destruct (infinite_sample_reaches_up raster w h X Y HX HY Hinf 0 top HL)
    as [(_ & Hcx & Hcy) HP].
  specialize (Hcx X HX). specialize (Hcy Y HY).
  assert (X / scale top = 0) as EX by lia. assert (Y / scale top = 0) as EY by lia.
  rewrite EX, EY in HP.
  assert (He : exists e, evaluate this t (effective_max this (maxMipmapLevel opts)) 0 0 0
                         = Ok e /\ e <> WITHIN).
  { unfold evaluate. rewrite HL.
    change (getf (min top) (width top * 0 + 0)) with (cell_min top 0 0).
    change (getf (max top) (width top * 0 + 0)) with (cell_max top 0 0).
    destruct (_ <=? _); [eexists; split; [reflexivity|discriminate]|].
    destruct (_ <=? _); [eexists; split; [reflexivity|discriminate]|]. cbn [orb].
    destruct HP as [Hmin|Hmax].
    - rewrite (infinite_key_not_finite (cell_min top 0 0)) by (left; exact Hmin).
      cbn [negb orb]. eexists; split; [reflexivity|discriminate].
    - rewrite (infinite_key_not_finite (cell_max top 0 0)) by (right; exact Hmax).
      rewrite orb_true_r. eexists; split; [reflexivity|discriminate]. }
  destruct He as (e & He & Hne). eapply contour_no_lines; eassumption.
Qed.

Lemma contour_empty_with_infinite_sample_witness :
  contour (new_ContourMipmap raster_inf 2 2) 2 default_opts 1 [] = (Ok [], []).
Proof.
  apply (contour_empty_with_infinite_sample raster_inf 2 2 1 0 2 default_opts 1 []);
    [lia|lia|reflexivity|lia].
Defined.

(** * Steps [intervals] accepts *)

Lemma mul_nan_r x y : PrimFloat.is_nan y = true -> PrimFloat.is_nan (x * y) = true.
Proof.
  intros H. apply is_nan_key in H. apply is_nan_key. unfold fkey in *.
  rewrite FloatAxioms.mul_spec. destruct (Prim2SF y) as [s|s| |s m e];
    try destruct s; try discriminate H.
  unfold SF64mul, SFmul. destruct (Prim2SF x); reflexivity.
Qed.

Lemma ltb_nan_l x y : PrimFloat.is_nan x = true -> (x <? y)%float = false.
Proof.
  intros H. apply is_nan_key in H. apply ltb_false_key. rewrite H. tauto.
Qed.

Lemma leb_nan_l x y : PrimFloat.is_nan x = true -> (x <=? y)%float = false.
Proof.
  intros H. apply is_nan_key in H. apply leb_false_key. rewrite H. tauto.
Qed.

Lemma intervals_loop_no_throw {F} (A : arith F) fuel max interval level acc e :
  intervals_loop A fuel max interval level acc <> Throw e.
Proof.
  revert level acc. induction fuel as [|fuel IH]; intros level acc; cbn [intervals_loop];
    [discriminate|].
  destruct (a_ltb A level max); [apply IH|discriminate].
Qed.

(** X16. [intervals] throws its "must be positive" error exactly when
    [interval <= 0] holds, whatever the pyramid; so a NaN interval is not
    rejected: on a pyramid with levels the call then returns the empty
    list. *)
Theorem intervals_rejects_only_nonpositive this fuel interval :
  (intervals this fuel interval = Throw InvalidArgument <->
   (interval <=? 0)%float = true) /\
  (PrimFloat.is_nan interval = true -> levels this <> [] -> 1 <= fuel ->
   intervals this fuel interval = Ok []).
Proof.
  split.
  - unfold intervals. destruct (interval <=? 0)%float eqn:E; [tauto|].
    split; [|discriminate]. unfold cm_min, cm_max.
    destruct (levels this) as [|top rest]; [discriminate|]. cbn [obind].
    unfold intervals_of. change (a_leb binary64 interval (a_zero binary64))
      with (interval <=? 0)%float. rewrite E.
    intros H. exfalso. eapply intervals_loop_no_throw, H.
  - intros Hnan Hl Hf. unfold intervals. rewrite (leb_nan_l _ _ Hnan).
    unfold cm_min, cm_max. destruct (levels this) as [|top rest]; [congruence|].
    cbn [obind]. unfold intervals_of.
    change (a_leb binary64 interval (a_zero binary64)) with (interval <=? 0)%float.
    rewrite (leb_nan_l _ _ Hnan). destruct fuel as [|fuel]; [lia|].
    cbn [intervals_loop]. change (a_ltb binary64) with PrimFloat.ltb.
    change (a_mul binary64) with PrimFloat.mul.
    rewrite ltb_nan_l; [reflexivity|]. apply mul_nan_r, Hnan.
Qed.

(** * Point keys *)

(** X9. [key] identifies points exactly as long as both coordinates are in
    [0, 65536): there the point can be read back from its key and two points
    with the same key are the same point; one step further
    [(65536, y)] and [(0, y + 1)] share a key. *)
Theorem key_round_trip :
  (forall p, in_range p -> ((key p mod 65536)%Z, (key p / 65536)%Z) = p) /\
  (forall p q, in_range p -> in_range q -> key p = key q -> p = q) /\
  (forall y, key (65536, y)%Z = key (0, y + 1)%Z).
Proof.
  split; [|split].
  - intros [x y] [Hx Hy]. unfold key. cbn [fst snd] in *.
    rewrite Z.mod_add, Z.div_add, Z.mod_small, Z.div_small by lia. f_equal.
  - intros [px py] [qx qy]. unfold in_range, key. cbn [fst snd].
    intros ? ? H. f_equal; lia.
  - intros y. unfold key. cbn [fst snd]. lia.
Qed.

(** * The no-data filter of the examples *)

Lemma removeNoDataValue_loop n buf :
  n <= length buf ->
  for_range n
    (fun i buf => if (getf buf i <? -1000)%float then store32 buf i PrimFloat.nan else buf)
    buf =
  map (fun v => if (v <? -1000)%float then PrimFloat.nan else v) (take n buf) ++ drop n buf.
Proof.
  induction n as [|n IH]; intros Hn.
  - unfold for_range. cbn. rewrite drop_0. reflexivity.
  - rewrite for_range_S, IH by lia.
    destruct (lookup_lt_is_Some_2 buf n) as [v Hv]; [lia|].
    assert (Hd : drop n buf = v :: drop (S n) buf).
    { apply drop_S. exact Hv. }
    assert (Hlen : length (map (fun v => if (v <? -1000)%float then PrimFloat.nan else v)
                           (take n buf)) = n).
    { rewrite length_map, length_take. lia. }
    assert (Hg : getf (map (fun v => if (v <? -1000)%float then PrimFloat.nan else v)
                    (take n buf) ++ drop n buf) n = v).
    { apply getf_lookup. rewrite lookup_app_r by lia. rewrite Hlen, Nat.sub_diag, Hd.
      reflexivity. }
    rewrite Hg, (take_S_r buf n v Hv), map_app, <- app_assoc. cbn [map app].
    destruct (v <? -1000)%float; [|rewrite Hd; reflexivity].
    unfold store32. rewrite Hd.
    replace n with (length (map (fun v => if (v <? -1000)%float then PrimFloat.nan else v)
                      (take n buf)) + 0) at 1 by lia.
    rewrite insert_app_r. reflexivity.
Qed.

(** X17. [removeNoDataValue] returns an array as long as the raster whose
    entry [i] is the raster's entry rounded to binary32, or NaN when that is
    below -1000; hence no entry of the result is below -1000 (-Infinity
    becomes NaN, +Infinity and NaN stay). *)
Theorem removeNoDataValue_spec raster :
  removeNoDataValue raster =
    map (fun v => if (fround v <? -1000)%float then PrimFloat.nan else fround v) raster /\
  length (removeNoDataValue raster) = length raster /\
  forall i v, removeNoDataValue raster !! i = Some v -> (v <? -1000)%float = false.
Proof.
  assert (E : removeNoDataValue raster =
              map (fun v => if (fround v <? -1000)%float then PrimFloat.nan else fround v)
                raster).
  { unfold removeNoDataValue. cbn zeta. rewrite removeNoDataValue_loop by lia.
    rewrite firstn_all, drop_all, app_nil_r, map_map. reflexivity. }
  split; [exact E|]. rewrite E. split; [apply length_map|].
  intros i v H. change (map ?f raster) with (f <$> raster) in H.
  rewrite list_lookup_fmap in H. destruct (raster !! i) as [u|]; [|discriminate].
  cbn in H. injection H as <-.
  destruct (fround u <? -1000)%float eqn:Hu; [reflexivity|exact Hu].
Qed.

(** * One reduction, cell by cell *)

Lemma children_in_nonempty L x y :
  x < ceil_half (width L) -> y < ceil_half (height L) -> children_in L x y <> [].
Proof.
  intros Hx Hy Hnil.
  assert (H : In (x * 2 + 0, y * 2 + 0) (children_in L x y)).
  { apply children_in_spec. unfold ceil_half in Hx, Hy.
    halves (width L). halves (height L).
    repeat split; try lia.
    - symmetry. apply (Nat.div_unique _ 2 x 0); lia.
    - symmetry. apply (Nat.div_unique _ 2 y 0); lia. }
  rewrite Hnil in H. destruct H.
Qed.

Lemma mipmapReduce_shape L :
  width (mipmapReduce L) = ceil_half (width L) /\
  height (mipmapReduce L) = ceil_half (height L) /\
  scale (mipmapReduce L) = scale L * 2 /\
  length (min (mipmapReduce L)) = width (mipmapReduce L) * height (mipmapReduce L) /\
  length (max (mipmapReduce L)) = width (mipmapReduce L) * height (mipmapReduce L).
Proof.
  destruct (reduceWith_spec (width L) (height L) (min L) minFinite) as [Hl1 _].
  destruct (reduceWith_spec (width L) (height L) (max L) maxFinite) as [Hl2 _].
  cbn [mipmapReduce width height scale min max].
  do 4 (split; [first [assumption|reflexivity]|]). assumption.
Qed.

(** X1. [mipmapReduce] halves width and height rounding up, doubles the
    scale, and fills arrays of exactly [width * height] entries: every cell
    of the result holds the binary32 rounding of [minFinite] (for [min]) and
    [maxFinite] (for [max]) over those of the cells [(2x..2x+1, 2y..2y+1)]
    that exist in the finer level, of which there is at least one. *)
Theorem mipmapReduce_fills_every_cell L :
  width (mipmapReduce L) = ceil_half (width L) /\
  height (mipmapReduce L) = ceil_half (height L) /\
  scale (mipmapReduce L) = scale L * 2 /\
  length (min (mipmapReduce L)) = width (mipmapReduce L) * height (mipmapReduce L) /\
  length (max (mipmapReduce L)) = width (mipmapReduce L) * height (mipmapReduce L) /\
  forall x y, x < width (mipmapReduce L) -> y < height (mipmapReduce L) ->
    children_in L x y <> [] /\
    (forall c, In c (children_in L x y) <->
               fst c < width L /\ snd c < height L /\ fst c / 2 = x /\ snd c / 2 = y) /\
    cell_min (mipmapReduce L) x y =
      fround (minFinite (map (fun c => cell_min L (fst c) (snd c)) (children_in L x y))) /\
    cell_max (mipmapReduce L) x y =
      fround (maxFinite (map (fun c => cell_max L (fst c) (snd c)) (children_in L x y))).
Proof.
  destruct (mipmapReduce_shape L) as (Ew & Eh & Es & El1 & El2).
  do 5 (split; [assumption|]). rewrite Ew, Eh.
  intros x y Hx Hy. split; [apply children_in_nonempty; assumption|].
  split; [intros [cx cy]; apply children_in_spec|].
  apply (mipmapReduce_cell L x y); assumption.
Qed.

(** * The geometry of the levels *)

Lemma chain_level_index lv b :
  reduced_chain lv -> last lv = Some b ->
  forall k L, lv !! k = Some L -> L = Nat.iter (length lv - 1 - k) mipmapReduce b.
Proof.
  intros Hc Hl. induction lv as [|a lv IH]; intros k L Hk; [discriminate|].
  destruct lv as [|a' lv].
  - destruct k; [|discriminate]. cbn in *. congruence.
  - assert (Hall : forall k L, (a' :: lv) !! k = Some L ->
                               L = Nat.iter (length (a' :: lv) - 1 - k) mipmapReduce b).
    { apply IH.
      - intros j x y Hx Hy. apply (Hc (S j)); assumption.
      - exact Hl. }
    destruct k as [|k].
    + cbn in Hk. injection Hk as <-.
      rewrite (Hc 0 a a' eq_refl eq_refl), (Hall 0 a' eq_refl).
      cbn [length]. replace (S (S (length lv)) - 1 - 0) with (S (S (length lv) - 1 - 0)) by lia.
      reflexivity.
    + cbn [length]. replace (S (S (length lv)) - 1 - S k) with (S (length lv) - 1 - k) by lia.
      apply (Hall k L Hk).
Qed.

Lemma ceil_div_half w s :
  1 <= s -> ceil_half ((w + s - 1) / s) = (w + s * 2 - 1) / (s * 2).
Proof.
  intros Hs. unfold ceil_half. rewrite <- Nat.Div0.div_div. f_equal.
  replace (w + s * 2 - 1) with (w + s - 1 + 1 * s) by lia.
  rewrite Nat.div_add by lia. reflexivity.
Qed.

Lemma iter_reduce_geometry raster w h j :
  let L := Nat.iter j mipmapReduce (base_level raster w h) in
  scale L = 2 ^ j /\
  width L = (w + scale L - 1) / scale L /\
  height L = (h + scale L - 1) / scale L /\
  (1 <= j -> length (min L) = width L * height L /\ length (max L) = width L * height L).
Proof.
  induction j as [|j IH]; cbn zeta.
  - cbn [Nat.iter nat_rect base_level scale width height]. rewrite !Nat.div_1_r.
    repeat split; try reflexivity; lia.
  - cbn zeta in IH. destruct IH as (Hs & Hw & Hh & _).
    change (Nat.iter (S j) mipmapReduce (base_level raster w h))
      with (mipmapReduce (Nat.iter j mipmapReduce (base_level raster w h))).
    set (L := Nat.iter j mipmapReduce (base_level raster w h)) in *.
    destruct (mipmapReduce_shape L) as (Ew & Eh & Es & El1 & El2).
    assert (Hpos : 1 <= scale L).
    { rewrite Hs. clear. induction j; cbn; lia. }
    rewrite Ew, Eh, Es in *. rewrite Hw at 1. rewrite Hh at 1.
    rewrite !ceil_div_half by exact Hpos.
    repeat split; try assumption.
    rewrite Hs, Nat.pow_succ_r'. lia.
Qed.

(** X2. The level at index [k] of a pyramid of [n] levels has scale
    [2 ^ (n - 1 - k)], is [ceil (width / scale)] cells wide and
    [ceil (height / scale)] cells high, and (unless it is the raster itself,
    at index [n - 1]) holds min and max arrays of exactly that many cells. *)
Theorem pyramid_level_geometry raster w h k L :
  levels (new_ContourMipmap raster w h) !! k = Some L ->
  let n := length (levels (new_ContourMipmap raster w h)) in
  scale L = 2 ^ (n - 1 - k) /\
  width L = (w + scale L - 1) / scale L /\
  height L = (h + scale L - 1) / scale L /\
  (S k < n -> length (min L) = width L * height L /\
              length (max L) = width L * height L) /\
  (S k = n -> L = base_level raster w h).
Proof.
  intros HL n. destruct (pyramid_chain raster w h) as [Hc Hl].
  pose proof (chain_level_index _ _ Hc Hl k L HL) as E. fold n in E.
  pose proof (iter_reduce_geometry raster w h (n - 1 - k)) as G. cbn zeta in G.
  rewrite <- E in G. destruct G as (Hs & Hw & Hh & Hlen).
  apply lookup_lt_Some in HL. fold n in HL.
  repeat split; try assumption; try (apply Hlen; lia).
  intros Hk. rewrite E. replace (n - 1 - k) with 0 by lia. reflexivity.
Qed.

Lemma pyramid_level_geometry_witness :
  let L := {| min := [1%float]; max := [4%float]; width := 1; height := 1; scale := 2 |} in
  let n := length (levels (new_ContourMipmap raster_2x2 2 2)) in
  scale L = 2 ^ (n - 1 - 0) /\
  width L = (2 + scale L - 1) / scale L /\
  height L = (2 + scale L - 1) / scale L /\
  (S 0 < n -> length (min L) = width L * height L /\
              length (max L) = width L * height L) /\
  (S 0 = n -> L = base_level raster_2x2 2 2).
Proof.
  apply (pyramid_level_geometry raster_2x2 2 2 0). reflexivity.
Defined.

(** * Lines follow the segments *)

Lemma chain_app all c d :
  chain all c -> chain all d -> c <> [] -> d <> [] ->
  In {| start := last_point c; end_ := first_point d |} all ->
  chain all (c ++ d).
Proof.
  intros Hc Hd Hnc Hnd Hin. induction c as [|p c IH]; [congruence|].
  destruct c as [|p' c].
  - destruct d as [|q d]; [congruence|]. cbn [app chain]. split; [exact Hin|exact Hd].
  - cbn [app chain] in *. destruct Hc as [Hpp Hc]. split; [exact Hpp|].
    apply IH; [exact Hc|discriminate|].
    rewrite last_point_cons in Hin by discriminate. exact Hin.
Qed.

Lemma chain_cons all p c :
  chain all c -> c <> [] -> In {| start := p; end_ := first_point c |} all ->
  chain all (p :: c).
Proof.
  intros Hc Hne Hin. destruct c as [|q c]; [congruence|]. cbn [chain]. split; assumption.
Qed.

Lemma last_point_In c : c <> [] -> In (last_point c) c.
Proof.
  induction c as [|p c IH]; [congruence|]. intros _. destruct c as [|q c].
  - left. reflexivity.
  - right. rewrite last_point_cons by discriminate. apply IH. discriminate.
Qed.

Lemma first_point_In c : c <> [] -> In (first_point c) c.
Proof. destruct c; [congruence|]. left. reflexivity. Qed.

Lemma stitch_segment_chain all st s :
  stitch_inv st -> (forall r, chain all (deref (store st) r)) ->
  segment_in_range s -> In s all ->
  forall r, chain all (deref (store (stitch_segment st s)) r).
Proof.
  intros [Hfirst Hlast _ Hrange] Hch [Hs He] Hin. unfold stitch_segment.
  assert (Hseg : {| start := start s; end_ := end_ s |} = s) by (destruct s; reflexivity).
  assert (Hend : forall a, map_get (key (start s)) (fragmentEnd st) = Some a ->
                           a < length (store st) /\ deref (store st) a <> [] /\
                           last_point (deref (store st) a) = start s).
  { intros a Ea. destruct (Hlast _ _ Ea) as (Va & Na & Ka). split; [exact Va|].
    split; [exact Na|].
    apply key_inj; [|exact Hs|exact Ka]. apply (Hrange a), last_point_In, Na. }
  assert (Hsta : forall b, map_get (key (end_ s)) (fragmentStart st) = Some b ->
                           b < length (store st) /\ deref (store st) b <> [] /\
                           first_point (deref (store st) b) = end_ s).
  { intros b Eb. destruct (Hfirst _ _ Eb) as (Vb & Nb & Kb). split; [exact Vb|].
    split; [exact Nb|].
    apply key_inj; [|exact He|exact Kb]. apply (Hrange b), first_point_In, Nb. }
  assert (Hpush : forall a, map_get (key (start s)) (fragmentEnd st) = Some a ->
                            forall r, chain all (deref (array_push (store st) a (end_ s)) r)).
  { intros a Ea r. destruct (Hend a Ea) as (Va & Na & La). unfold array_push.
    rewrite deref_insert by exact Va. destruct (decide (r = a)); [|apply Hch].
    apply chain_app; [apply Hch|exact I|exact Na|discriminate|].
    rewrite La. cbn [first_point hd]. rewrite Hseg. exact Hin. }
  destruct (map_get (key (start s)) (fragmentEnd st)) as [a|] eqn:Ea;
    destruct (map_get (key (end_ s)) (fragmentStart st)) as [b|] eqn:Eb.
  - destruct (a =? b); cbn [store]; [apply Hpush; reflexivity|].
    destruct (Hend a eq_refl) as (Va & Na & La). destruct (Hsta b eq_refl) as (Vb & Nb & Fb).
    intros r. rewrite deref_alloc. destruct (decide _); [|apply Hch].
    apply chain_app; try assumption; try apply Hch.
    rewrite La, Fb, Hseg. exact Hin.
  - cbn [store]. apply Hpush. reflexivity.
  - cbn [store]. destruct (Hsta b eq_refl) as (Vb & Nb & Fb). unfold array_unshift.
    intros r. rewrite deref_insert by exact Vb. destruct (decide (r = b)); [|apply Hch].
    apply chain_cons; [apply Hch|exact Nb|]. rewrite Fb, Hseg. exact Hin.
  - cbn [store]. intros r. rewrite deref_alloc. destruct (decide _); [|apply Hch].
    cbn. rewrite Hseg. split; [exact Hin|exact I].
Qed.

Lemma stitch_chain all segments :
  Forall (fun s => segment_in_range s /\ In s all) segments ->
  forall r, chain all (deref (store (stitch [] segments)) r).
Proof.
  unfold stitch.
  assert (H0 : forall r, chain all (deref (store (stitch_init [])) r)).
  { intros r. cbn. exact I. }
  revert H0. generalize stitch_inv_init. generalize (stitch_init []).
  induction segments as [|s segments IH]; intros st Hinv Hch Hall; cbn [fold_left];
    [exact Hch|].
  inversion Hall as [|? ? [Hr Hin] Hall']; subst.
  apply IH; [| |exact Hall'].
  - apply check_sizes_inv, stitch_segment_inv; assumption.
  - unfold stitch_step.
    destruct (check_sizes_fields (stitch_segment st s)) as (_ & _ & _ & ->).
    apply stitch_segment_chain; assumption.
Qed.

(** X10. While coordinates fit the key base the stitcher never invents a
    connection: in every line and ring it returns, each point is joined to
    the next by one of the input segments, from its start to its end. *)
Theorem stitched_lines_follow_segments h segments :
  Forall segment_in_range segments ->
  Forall (chain segments) (stitched_lines (stitch h segments)).
Proof.
  intros Hr. rewrite stitch_shift, stitched_lines_shift.
  assert (Hst : forall r, chain segments (deref (store (stitch [] segments)) r)).
  { apply stitch_chain. rewrite List.Forall_forall in *. intros s Hs. auto. }
  unfold stitched_lines. apply Forall_map, List.Forall_forall. intros r _.
  cbn. apply Hst.
Qed.

Lemma stitched_lines_follow_segments_witness :
  Forall (chain peak_segments) (stitched_lines (stitch [] peak_segments)).
Proof.
  apply (stitched_lines_follow_segments [] peak_segments).
  repeat constructor; cbn; lia.
Defined.

(** * Min and max are exact *)

Lemma leb_refl_finite x : PrimFloat.is_finite x = true -> (x <=? x)%float = true.
Proof. intros. float_keys. key_cases x; key_solve. Qed.

Lemma minFinite_not_nan args : PrimFloat.is_nan (minFinite args) = false.
Proof.
  destruct (minFinite_spec args) as [[[-> _]|[_ Hlt]] _]; [reflexivity|].
  apply (ltb_not_nan _ _ Hlt).
Qed.

Lemma maxFinite_not_nan args : PrimFloat.is_nan (maxFinite args) = false.
Proof.
  destruct (maxFinite_spec args) as [[[-> _]|[_ Hlt]] _]; [reflexivity|].
  apply (ltb_not_nan _ _ Hlt).
Qed.

Lemma minFinite_float32 args :
  Forall is_float32 args -> is_float32 (minFinite args).
Proof.
  intros H. destruct (minFinite_spec args) as [[[-> _]|[Hin _]] _];
    [apply is_float32_infinity|]. rewrite List.Forall_forall in H. apply H, Hin.
Qed.

Lemma maxFinite_float32 args :
  Forall is_float32 args -> is_float32 (maxFinite args).
Proof.
  intros H. destruct (maxFinite_spec args) as [[[-> _]|[Hin _]] _];
    [apply is_float32_neg_infinity|]. rewrite List.Forall_forall in H. apply H, Hin.
Qed.

Lemma extent_ok_base raster w h x y :
  x < w -> y < h -> extent_ok raster w h (base_level raster w h) x y.
Proof.
  intros Hx Hy. unfold extent_ok, in_footprint, cell_min, cell_max, sample.
  cbn [base_level min max width scale]. rewrite (Nat.mul_comm w y).
  split; [|split].
  - intros X Y (_ & _ & EX & EY) Hfin. rewrite Nat.div_1_r in EX, EY. subst.
    split; apply leb_refl_finite, Hfin.
  - intros _. exists x, y. rewrite !Nat.div_1_r. auto.
  - intros _. exists x, y. rewrite !Nat.div_1_r. auto.
Qed.

Lemma extent_ok_reduce raster w h L :
  covers w h L -> level_ok L ->
  (forall x y, x < width L -> y < height L -> extent_ok raster w h L x y) ->
  forall x y, x < width (mipmapReduce L) -> y < height (mipmapReduce L) ->
    extent_ok raster w h (mipmapReduce L) x y.
Proof.
  intros Hcov Hok HL x y Hx Hy. cbn [mipmapReduce width height] in Hx, Hy.
  unfold extent_ok. destruct (mipmapReduce_cell L x y Hx Hy) as [-> ->].
  set (cs := children_in L x y).
  set (mins := map (fun c => cell_min L (fst c) (snd c)) cs).
  set (maxs := map (fun c => cell_max L (fst c) (snd c)) cs).
  assert (Hcs : forall c, In c cs ->
            fst c < width L /\ snd c < height L /\
            In (cell_min L (fst c) (snd c)) mins /\ In (cell_max L (fst c) (snd c)) maxs).
  { intros [cx cy] Hc. pose proof Hc as Hc'. apply children_in_spec in Hc'.
    cbn [fst snd]. repeat split; try tauto; apply in_map_iff; eexists; split; eauto;
      reflexivity. }
  assert (Fmin : fround (minFinite mins) = minFinite mins).
  { apply minFinite_float32, Forall_map, List.Forall_forall. intros c _. cbn.
    apply (Hok (width L * snd c + fst c)). }
  assert (Fmax : fround (maxFinite maxs) = maxFinite maxs).
  { apply maxFinite_float32, Forall_map, List.Forall_forall. intros c _. cbn.
    apply (Hok (width L * snd c + fst c)). }
  rewrite Fmin, Fmax.
  destruct (minFinite_spec mins) as [Hmin Hminall].
  destruct (maxFinite_spec maxs) as [Hmax Hmaxall].
  split; [|split].
  - intros X Y Hfp Hfin. apply footprint_child in Hfp; [|exact Hcov].
    destruct Hfp as (c & Hc & Hfp). destruct (Hcs c Hc) as (Hcx & Hcy & Hin1 & Hin2).
    destruct (HL _ _ Hcx Hcy) as [Hb _]. destruct (Hb X Y Hfp Hfin) as [Hlo Hhi].
    split.
    + eapply leb_trans; [|exact Hlo].
      destruct (ltb_or_leb (cell_min L (fst c) (snd c)) (minFinite mins)) as [E|E];
        [apply (leb_not_nan _ _ Hlo)|apply minFinite_not_nan| |exact E].
      rewrite (Hminall _ Hin1) in E. discriminate.
    + eapply leb_trans; [exact Hhi|].
      destruct (ltb_or_leb (maxFinite maxs) (cell_max L (fst c) (snd c))) as [E|E];
        [apply maxFinite_not_nan|apply (leb_not_nan _ _ Hhi)| |exact E].
      rewrite (Hmaxall _ Hin2) in E. discriminate.
  - intros Hfin. destruct Hmin as [[E _]|[Hin _]]; [rewrite E in Hfin; discriminate|].
    apply In_map_children in Hin. destruct Hin as (c & Hc & E).
    destruct (Hcs c Hc) as (Hcx & Hcy & _). destruct (HL _ _ Hcx Hcy) as (_ & Hat & _).
    rewrite E in Hfin |- *. destruct (Hat Hfin) as (X & Y & Hfp & HXY).
    exists X, Y. split; [|exact HXY]. apply footprint_child; [exact Hcov|]. eauto.
  - intros Hfin. destruct Hmax as [[E _]|[Hin _]]; [rewrite E in Hfin; discriminate|].
    apply In_map_children in Hin. destruct Hin as (c & Hc & E).
    destruct (Hcs c Hc) as (Hcx & Hcy & _). destruct (HL _ _ Hcx Hcy) as (_ & _ & Hat).
    rewrite E in Hfin |- *. destruct (Hat Hfin) as (X & Y & Hfp & HXY).
    exists X, Y. split; [|exact HXY]. apply footprint_child; [exact Hcov|]. eauto.
Qed.

Lemma pyramid_extent_ok raster w h k L :
  Forall is_float32 raster ->
  levels (new_ContourMipmap raster w h) !! k = Some L ->
  covers w h L /\
  forall x y, x < width L -> y < height L -> extent_ok raster w h L x y.
Proof.
  intros Hf HL.
  enough (G : covers w h L /\ level_ok L /\
              forall x y, x < width L -> y < height L -> extent_ok raster w h L x y)
    by tauto.
  revert k L HL. destruct (pyramid_chain raster w h) as [Hc Hl].
  apply (chain_levels_ind _ _ _ Hc Hl).
  - split; [apply covers_base|]. split; [apply base_level_ok, Hf|].
    intros x y Hx Hy. apply extent_ok_base; assumption.
  - intros L (Hcov & Hok & HL). split; [apply covers_reduce, Hcov|].
    split; [apply mipmapReduce_level_ok, Hok|].
    apply extent_ok_reduce; assumption.
Qed.

(** X3. For a raster of binary32 values, the min and max of every cell of
    every level are exact for the samples under the cell: min is at most and
    max at least every finite sample of the footprint, and each of them,
    when finite, is the value of a sample of the footprint. *)
Theorem pyramid_min_max_exact raster w h k L x y :
  Forall is_float32 raster ->
  levels (new_ContourMipmap raster w h) !! k = Some L ->
  x < width L -> y < height L ->
  extent_ok raster w h L x y.
Proof.
  intros Hf HL Hx Hy. apply (pyramid_extent_ok raster w h k L Hf HL); assumption.
Qed.

Lemma pyramid_min_max_exact_witness :
  extent_ok raster_2x2 2 2
    {| min := [1%float]; max := [4%float]; width := 1; height := 1; scale := 2 |} 0 0.
Proof.
  apply (pyramid_min_max_exact raster_2x2 2 2 0); [|reflexivity|cbn; lia|cbn; lia].
  repeat constructor.
Defined.

(** X4. For a raster of binary32 values with at least one row and one column,
    [min ()] is at most and [max ()] at least every finite sample of the
    raster, and each of them, when finite, is one of the raster's samples. *)
Theorem min_max_of_raster raster w h mn mx :
  Forall is_float32 raster -> 1 <= w -> 1 <= h ->
  cm_min (new_ContourMipmap raster w h) = Ok mn ->
  cm_max (new_ContourMipmap raster w h) = Ok mx ->
  (forall X Y, X < w -> Y < h -> PrimFloat.is_finite (sample raster w X Y) = true ->
     (mn <=? sample raster w X Y)%float = true /\
     (sample raster w X Y <=? mx)%float = true) /\
  (PrimFloat.is_finite mn = true ->
     exists X Y, X < w /\ Y < h /\ sample raster w X Y = mn) /\
  (PrimFloat.is_finite mx = true ->
     exists X Y, X < w /\ Y < h /\ sample raster w X Y = mx).
Proof.
  intros Hf Hw Hh Hmn Hmx.
  destruct (unshift_levels_done (w + h) (base_level raster w h) [])
    as (top & rest & Etop & Hw1 & Hh1 & Hw0 & Hh0); [cbn; lia|].
  cbn [base_level width height] in Hw0, Hh0. specialize (Hw0 Hw). specialize (Hh0 Hh).
  assert (El : levels (new_ContourMipmap raster w h) = top :: rest).
  { unfold new_ContourMipmap. cbn [levels]. exact Etop. }
  unfold cm_min, cm_max in Hmn, Hmx. rewrite El in Hmn, Hmx.
  injection Hmn as <-. injection Hmx as <-.
  destruct (pyramid_extent_ok raster w h 0 top Hf) as [(Hs & Hcx & Hcy) Hext];
    [rewrite El; reflexivity|].
  destruct (Hext 0 0) as (Hb & Hlo & Hhi); [lia|lia|].
  unfold cell_min, cell_max in Hb, Hlo, Hhi. rewrite Nat.mul_0_r in Hb, Hlo, Hhi.
  cbn [Nat.add] in Hb, Hlo, Hhi.
  assert (Hfp : forall X Y, X < w -> Y < h -> in_footprint w h top 0 0 X Y).
  { intros X Y HX HY. specialize (Hcx X HX). specialize (Hcy Y HY).
    unfold in_footprint. repeat split; try assumption; lia. }
  split; [|split].
  - intros X Y HX HY Hfin. apply Hb; [apply Hfp; assumption|exact Hfin].
  - intros Hfin. destruct (Hlo Hfin) as (X & Y & (HX & HY & _) & E). eauto.
  - intros Hfin. destruct (Hhi Hfin) as (X & Y & (HX & HY & _) & E). eauto.
Qed.

Lemma min_max_of_raster_witness :
  (forall X Y, X < 2 -> Y < 2 -> PrimFloat.is_finite (sample raster_2x2 2 X Y) = true ->
     (1 <=? sample raster_2x2 2 X Y)%float = true /\
     (sample raster_2x2 2 X Y <=? 4)%float = true) /\
  (PrimFloat.is_finite 1 = true ->
     exists X Y, X < 2 /\ Y < 2 /\ sample raster_2x2 2 X Y = 1%float) /\
  (PrimFloat.is_finite 4 = true ->
     exists X Y, X < 2 /\ Y < 2 /\ sample raster_2x2 2 X Y = 4%float).
Proof.
  apply (min_max_of_raster raster_2x2 2 2 1 4); try reflexivity; try lia.
  repeat constructor.
Defined.

(** * Classes and samples *)

Lemma evaluate_inside this t cap l x y e :
  evaluate this t cap l x y = Ok e -> e <> OUTSIDE ->
  exists ml, levels this !! l = Some ml /\ x < width ml /\ y < height ml /\
    PrimFloat.is_finite (cell_min ml x y) = true /\
    PrimFloat.is_finite (cell_max ml x y) = true /\
    e = if (t <=? cell_min ml x y)%float then ABOVE
        else if (cell_max ml x y <? t)%float then BELOW
        else if cap <=? l then ABOVE else WITHIN.
Proof.
  unfold evaluate, cell_min, cell_max. intros H Hne.
  destruct (levels this !! l) as [ml|]; [|discriminate]. exists ml.
  destruct (Nat.leb_spec (width ml) x); cbn [orb] in H; [congruence|].
  destruct (Nat.leb_spec (height ml) y); cbn [orb] in H; [congruence|].
  destruct (PrimFloat.is_finite (getf (min ml) (width ml * y + x))) eqn:F1;
    cbn [negb orb] in H; [|congruence].
  destruct (PrimFloat.is_finite (getf (max ml) (width ml * y + x))) eqn:F2;
    cbn [negb orb] in H; [|congruence].
  repeat split; try assumption.
  repeat match goal with |- context [if ?b then _ else _] => destruct b end; congruence.
Qed.

Lemma leb_ltb_trans x y z :
  (x <=? y)%float = true -> (y <? z)%float = true -> (x <? z)%float = true.
Proof. intros. float_keys. key_cases x; key_cases y; key_cases z; key_solve. Qed.

(** X5. On a raster of binary32 values the classes say what the samples
    are.  Under a cell that is BELOW every finite sample is below the
    threshold; under a cell that is ABOVE at a level the depth cap does not
    reach, every finite sample is at or above it; and a cell that is WITHIN
    for a threshold that is a number has a sample below the threshold and a
    sample at or above it: pruning hides no crossing, and every subdivision
    is needed. *)
Theorem classes_match_samples raster w h t cap l x y e :
  Forall is_float32 raster ->
  evaluate (new_ContourMipmap raster w h) t cap l x y = Ok e ->
  exists L, levels (new_ContourMipmap raster w h) !! l = Some L /\
    (e = BELOW ->
     forall X Y, in_footprint w h L x y X Y ->
       PrimFloat.is_finite (sample raster w X Y) = true ->
       (sample raster w X Y <? t)%float = true) /\
    (e = ABOVE -> l < cap ->
     forall X Y, in_footprint w h L x y X Y ->
       PrimFloat.is_finite (sample raster w X Y) = true ->
       (t <=? sample raster w X Y)%float = true) /\
    (e = WITHIN -> PrimFloat.is_nan t = false ->
     exists X1 Y1 X2 Y2,
       in_footprint w h L x y X1 Y1 /\ in_footprint w h L x y X2 Y2 /\
       (sample raster w X1 Y1 <? t)%float = true /\
       (t <=? sample raster w X2 Y2)%float = true).
Proof.
  intros Hf He. unfold evaluate in He.
  destruct (levels (new_ContourMipmap raster w h) !! l) as [L|] eqn:HL; [|discriminate].
  exists L. split; [reflexivity|].
  assert (He' : evaluate (new_ContourMipmap raster w h) t cap l x y = Ok e)
    by (unfold evaluate; rewrite HL; exact He).
  clear He. split; [|split].
  - intros ->. destruct (evaluate_inside _ _ _ _ _ _ _ He') as (ml & Hml & Hx & Hy & _ & _ & E);
      [discriminate|]. assert (ml = L) as -> by congruence.
    destruct (pyramid_extent_ok raster w h l L Hf HL) as [_ Hext].
    destruct (Hext x y Hx Hy) as (Hb & _).
    intros X Y Hfp Hfin. destruct (Hb X Y Hfp Hfin) as [_ Hhi].
    destruct (t <=? cell_min L x y)%float; [discriminate|].
    destruct (cell_max L x y <? t)%float eqn:Emax;
      [|destruct (cap <=? l); discriminate].
    eapply leb_ltb_trans; eassumption.
  - intros -> Hcap.
    destruct (evaluate_inside _ _ _ _ _ _ _ He') as (ml & Hml & Hx & Hy & _ & _ & E);
      [discriminate|]. assert (ml = L) as -> by congruence.
    destruct (pyramid_extent_ok raster w h l L Hf HL) as [_ Hext].
    destruct (Hext x y Hx Hy) as (Hb & _).
    intros X Y Hfp Hfin. destruct (Hb X Y Hfp Hfin) as [Hlo _].
    destruct (t <=? cell_min L x y)%float eqn:Emin.
    + eapply leb_trans; eassumption.
    + destruct (cell_max L x y <? t)%float; [discriminate|].
      destruct (Nat.leb_spec cap l); [lia|discriminate].
  - intros -> Ht.
    destruct (evaluate_inside _ _ _ _ _ _ _ He') as (ml & Hml & Hx & Hy & Fmin & Fmax & E);
      [discriminate|]. assert (ml = L) as -> by congruence.
    destruct (pyramid_extent_ok raster w h l L Hf HL) as [_ Hext].
    destruct (Hext x y Hx Hy) as (_ & Hlo & Hhi).
    destruct (Hlo Fmin) as (X1 & Y1 & Hfp1 & E1).
    destruct (Hhi Fmax) as (X2 & Y2 & Hfp2 & E2).
    exists X1, Y1, X2, Y2. rewrite E1, E2.
    split; [exact Hfp1|split; [exact Hfp2|split]].
    + destruct (t <=? cell_min L x y)%float eqn:Emin; [discriminate|].
      apply leb_false_ltb; [exact Ht|apply is_finite_not_nan, Fmin|exact Emin].
    + destruct (t <=? cell_min L x y)%float; [discriminate|].
      destruct (cell_max L x y <? t)%float eqn:Emax; [discriminate|].
      destruct (ltb_or_leb (cell_max L x y) t) as [E'|E'];
        [apply is_finite_not_nan, Fmax|exact Ht|congruence|exact E'].
Qed.

Lemma contour_returns_witness :
  exists lines,
    fst (contour (new_ContourMipmap raster_peak 3 3) 3 default_opts
           (length (levels (new_ContourMipmap raster_peak 3 3))) []) = Ok lines /\
    Forall (fun r => 2 <= length r /\ minPoints default_opts <= length r /\
                     smoothKernelWidth default_opts * 2 <= length r) lines.
Proof. apply (contour_returns raster_peak 3 3 3 default_opts []). reflexivity. Defined.

Lemma classes_match_samples_witness :
  exists L, levels (new_ContourMipmap raster_2x2 2 2) !! 0 = Some L /\
    (WITHIN = BELOW ->
     forall X Y, in_footprint 2 2 L 0 0 X Y ->
       PrimFloat.is_finite (sample raster_2x2 2 X Y) = true ->
       (sample raster_2x2 2 X Y <? 2.5)%float = true) /\
    (WITHIN = ABOVE -> 0 < 2 ->
     forall X Y, in_footprint 2 2 L 0 0 X Y ->
       PrimFloat.is_finite (sample raster_2x2 2 X Y) = true ->
       (2.5 <=? sample raster_2x2 2 X Y)%float = true) /\
    (WITHIN = WITHIN -> PrimFloat.is_nan 2.5 = false ->
     exists X1 Y1 X2 Y2,
       in_footprint 2 2 L 0 0 X1 Y1 /\ in_footprint 2 2 L 0 0 X2 Y2 /\
       (sample raster_2x2 2 X1 Y1 <? 2.5)%float = true /\
       (2.5 <=? sample raster_2x2 2 X2 Y2)%float = true).
Proof.
  apply (classes_match_samples raster_2x2 2 2 2.5 2 0 0 0 WITHIN).
  - repeat constructor.
  - reflexivity.
Defined.

(** * When the two maps keep the same size *)

Lemma map_get_None_keys k m : map_get k m = None <-> ~ In k (map fst m).
Proof.
  induction m as [|[k' v] m IH]; cbn [map_get map fst In]; [tauto|].
  destruct (Z.eqb_spec k' k) as [->|Hne]; split; intros H; try discriminate.
  - exfalso. apply H. left. reflexivity.
  - intros [E|E]; [congruence|]. apply IH in H. contradiction.
  - apply IH. intros E. apply H. right. exact E.
Qed.

Lemma map_set_keys k v m :
  map fst (map_set k v m) = match map_get k m with Some _ => map fst m | None => map fst m ++ [k] end.
Proof.
  induction m as [|[k' v'] m IH]; cbn [map_set map_get map fst app]; [reflexivity|].
  destruct (Z.eqb_spec k' k) as [->|Hne]; cbn [map fst]; [reflexivity|].
  rewrite IH. destruct (map_get k m); reflexivity.
Qed.

Lemma map_set_size k v m :
  map_size (map_set k v m) = match map_get k m with Some _ => map_size m | None => S (map_size m) end.
Proof.
  unfold map_size. rewrite <- !(length_map fst), map_set_keys.
  destruct (map_get k m); [reflexivity|]. rewrite length_app. cbn. lia.
Qed.

Lemma map_set_NoDup k v m : NoDup (map fst m) -> NoDup (map fst (map_set k v m)).
Proof.
  intros H. rewrite map_set_keys. destruct (map_get k m) eqn:E; [exact H|].
  apply map_get_None_keys in E.
  apply NoDup_ListNoDup, List.NoDup_app; [apply NoDup_ListNoDup, H|repeat constructor; tauto|].
  intros x Hx [<-|[]]. contradiction.
Qed.

Lemma map_delete_NoDup k m : NoDup (map fst m) -> NoDup (map fst (map_delete k m)).
Proof.
  unfold map_delete. induction m as [|[k' v] m IH]; cbn [map fst List.filter];
    intros H; [exact H|].
  apply NoDup_cons in H. destruct H as [Hn H].
  destruct (negb (k' =? k)%Z); [|apply IH, H]. cbn [map fst].
  apply NoDup_cons. split; [|apply IH, H].
  intros Hin. apply Hn. apply list_elem_of_In in Hin. apply list_elem_of_In.
  apply in_map_iff in Hin. destruct Hin as (x & E & Hx). apply filter_In in Hx.
  apply in_map_iff. exists x. tauto.
Qed.

Lemma map_delete_size k v m :
  NoDup (map fst m) -> map_get k m = Some v -> S (map_size (map_delete k m)) = map_size m.
Proof.
  unfold map_size, map_delete.
  induction m as [|[k' v'] m IH]; cbn [map fst map_get List.filter length];
    intros H E; [discriminate|].
  cbn [fst] in *.
  apply NoDup_cons in H. destruct H as [Hn H].
  destruct (Z.eqb_spec k' k) as [->|Hne]; cbn [negb length].
  - f_equal. clear IH E. 
    assert (G : forall m' : jsmap, ~ In k (map fst m') ->
                List.filter (fun kv : Z * nat => negb (fst kv =? k)%Z) m' = m').
    { induction m' as [|[k0 v0] m' IHm]; cbn [map fst In List.filter]; intros Hk;
        [reflexivity|].
      destruct (Z.eqb_spec k0 k); [tauto|]. cbn [negb]. f_equal. apply IHm. tauto. }
    rewrite G; [reflexivity|]. intros Hin. apply Hn, list_elem_of_In, Hin.
  - f_equal. apply IH; assumption.
Qed.

Lemma check_sizes_paired done st : stitch_paired done st -> stitch_paired done (check_sizes st).
Proof.
  destruct (check_sizes_fields st) as (E1 & E2 & E3 & E4).
  intros [H1 H2 H3 H4 H5 H6 H7]. split; rewrite ?E1, ?E2, ?E3, ?E4; assumption.
Qed.

Lemma stitch_segment_paired done st s :
  stitch_inv st -> stitch_paired done st -> segment_in_range s ->
  ~ In (start s) (map start done) -> ~ In (end_ s) (map end_ done) ->
  stitch_paired (s :: done) (stitch_segment st s).
Proof.
  intros [Hfirst Hlast Hrings Hrange] [KS KE HZ SE ES PF PL] [Hs He] Ns Ne.
  assert (A1 : map_get (key (start s)) (fragmentStart st) = None).
  { destruct (map_get (key (start s)) (fragmentStart st)) as [r|] eqn:E; [|reflexivity].
    exfalso. apply Ns.
    destruct (Hfirst _ _ E) as (V & N & K). specialize (PF _ _ E).
    rewrite <- (key_inj _ _ (Hrange r _ (first_point_In _ N)) Hs K).
    exact PF. }
  assert (A2 : map_get (key (end_ s)) (fragmentEnd st) = None).
  { destruct (map_get (key (end_ s)) (fragmentEnd st)) as [r|] eqn:E; [|reflexivity].
    exfalso. apply Ne.
    destruct (Hlast _ _ E) as (V & N & K). specialize (PL _ _ E).
    rewrite <- (key_inj _ _ (Hrange r _ (last_point_In _ N)) He K).
    exact PL. }
  unfold stitch_segment.
  destruct (map_get (key (start s)) (fragmentEnd st)) as [a|] eqn:Ea;
    destruct (map_get (key (end_ s)) (fragmentStart st)) as [b|] eqn:Eb.
  - destruct (Hlast _ _ Ea) as (Va & Na & Ka). destruct (Hfirst _ _ Eb) as (Vb & Nb & Kb).
    destruct (Nat.eqb_spec a b) as [->|Hab].
    + (* Close a ring *)
      split; cbn [fragmentStart fragmentEnd rings store]; unfold array_push.
      * apply map_delete_NoDup, KS.
      * apply map_delete_NoDup, KE.
      * pose proof (map_delete_size _ _ _ KS Eb). pose proof (map_delete_size _ _ _ KE Ea). lia.
      * intros k r Hk. rewrite map_get_delete in Hk.
        destruct (Z.eqb_spec (key (end_ s)) k); [discriminate|].
        destruct (Hfirst _ _ Hk) as (V & N & K).
        assert (r <> b) by congruence.
        rewrite deref_insert by assumption. destruct (decide (r = b)); [contradiction|].
        rewrite map_get_delete. specialize (SE _ _ Hk).
        destruct (Z.eqb_spec (key (start s)) (key (last_point (deref (store st) r))));
          [congruence|exact SE].
      * intros k r Hk. rewrite map_get_delete in Hk.
        destruct (Z.eqb_spec (key (start s)) k); [discriminate|].
        destruct (Hlast _ _ Hk) as (V & N & K).
        assert (r <> b) by congruence.
        rewrite deref_insert by assumption. destruct (decide (r = b)); [contradiction|].
        rewrite map_get_delete. specialize (ES _ _ Hk).
        destruct (Z.eqb_spec (key (end_ s)) (key (first_point (deref (store st) r))));
          [congruence|exact ES].
      * intros k r Hk. rewrite map_get_delete in Hk.
        destruct (Z.eqb_spec (key (end_ s)) k); [discriminate|].
        destruct (Hfirst _ _ Hk) as (V & N & K).
        assert (r <> b) by congruence.
        rewrite deref_insert by assumption. destruct (decide (r = b)); [contradiction|].
        right. exact (PF _ _ Hk).
      * intros k r Hk. rewrite map_get_delete in Hk.
        destruct (Z.eqb_spec (key (start s)) k); [discriminate|].
        destruct (Hlast _ _ Hk) as (V & N & K).
        assert (r <> b) by congruence.
        rewrite deref_insert by assumption. destruct (decide (r = b)); [contradiction|].
        right. exact (PL _ _ Hk).
    + (* Join two lines together *)
      pose proof (ES _ _ Ea) as Fa. pose proof (SE _ _ Eb) as Lb.
      assert (Ha : first_point (deref (store st) a ++ deref (store st) b)
                   = first_point (deref (store st) a)) by (apply first_point_app, Na).
      assert (Hb : last_point (deref (store st) a ++ deref (store st) b)
                   = last_point (deref (store st) b)) by (apply last_point_app, Nb).
      assert (Fa' : map_get (key (first_point (deref (store st) a)))
                      (map_delete (key (end_ s)) (fragmentStart st)) = Some a).
      { rewrite map_get_delete.
        destruct (Z.eqb_spec (key (end_ s)) (key (first_point (deref (store st) a))));
          [congruence|exact Fa]. }
      assert (Lb' : map_get (key (last_point (deref (store st) b)))
                      (map_delete (key (start s)) (fragmentEnd st)) = Some b).
      { rewrite map_get_delete.
        destruct (Z.eqb_spec (key (start s)) (key (last_point (deref (store st) b))));
          [congruence|exact Lb]. }
      split; cbn [fragmentStart fragmentEnd rings store]; rewrite ?Ha, ?Hb.
      * apply map_set_NoDup, map_delete_NoDup, KS.
      * apply map_set_NoDup, map_delete_NoDup, KE.
      * rewrite !map_set_size, Fa', Lb'.
        pose proof (map_delete_size _ _ _ KS Eb). pose proof (map_delete_size _ _ _ KE Ea). lia.
      * intros k r Hk. rewrite map_get_set, map_get_delete in Hk.
        rewrite deref_alloc, map_get_set, map_get_delete.
        destruct (Z.eqb_spec (key (first_point (deref (store st) a))) k).
        { injection Hk as <-. destruct (decide _); [|congruence].
          rewrite Hb, Z.eqb_refl. reflexivity. }
        destruct (Z.eqb_spec (key (end_ s)) k); [discriminate|].
        destruct (Hfirst _ _ Hk) as (V & N & K).
        destruct (decide (r = length (store st))); [lia|].
        assert (r <> a) by congruence. assert (r <> b) by congruence.
        specialize (SE _ _ Hk).
        destruct (Z.eqb_spec (key (last_point (deref (store st) b)))
                    (key (last_point (deref (store st) r)))); [congruence|].
        destruct (Z.eqb_spec (key (start s)) (key (last_point (deref (store st) r))));
          [congruence|exact SE].
      * intros k r Hk. rewrite map_get_set, map_get_delete in Hk.
        rewrite deref_alloc, map_get_set, map_get_delete.
        destruct (Z.eqb_spec (key (last_point (deref (store st) b))) k).
        { injection Hk as <-. destruct (decide _); [|congruence].
          rewrite Ha, Z.eqb_refl. reflexivity. }
        destruct (Z.eqb_spec (key (start s)) k); [discriminate|].
        destruct (Hlast _ _ Hk) as (V & N & K).
        destruct (decide (r = length (store st))); [lia|].
        assert (r <> a) by congruence. assert (r <> b) by congruence.
        specialize (ES _ _ Hk).
        destruct (Z.eqb_spec (key (first_point (deref (store st) a)))
                    (key (first_point (deref (store st) r)))); [congruence|].
        destruct (Z.eqb_spec (key (end_ s)) (key (first_point (deref (store st) r))));
          [congruence|exact ES].
      * intros k r Hk. rewrite map_get_set, map_get_delete in Hk. rewrite deref_alloc.
        cbn [map]. right.
        destruct (Z.eqb_spec (key (first_point (deref (store st) a))) k).
        { injection Hk as <-. destruct (decide _); [|congruence].
          rewrite Ha. exact (PF _ _ Fa). }
        destruct (Z.eqb_spec (key (end_ s)) k); [discriminate|].
        destruct (Hfirst _ _ Hk) as (V & N & K).
        destruct (decide (r = length (store st))); [lia|]. exact (PF _ _ Hk).
      * intros k r Hk. rewrite map_get_set, map_get_delete in Hk. rewrite deref_alloc.
        cbn [map]. right.
        destruct (Z.eqb_spec (key (last_point (deref (store st) b))) k).
        { injection Hk as <-. destruct (decide _); [|congruence].
          rewrite Hb. exact (PL _ _ Lb). }
        destruct (Z.eqb_spec (key (start s)) k); [discriminate|].
        destruct (Hlast _ _ Hk) as (V & N & K).
        destruct (decide (r = length (store st))); [lia|]. exact (PL _ _ Hk).
  - (* Extend an existing line from the end *)
    destruct (Hlast _ _ Ea) as (Va & Na & Ka). pose proof (ES _ _ Ea) as Fa.
    assert (Ha : first_point (deref (store st) a ++ [end_ s])
                 = first_point (deref (store st) a)) by (apply first_point_app, Na).
    assert (Hb : last_point (deref (store st) a ++ [end_ s]) = end_ s)
      by (apply last_point_app; discriminate).
    assert (A2' : map_get (key (end_ s)) (map_delete (key (start s)) (fragmentEnd st)) = None).
    { rewrite map_get_delete. destruct (_ =? _)%Z; [reflexivity|exact A2]. }
    split; cbn [fragmentStart fragmentEnd rings store]; unfold array_push.
    + exact KS.
    + apply map_set_NoDup, map_delete_NoDup, KE.
    + rewrite map_set_size, A2'. pose proof (map_delete_size _ _ _ KE Ea). lia.
    + intros k r Hk. destruct (Hfirst _ _ Hk) as (V & N & K).
      rewrite deref_insert, map_get_set, map_get_delete by assumption.
      destruct (decide (r = a)) as [->|Hr].
      { rewrite Hb, Z.eqb_refl. reflexivity. }
      specialize (SE _ _ Hk).
      destruct (Z.eqb_spec (key (end_ s)) (key (last_point (deref (store st) r))));
        [congruence|].
      destruct (Z.eqb_spec (key (start s)) (key (last_point (deref (store st) r))));
        [congruence|exact SE].
    + intros k r Hk. rewrite map_get_set, map_get_delete in Hk.
      destruct (Z.eqb_spec (key (end_ s)) k).
      { injection Hk as <-. rewrite deref_insert by assumption.
        destruct (decide _); [|congruence]. rewrite Ha. exact Fa. }
      destruct (Z.eqb_spec (key (start s)) k); [discriminate|].
      destruct (Hlast _ _ Hk) as (V & N & K).
      rewrite deref_insert by assumption.
      destruct (decide (r = a)) as [->|Hr]; [congruence|]. exact (ES _ _ Hk).
    + intros k r Hk. destruct (Hfirst _ _ Hk) as (V & N & K).
      rewrite deref_insert by assumption. cbn [map]. right.
      destruct (decide (r = a)) as [->|Hr]; [rewrite Ha|]; exact (PF _ _ Hk).
    + intros k r Hk. rewrite map_get_set, map_get_delete in Hk. cbn [map].
      destruct (Z.eqb_spec (key (end_ s)) k).
      { injection Hk as <-. rewrite deref_insert by assumption.
        destruct (decide _); [|congruence]. rewrite Hb. left. reflexivity. }
      destruct (Z.eqb_spec (key (start s)) k); [discriminate|].
      destruct (Hlast _ _ Hk) as (V & N & K).
      rewrite deref_insert by assumption. right.
      destruct (decide (r = a)) as [->|Hr]; [congruence|]. exact (PL _ _ Hk).
  - (* Extend an existing line from the start *)
    destruct (Hfirst _ _ Eb) as (Vb & Nb & Kb). pose proof (SE _ _ Eb) as Lb.
    assert (Ha : first_point (start s :: deref (store st) b) = start s) by reflexivity.
    assert (Hb : last_point (start s :: deref (store st) b)
                 = last_point (deref (store st) b)) by (apply last_point_cons, Nb).
    assert (A1' : map_get (key (start s)) (map_delete (key (end_ s)) (fragmentStart st)) = None).
    { rewrite map_get_delete. destruct (_ =? _)%Z; [reflexivity|exact A1]. }
    split; cbn [fragmentStart fragmentEnd rings store]; unfold array_unshift.
    + apply map_set_NoDup, map_delete_NoDup, KS.
    + exact KE.
    + rewrite map_set_size, A1'. pose proof (map_delete_size _ _ _ KS Eb). lia.
    + intros k r Hk. rewrite map_get_set, map_get_delete in Hk.
      destruct (Z.eqb_spec (key (start s)) k).
      { injection Hk as <-. rewrite deref_insert by assumption.
        destruct (decide _); [|congruence]. rewrite Hb. exact Lb. }
      destruct (Z.eqb_spec (key (end_ s)) k); [discriminate|].
      destruct (Hfirst _ _ Hk) as (V & N & K).
      rewrite deref_insert by assumption.
      destruct (decide (r = b)) as [->|Hr]; [congruence|]. exact (SE _ _ Hk).
    + intros k r Hk. destruct (Hlast _ _ Hk) as (V & N & K).
      rewrite deref_insert, map_get_set, map_get_delete by assumption.
      destruct (decide (r = b)) as [->|Hr].
      { rewrite Ha, Z.eqb_refl. reflexivity. }
      specialize (ES _ _ Hk).
      destruct (Z.eqb_spec (key (start s)) (key (first_point (deref (store st) r))));
        [congruence|].
      destruct (Z.eqb_spec (key (end_ s)) (key (first_point (deref (store st) r))));
        [congruence|exact ES].
    + intros k r Hk. rewrite map_get_set, map_get_delete in Hk. cbn [map].
      destruct (Z.eqb_spec (key (start s)) k).
      { injection Hk as <-. rewrite deref_insert by assumption.
        destruct (decide _); [|congruence]. rewrite Ha. left. reflexivity. }
      destruct (Z.eqb_spec (key (end_ s)) k); [discriminate|].
      destruct (Hfirst _ _ Hk) as (V & N & K).
      rewrite deref_insert by assumption. right.
      destruct (decide (r = b)) as [->|Hr]; [congruence|]. exact (PF _ _ Hk).
    + intros k r Hk. destruct (Hlast _ _ Hk) as (V & N & K).
      rewrite deref_insert by assumption. cbn [map]. right.
      destruct (decide (r = b)) as [->|Hr]; [rewrite Hb|]; exact (PL _ _ Hk).
  - (* New line doesn't connect to any existing line *)
    split; cbn [fragmentStart fragmentEnd rings store].
    + apply map_set_NoDup, KS.
    + apply map_set_NoDup, KE.
    + rewrite !map_set_size, A1, A2. lia.
    + intros k r Hk. rewrite map_get_set in Hk. rewrite deref_alloc, map_get_set.
      destruct (Z.eqb_spec (key (start s)) k).
      { injection Hk as <-. destruct (decide _); [|congruence].
        change (last_point [start s; end_ s]) with (end_ s).
        rewrite Z.eqb_refl. reflexivity. }
      destruct (Hfirst _ _ Hk) as (V & N & K).
      destruct (decide (r = length (store st))); [lia|]. specialize (SE _ _ Hk).
      destruct (Z.eqb_spec (key (end_ s)) (key (last_point (deref (store st) r))));
        [congruence|exact SE].
    + intros k r Hk. rewrite map_get_set in Hk. rewrite deref_alloc, map_get_set.
      destruct (Z.eqb_spec (key (end_ s)) k).
      { injection Hk as <-. destruct (decide _); [|congruence].
        change (first_point [start s; end_ s]) with (start s).
        rewrite Z.eqb_refl. reflexivity. }
      destruct (Hlast _ _ Hk) as (V & N & K).
      destruct (decide (r = length (store st))); [lia|]. specialize (ES _ _ Hk).
      destruct (Z.eqb_spec (key (start s)) (key (first_point (deref (store st) r))));
        [congruence|exact ES].
    + intros k r Hk. rewrite map_get_set in Hk. rewrite deref_alloc. cbn [map].
      destruct (Z.eqb_spec (key (start s)) k).
      { injection Hk as <-. destruct (decide _); [|congruence]. left. reflexivity. }
      destruct (Hfirst _ _ Hk) as (V & N & K).
      destruct (decide (r = length (store st))); [lia|]. right. exact (PF _ _ Hk).
    + intros k r Hk. rewrite map_get_set in Hk. rewrite deref_alloc. cbn [map].
      destruct (Z.eqb_spec (key (end_ s)) k).
      { injection Hk as <-. destruct (decide _); [|congruence]. left. reflexivity. }
      destruct (Hlast _ _ Hk) as (V & N & K).
      destruct (decide (r = length (store st))); [lia|]. right. exact (PL _ _ Hk).
Qed.


Lemma stitch_paired_fold segs : forall done st,
  stitch_inv st -> stitch_paired done st ->
  Forall segment_in_range segs ->
  NoDup (map start segs) -> NoDup (map end_ segs) ->
  (forall s, In s segs -> ~ In (start s) (map start done)) ->
  (forall s, In s segs -> ~ In (end_ s) (map end_ done)) ->
  stitch_paired (rev segs ++ done) (fold_left stitch_step segs st) /\
  mismatches (fold_left stitch_step segs st) = mismatches st.
Proof.
  induction segs as [|s segs IH]; intros done st Hinv Hp Hall Hs He Ds De;
    cbn [fold_left rev app]; [split; [exact Hp|reflexivity]|].
  inversion Hall as [|? ? Hr Hall']; subst.
  cbn [map] in Hs, He. apply NoDup_cons in Hs, He.
  destruct Hs as [Ns Hs], He as [Ne He].
  assert (Hp' : stitch_paired (s :: done) (stitch_segment st s)).
  { apply stitch_segment_paired; try assumption; [apply Ds|apply De]; left; reflexivity. }
  assert (Hc : stitch_step st s = stitch_segment st s).
  { unfold stitch_step, check_sizes. rewrite (pair_size _ _ Hp'), Nat.eqb_refl. reflexivity. }
  rewrite Hc, <- app_assoc. cbn [app].
  destruct (IH (s :: done) (stitch_segment st s)) as [G1 G2]; try assumption.
  - apply stitch_segment_inv; assumption.
  - intros s' Hin [E|Hd]; [|exact (Ds s' (or_intror Hin) Hd)].
    apply Ns. rewrite E. apply list_elem_of_In, in_map, Hin.
  - intros s' Hin [E|Hd]; [|exact (De s' (or_intror Hin) Hd)].
    apply Ne. rewrite E. apply list_elem_of_In, in_map, Hin.
  - split; [exact G1|]. rewrite G2. unfold stitch_segment.
    destruct (map_get _ _), (map_get _ _); try reflexivity.
    destruct (_ =? _); reflexivity.
Qed.

Lemma NoDup_prefix {A} n (l : list A) : NoDup l -> NoDup (take n l).
Proof. intros H. rewrite <- (take_drop n l) in H. apply NoDup_app in H. apply H. Qed.

Lemma stitch_paired_init : stitch_paired [] (stitch_init []).
Proof. split; cbn; try discriminate; try constructor. Qed.

(** X18. Where no two segments start at the same point and no two end at the
    same point (and the coordinates fit the base of the keys), the two maps
    of open fragments have the same size after every segment, and the size
    check at the end of the loop body never reports a difference, whatever
    arrays the heap already holds. *)
Theorem stitch_sizes_agree (h : heap) (segments : list segment) :
  Forall segment_in_range segments ->
  NoDup (map start segments) -> NoDup (map end_ segments) ->
  (forall n, map_size (fragmentStart (stitch h (take n segments)))
             = map_size (fragmentEnd (stitch h (take n segments)))) /\
  mismatches (stitch h segments) = [].
Proof.
  intros Hall Hs He.
  assert (G : forall segs, Forall segment_in_range segs ->
            NoDup (map start segs) -> NoDup (map end_ segs) ->
            stitch_paired (rev segs ++ []) (stitch [] segs) /\
            mismatches (stitch [] segs) = []).
  { intros segs H1 H2 H3. unfold stitch.
    apply (stitch_paired_fold segs [] (stitch_init []));
      try assumption; [apply stitch_inv_init|apply stitch_paired_init|..];
      intros ? ? []. }
  split.
  - intros n. rewrite stitch_shift.
    cbn [shift_state fragmentStart fragmentEnd]. rewrite !map_size_shift.
    apply (pair_size (rev (take n segments) ++ [])), G.
    + apply Forall_take, Hall.
    + rewrite <- firstn_map. apply NoDup_prefix, Hs.
    + rewrite <- firstn_map. apply NoDup_prefix, He.
  - rewrite stitch_shift. cbn [shift_state mismatches]. apply G; assumption.
Qed.

Lemma stitch_sizes_agree_witness :
  Forall segment_in_range peak_segments /\
  NoDup (map start peak_segments) /\ NoDup (map end_ peak_segments) /\
  mismatches (stitch [] peak_segments) = [].
Proof.
  assert (H1 : Forall segment_in_range peak_segments) by (repeat constructor; cbn; lia).
  assert (H2 : NoDup (map start peak_segments)) by (refine (bool_decide_unpack _ _); vm_compute; exact I).
  assert (H3 : NoDup (map end_ peak_segments)) by (refine (bool_decide_unpack _ _); vm_compute; exact I).
  split; [exact H1|]. split; [exact H2|]. split; [exact H3|].
  apply (stitch_sizes_agree [] peak_segments H1 H2 H3).
Defined.
